(** * vtkThreadedCallbackQueue: a shallow embedding and its properties

    The development follows [Parallel/Core/vtkThreadedCallbackQueue.cxx]:
    a pool of worker threads popping invokers from a deque, futures that wait
    on prior futures in an on-hold store, and the resize logic of the pool.

    Part 1 embeds the functions of the source as state transformers in an
    error monad (undefined behaviour, failed assertions and C++ exceptions are
    explicit outcomes).  Part 2 gives the interleaving semantics of the
    threads, one transition per critical section.  Part 3 defines the
    invariants and the concrete executions the properties are stated with,
    and Part 4 proves them: the invariants first, then the properties of the
    single functions and of the executions. *)

From stdpp Require Import base option list functions gmap.
From Stdlib Require Import ZArith.

(** ** Outcomes *)

Inductive failure :=
  | UndefinedBehaviour   (* null or dangling dereference, out-of-range operator[] *)
  | AssertionFailed      (* an [assert] of the source does not hold *)
  | OutOfRange           (* std::out_of_range thrown by [unordered_map::at] *)
  | ResourceDeadlock     (* a thread joins itself *)
  | OutOfFuel.           (* the recursion bound of the model is exhausted *)

Inductive result (A : Type) : Type :=
  | Ok (a : A)
  | Err (e : failure).
Arguments Ok {A} a.
Arguments Err {A} e.

#[global] Instance result_ret : MRet result := λ A a, Ok a.
#[global] Instance result_bind : MBind result :=
  λ A B f m, match m with Ok a => f a | Err e => Err e end.

(** Dereferencing a pointer that may be null or dangling. *)
Definition deref {A} (o : option A) : result A :=
  match o with Some a => Ok a | None => Err UndefinedBehaviour end.

(** [unordered_map::at]: throws when the key is absent. *)
Definition map_at {A} (o : option A) : result A :=
  match o with Some a => Ok a | None => Err OutOfRange end.

(** ** Data model *)

(** Addresses of shared future states, thread identifiers and addresses of
    the [std::atomic_int] cells shared between a worker and the id map. *)
Abbreviation future := nat.
Abbreviation thread_id := nat.
Abbreviation atomic_ref := nat.

(** Modelled from the spec: the status enumeration is declared in the header,
    which is not part of the sources; the source file names [ON_HOLD],
    [ENQUEUED] and [RUNNING], the specification adds [DONE]. *)
Inductive StatusType := ON_HOLD | ENQUEUED | RUNNING | DONE.

#[global] Instance StatusType_eq_dec : EqDecision StatusType.
Proof. solve_decision. Defined.

(** [InvokerFutureSharedStateBase]: the fields the source file reads and
    writes.  The counter is an integer that the signaling loop decrements
    without a guard; [InvokerIndex] is a [vtkIdType]. *)
Record InvokerFutureSharedStateBase := mkSharedState {
  Status : StatusType;
  NumberOfPriorSharedFuturesRemaining : Z;
  DependentSharedFutures : list future;
  InvokerIndex : Z;
}.

(** [InvokerBase]: the invoker knows its shared state and carries the
    high-priority flag ([waitingInvoker->IsHighPriority]). *)
Record InvokerBase := mkInvoker {
  GetSharedState : future;
  IsHighPriority : bool;
}.

#[global] Instance InvokerBase_eq_dec : EqDecision InvokerBase.
Proof. solve_decision. Defined.

(** Observable effects, recorded in program order. *)
Inductive event :=
  | EvRun (t : thread_id) (f : future)      (* the payload of [f] ran on thread [t] *)
  | EvEmplaceFront (f : future)             (* InvokerQueue.emplace_front *)
  | EvEmplaceBack (f : future)              (* InvokerQueue.emplace_back *)
  | EvNotifyOne                             (* ConditionVariable.notify_one *)
  | EvNotifyAll                             (* ConditionVariable.notify_all *)
  | EvSpawn (t : thread_id)                 (* std::thread constructed *)
  | EvJoin (t : thread_id).                 (* std::thread::join *)

#[global] Instance event_eq_dec : EqDecision event.
Proof. solve_decision. Defined.

(** The queue object together with the memory it points into: [Heap] holds
    the shared states, [Atomics] the thread-index cells.  A [None] slot of
    [InvokerQueue] is a moved-from (null) [unique_ptr]. *)
Record Queue := mkQueue {
  Heap : gmap future InvokerFutureSharedStateBase;
  InvokerQueue : list (option InvokerBase);
  InvokersOnHold : gmap future InvokerBase;
  NumberOfThreads : Z;
  Destroying : bool;
  Threads : list thread_id;
  ThreadIdToIndex : gmap thread_id atomic_ref;
  Atomics : gmap atomic_ref Z;
  NextThreadId : thread_id;
  Trace : list event;
}.

Definition with_Heap (h : gmap future InvokerFutureSharedStateBase) (q : Queue) : Queue :=
  mkQueue h (InvokerQueue q) (InvokersOnHold q) (NumberOfThreads q) (Destroying q)
          (Threads q) (ThreadIdToIndex q) (Atomics q) (NextThreadId q) (Trace q).

Definition with_InvokerQueue (l : list (option InvokerBase)) (q : Queue) : Queue :=
  mkQueue (Heap q) l (InvokersOnHold q) (NumberOfThreads q) (Destroying q)
          (Threads q) (ThreadIdToIndex q) (Atomics q) (NextThreadId q) (Trace q).

Definition with_InvokersOnHold (m : gmap future InvokerBase) (q : Queue) : Queue :=
  mkQueue (Heap q) (InvokerQueue q) m (NumberOfThreads q) (Destroying q)
          (Threads q) (ThreadIdToIndex q) (Atomics q) (NextThreadId q) (Trace q).

Definition with_NumberOfThreads (n : Z) (q : Queue) : Queue :=
  mkQueue (Heap q) (InvokerQueue q) (InvokersOnHold q) n (Destroying q)
          (Threads q) (ThreadIdToIndex q) (Atomics q) (NextThreadId q) (Trace q).

Definition with_Destroying (b : bool) (q : Queue) : Queue :=
  mkQueue (Heap q) (InvokerQueue q) (InvokersOnHold q) (NumberOfThreads q) b
          (Threads q) (ThreadIdToIndex q) (Atomics q) (NextThreadId q) (Trace q).

Definition with_Threads (l : list thread_id) (q : Queue) : Queue :=
  mkQueue (Heap q) (InvokerQueue q) (InvokersOnHold q) (NumberOfThreads q) (Destroying q)
          l (ThreadIdToIndex q) (Atomics q) (NextThreadId q) (Trace q).

Definition with_ThreadIdToIndex (m : gmap thread_id atomic_ref) (q : Queue) : Queue :=
  mkQueue (Heap q) (InvokerQueue q) (InvokersOnHold q) (NumberOfThreads q) (Destroying q)
          (Threads q) m (Atomics q) (NextThreadId q) (Trace q).

Definition with_Atomics (m : gmap atomic_ref Z) (q : Queue) : Queue :=
  mkQueue (Heap q) (InvokerQueue q) (InvokersOnHold q) (NumberOfThreads q) (Destroying q)
          (Threads q) (ThreadIdToIndex q) m (NextThreadId q) (Trace q).

Definition with_NextThreadId (n : thread_id) (q : Queue) : Queue :=
  mkQueue (Heap q) (InvokerQueue q) (InvokersOnHold q) (NumberOfThreads q) (Destroying q)
          (Threads q) (ThreadIdToIndex q) (Atomics q) n (Trace q).

Definition emit (es : list event) (q : Queue) : Queue :=
  mkQueue (Heap q) (InvokerQueue q) (InvokersOnHold q) (NumberOfThreads q) (Destroying q)
          (Threads q) (ThreadIdToIndex q) (Atomics q) (NextThreadId q) (Trace q ++ es).

(** A freshly constructed object, before the constructor body runs. *)
Definition empty_queue : Queue :=
  mkQueue ∅ [] ∅ 0 false [] ∅ ∅ 0 [].

(** ** Machine integers

    [std::size_t] is an unsigned and [vtkIdType] a signed 64-bit integer (the
    default build of the toolkit); conversions between them wrap. *)
Definition to_size_t (z : Z) : Z := (z mod 2 ^ 64)%Z.
Definition to_vtkIdType (z : Z) : Z := ((z + 2 ^ 63) mod 2 ^ 64 - 2 ^ 63)%Z.

Definition vtkIdType_range (z : Z) : Prop := (- 2 ^ 63 ≤ z < 2 ^ 63)%Z.

(** ** Access to shared states *)

Definition load (f : future) (q : Queue) : result InvokerFutureSharedStateBase :=
  deref (Heap q !! f).

Definition store_Status (f : future) (s : StatusType) (q : Queue) : result Queue :=
  st ← load f q;
  mret (with_Heap (<[f := mkSharedState s (NumberOfPriorSharedFuturesRemaining st)
                          (DependentSharedFutures st) (InvokerIndex st)]> (Heap q)) q).

Definition store_NumberOfPriorSharedFuturesRemaining (f : future) (n : Z) (q : Queue)
  : result Queue :=
  st ← load f q;
  mret (with_Heap (<[f := mkSharedState (Status st) n
                          (DependentSharedFutures st) (InvokerIndex st)]> (Heap q)) q).

Definition store_InvokerIndex (f : future) (i : Z) (q : Queue) : result Queue :=
  st ← load f q;
  mret (with_Heap (<[f := mkSharedState (Status st) (NumberOfPriorSharedFuturesRemaining st)
                          (DependentSharedFutures st) i]> (Heap q)) q).

Definition store_DependentSharedFutures (f : future) (l : list future) (q : Queue)
  : result Queue :=
  st ← load f q;
  mret (with_Heap (<[f := mkSharedState (Status st) (NumberOfPriorSharedFuturesRemaining st)
                          l (InvokerIndex st)]> (Heap q)) q).

(** ** vtkThreadedCallbackQueue::PopFrontNullptr *)

Fixpoint strip_nullptr (l : list (option InvokerBase)) : list (option InvokerBase) :=
  match l with
  | None :: l' => strip_nullptr l'
  | _ => l
  end.

Definition PopFrontNullptr (q : Queue) : Queue :=
  with_InvokerQueue (strip_nullptr (InvokerQueue q)) q.

(** [InvokerQueue.front()->GetSharedState()->InvokerIndex]: undefined on an
    empty queue and on a null front. *)
Definition front_InvokerIndex (q : Queue) : result Z :=
  slot ← deref (head (InvokerQueue q));
  inv ← deref slot;
  st ← load (GetSharedState inv) q;
  mret (InvokerIndex st).

(** ** The invoker's call operator *)

(** Modelled from the spec: [InvokerBase::operator()] is defined in the
    template implementation file, which is not part of the sources.  Per the
    specification the payload is opaque and its completion moves the status
    from RUNNING to DONE. *)
Definition call_invoker (t : thread_id) (invoker : InvokerBase) (q : Queue) : result Queue :=
  q ← store_Status (GetSharedState invoker) DONE q;
  mret (emit [EvRun t (GetSharedState invoker)] q).

(** ** vtkThreadedCallbackQueue::SignalDependentSharedFutures *)

(** What one iteration over a dependent decides. *)
Inductive signal_action :=
  | Skip
  | InvokeNow (waitingInvoker : InvokerBase)
  | ToLaunch (waitingInvoker : InvokerBase).

(** The lambda that moves the waiting invoker out of [InvokersOnHold]. *)
Definition take_on_hold (f : future) (q : Queue) : result (InvokerBase * Queue) :=
  tmp ← deref (InvokersOnHold q !! f);
  mret (tmp, with_InvokersOnHold (delete f (InvokersOnHold q)) q).

(** Body of the loop over [DependentSharedFutures], up to the choice between
    the inline call and the collection in [invokersToLaunch]. *)
Definition signal_dependent (f : future) (q : Queue) : result (signal_action * Queue) :=
  futureState ← load f q;
  let remaining := (NumberOfPriorSharedFuturesRemaining futureState - 1)%Z in
  q ← store_NumberOfPriorSharedFuturesRemaining f remaining q;
  if decide (Status futureState = ON_HOLD ∧ remaining = 0%Z) then
    '(waitingInvoker, q) ← take_on_hold f q;
    if IsHighPriority waitingInvoker
    then mret (InvokeNow waitingInvoker, q)
    else mret (ToLaunch waitingInvoker, q)
  else mret (Skip, q).

(** The loop, with the recursive call to [Invoke] as a parameter. *)
Fixpoint signal_loop (invoke : InvokerBase → Queue → result Queue)
    (dependents : list future) (invokersToLaunch : list InvokerBase) (q : Queue)
  : result (list InvokerBase * Queue) :=
  match dependents with
  | [] => mret (invokersToLaunch, q)
  | f :: dependents =>
      '(a, q) ← signal_dependent f q;
      match a with
      | Skip => signal_loop invoke dependents invokersToLaunch q
      | InvokeNow waitingInvoker =>
          q ← invoke waitingInvoker q;
          signal_loop invoke dependents invokersToLaunch q
      | ToLaunch waitingInvoker =>
          signal_loop invoke dependents (invokersToLaunch ++ [waitingInvoker]) q
      end
  end.

(** The reinsertion loop: [index] is the [std::size_t] local. *)
Fixpoint launch_loop (invokersToLaunch : list InvokerBase) (index : Z) (q : Queue)
  : result Queue :=
  match invokersToLaunch with
  | [] => mret q
  | inv :: rest =>
      st ← load (GetSharedState inv) q;
      if decide (Status st = ON_HOLD) then
        let index := to_size_t (index - 1) in
        q ← store_InvokerIndex (GetSharedState inv) (to_vtkIdType index) q;
        q ← store_Status (GetSharedState inv) ENQUEUED q;
        let q := emit [EvEmplaceFront (GetSharedState inv)]
                   (with_InvokerQueue (Some inv :: InvokerQueue q) q) in
        launch_loop rest index q
      else Err AssertionFailed
  end.

(** The block guarded by [!invokersToLaunch.empty()] and the wakeups. *)
Definition launch_invokers (invokersToLaunch : list InvokerBase) (q : Queue) : result Queue :=
  q ← match invokersToLaunch with
      | [] => mret q
      | _ =>
          index ← match InvokerQueue q with
                  | [] => mret (Z.of_nat (length invokersToLaunch))
                  | _ => i ← front_InvokerIndex q; mret (to_size_t i)
                  end;
          launch_loop invokersToLaunch index q
      end;
  mret (emit (replicate (length invokersToLaunch) EvNotifyOne) q).

Definition SignalDependentSharedFutures_with (invoke : InvokerBase → Queue → result Queue)
    (invoker : InvokerBase) (q : Queue) : result Queue :=
  invokerState ← load (GetSharedState invoker) q;
  '(invokersToLaunch, q) ← signal_loop invoke (DependentSharedFutures invokerState) [] q;
  launch_invokers invokersToLaunch q.

(** ** vtkThreadedCallbackQueue::Invoke

    [Invoke] and [SignalDependentSharedFutures] call each other (a
    high-priority dependent is invoked from inside the loop); [fuel] bounds
    the depth of that nesting. *)
Fixpoint Invoke (fuel : nat) (t : thread_id) (invoker : InvokerBase) (q : Queue)
  : result Queue :=
  match fuel with
  | 0 => Err OutOfFuel
  | S fuel =>
      q ← store_Status (GetSharedState invoker) RUNNING q;
      q ← call_invoker t invoker q;
      SignalDependentSharedFutures_with (Invoke fuel t) invoker q
  end.

Definition SignalDependentSharedFutures (fuel : nat) (t : thread_id)
    (invoker : InvokerBase) (q : Queue) : result Queue :=
  SignalDependentSharedFutures_with (Invoke fuel t) invoker q.

(** ** vtkThreadedCallbackQueue::TryInvoke *)

(** The lambda that computes [invoker]: the result is the (possibly null)
    pointer moved out of the queue. *)
Definition TryInvoke_take (state : future) (q : Queue) : result (option InvokerBase * Queue) :=
  st ← load state q;
  if decide (Status st ≠ ENQUEUED) then mret (None, q)
  else if decide (InvokerQueue q = []) then mret (None, q)
  else
    front ← front_InvokerIndex q;
    let index := to_vtkIdType (InvokerIndex st - front) in
    if decide (0 ≤ index < Z.of_nat (length (InvokerQueue q)))%Z then
      result ← deref (InvokerQueue q !! Z.to_nat index);
      let q := with_InvokerQueue (<[Z.to_nat index := None]> (InvokerQueue q)) q in
      if decide (index = 0%Z)
      then mret (result, PopFrontNullptr (with_InvokerQueue (tail (InvokerQueue q)) q))
      else mret (result, q)
    else Err UndefinedBehaviour.

Definition TryInvoke (fuel : nat) (t : thread_id) (state : future) (q : Queue)
  : result (bool * Queue) :=
  '(invoker, q) ← TryInvoke_take state q;
  match invoker with
  | None => mret (false, q)
  | Some invoker => q ← Invoke fuel t invoker q; mret (true, q)
  end.

(** ** ThreadWorker *)

Record ThreadWorker := mkThreadWorker {
  ThreadIndex : atomic_ref;
}.

(** [ThreadWorker::OnHold] *)
Definition OnHold (w : ThreadWorker) (q : Queue) : result bool :=
  i ← deref (Atomics q !! ThreadIndex w);
  mret (bool_decide (i < NumberOfThreads q)%Z && negb (Destroying q)
        && bool_decide (InvokerQueue q = [])).

(** [ThreadWorker::Continue] *)
Definition Continue (w : ThreadWorker) (q : Queue) : result bool :=
  i ← deref (Atomics q !! ThreadIndex w);
  mret (bool_decide (i < NumberOfThreads q)%Z && negb (bool_decide (InvokerQueue q = []))).

(** The part of [ThreadWorker::Pop] that runs under the queue mutex. *)
Inductive pop_outcome :=
  | PopBlocked                                   (* sleeps on the condition variable *)
  | PopFalse                                     (* [return false] *)
  | PopTaken (invoker : InvokerBase) (q : Queue). (* the front was moved out *)

Definition Pop_take (w : ThreadWorker) (q : Queue) : result pop_outcome :=
  onHold ← OnHold w q;
  if (onHold : bool) then mret PopBlocked
  else
    continue ← Continue w q;
    if negb continue then mret PopFalse
    else
      slot ← deref (head (InvokerQueue q));
      let q := PopFrontNullptr (with_InvokerQueue (tail (InvokerQueue q)) q) in
      invoker ← deref slot;
      mret (PopTaken invoker q).

(** [ThreadWorker::Pop]: [None] stands for a worker left asleep in [wait]. *)
Definition Pop (fuel : nat) (t : thread_id) (w : ThreadWorker) (q : Queue)
  : result (option bool * Queue) :=
  o ← Pop_take w q;
  match o with
  | PopBlocked => mret (None, q)
  | PopFalse => mret (Some false, q)
  | PopTaken invoker q => q ← Invoke fuel t invoker q; mret (Some true, q)
  end.

(** The statements after the loop of [ThreadWorker::operator()]. *)
Definition deregister (t : thread_id) (q : Queue) : Queue :=
  with_ThreadIdToIndex (delete t (ThreadIdToIndex q)) q.

Inductive worker_state := WorkerAsleep | WorkerExited | WorkerBusy.

(** [ThreadWorker::operator()], for at most [n] calls of [Pop]. *)
Fixpoint ThreadWorker_run (n fuel : nat) (t : thread_id) (w : ThreadWorker) (q : Queue)
  : result (worker_state * Queue) :=
  match n with
  | 0 => mret (WorkerBusy, q)
  | S n =>
      '(r, q) ← Pop fuel t w q;
      match r with
      | Some true => ThreadWorker_run n fuel t w q
      | Some false => mret (WorkerExited, deregister t q)
      | None => mret (WorkerAsleep, q)
      end
  end.

(** ** vtkThreadedCallbackQueue::Sync *)

Definition Sync (this_thread : thread_id) (startId : Z) (q : Queue) : result Queue :=
  if decide (0 ≤ startId ≤ Z.of_nat (length (Threads q)))%Z then
    let joined := drop (Z.to_nat startId) (Threads q) in
    if decide (this_thread ∈ joined) then Err ResourceDeadlock
    else mret (emit (EvJoin <$> joined) q)
  else Err UndefinedBehaviour.

(** ** vtkThreadedCallbackQueue::SetNumberOfThreads *)

(** The generator passed to [std::generate_n] together with the
    [back_inserter]: one new worker. *)
Definition spawn_worker (q : Queue) : Queue :=
  let threadIndex := fresh (dom (Atomics q)) in
  let thread := NextThreadId q in
  let ids := match ThreadIdToIndex q !! thread with
             | Some _ => ThreadIdToIndex q
             | None => <[thread := threadIndex]> (ThreadIdToIndex q)
             end in
  emit [EvSpawn thread]
    (with_Threads (Threads q ++ [thread])
      (with_ThreadIdToIndex ids
        (with_Atomics (<[threadIndex := Z.of_nat (length (Threads q))]> (Atomics q))
          (with_NextThreadId (S thread) q)))).

(** The block that swaps the calling worker with worker 0. *)
Definition swap_with_thread0 (this_thread : thread_id) (numberOfThreads : Z) (q : Queue)
  : result Queue :=
  cell ← map_at (ThreadIdToIndex q !! this_thread);
  threadIndex ← deref (Atomics q !! cell);
  if decide (threadIndex ≠ 0 ∧ threadIndex >= numberOfThreads)%Z then
    thread0 ← deref (Threads q !! 0);
    cell0 ← map_at (ThreadIdToIndex q !! thread0);
    if decide (0 ≤ threadIndex < Z.of_nat (length (Threads q)))%Z then
      self ← deref (Threads q !! Z.to_nat threadIndex);
      let q := with_Threads (<[0 := self]> (<[Z.to_nat threadIndex := thread0]> (Threads q))) q in
      tmp ← deref (Atomics q !! cell0);
      value ← deref (Atomics q !! cell);
      let q := with_Atomics (<[cell0 := value]> (Atomics q)) q in
      mret (with_Atomics (<[cell := tmp]> (Atomics q)) q)
    else Err UndefinedBehaviour
  else mret q.

(** The shrinking branch up to and including [notify_all]. *)
Definition shrink_begin (this_thread : thread_id) (numberOfThreads : Z) (q : Queue)
  : result Queue :=
  q ← swap_with_thread0 this_thread numberOfThreads q;
  mret (emit [EvNotifyAll] (with_NumberOfThreads numberOfThreads q)).

(** [Sync(NumberOfThreads)] and [Threads.resize(numberOfThreads)]. *)
Definition shrink_end (this_thread : thread_id) (numberOfThreads : Z) (q : Queue)
  : result Queue :=
  q ← Sync this_thread (NumberOfThreads q) q;
  mret (with_Threads (take (Z.to_nat numberOfThreads) (Threads q)) q).

(** The body of the lambda handed to [PushControl], run by [this_thread]. *)
Definition SetNumberOfThreads (this_thread : thread_id) (numberOfThreads : Z) (q : Queue)
  : result Queue :=
  let size := Z.of_nat (length (Threads q)) in
  if Destroying q then mret q
  else if decide (size = numberOfThreads) then mret q
  else if decide (size < numberOfThreads)%Z then
    mret (Nat.iter (Z.to_nat (numberOfThreads - size)) spawn_worker
            (with_NumberOfThreads numberOfThreads q))
  else
    q ← shrink_begin this_thread numberOfThreads q;
    shrink_end this_thread numberOfThreads q.

(** The constructor. *)
Definition vtkThreadedCallbackQueue_new (this_thread : thread_id) : result Queue :=
  SetNumberOfThreads this_thread 1 empty_queue.

(** The destructor. *)
Definition vtkThreadedCallbackQueue_delete (this_thread : thread_id) (q : Queue)
  : result Queue :=
  Sync this_thread 0 (emit [EvNotifyAll] (with_Destroying true q)).

(** ** Submission and blocking wait

    Modelled from the spec: [Push], [PushDependent] and [Wait] are defined in
    the template implementation file, which is not part of the sources.  The
    definitions below follow sections 4.1 and 4.5 of the specification. *)

(** Modelled from the spec: [Push] creates a state with no dependency and
    status ENQUEUED, gives it one more than the front's index (0 on an empty
    queue), appends the invoker and wakes one worker. *)
Definition Push (q : Queue) : result (future * Queue) :=
  let f := fresh (dom (Heap q)) in
  index ← match InvokerQueue q with
          | [] => mret 0%Z
          | _ => i ← front_InvokerIndex q; mret (to_vtkIdType (i + 1))
          end;
  let q := with_Heap (<[f := mkSharedState ENQUEUED 0 [] index]> (Heap q)) q in
  mret (f, emit [EvEmplaceBack f; EvNotifyOne]
             (with_InvokerQueue (InvokerQueue q ++ [Some (mkInvoker f false)]) q)).

(** Modelled from the spec: the prior futures that are not DONE yet. *)
Fixpoint pending_priors (priors : list future) (q : Queue) : result (list future) :=
  match priors with
  | [] => mret []
  | p :: priors =>
      st ← load p q;
      rest ← pending_priors priors q;
      mret (if decide (Status st = DONE) then rest else p :: rest)
  end.

(** Modelled from the spec: the new state is appended to the dependents of
    every prior that is not DONE. *)
Fixpoint register_dependent (f : future) (pending : list future) (q : Queue)
  : result Queue :=
  match pending with
  | [] => mret q
  | p :: pending =>
      st ← load p q;
      q ← store_DependentSharedFutures p (DependentSharedFutures st ++ [f]) q;
      register_dependent f pending q
  end.

(** Modelled from the spec: [PushDependent] counts the priors that are not
    DONE; with none it behaves like [Push], otherwise the state is ON_HOLD
    and the invoker goes to the on-hold store. *)
Definition PushDependent (priors : list future) (q : Queue) : result (future * Queue) :=
  pending ← pending_priors priors q;
  match pending with
  | [] => Push q
  | _ =>
      let f := fresh (dom (Heap q)) in
      let q := with_Heap (<[f := mkSharedState ON_HOLD (Z.of_nat (length pending)) [] 0]>
                            (Heap q)) q in
      let q := with_InvokersOnHold (<[f := mkInvoker f false]> (InvokersOnHold q)) q in
      q ← register_dependent f pending q;
      mret (f, q)
  end.

(** Modelled from the spec: a [Wait] on a future that is ON_HOLD marks its
    invoker as high priority. *)
Definition Wait_mark (f : future) (q : Queue) : result Queue :=
  st ← load f q;
  if decide (Status st = ON_HOLD) then
    match InvokersOnHold q !! f with
    | Some inv =>
        mret (with_InvokersOnHold
                (<[f := mkInvoker (GetSharedState inv) true]> (InvokersOnHold q)) q)
    | None => mret q
    end
  else mret q.

(** * Part 2: interleaving semantics *)

(** What a thread is in the middle of: the frames of its call stack that
    belong to the queue. *)
Inductive Frame :=
  | InInvoke (invoker : InvokerBase)    (* [Invoke] called, status not written yet *)
  | InPayload (invoker : InvokerBase)   (* inside the invoker's call operator *)
  | InSignal (invoker : InvokerBase) (dependents : list future)
             (invokersToLaunch : list InvokerBase)
                                        (* inside the loop over the dependents *)
  | InSync (numberOfThreads : Z)        (* blocked in [Sync] while shrinking *)
  | InDestructor                        (* blocked in [Sync] of the destructor *)
  | AfterLoop.                          (* [Pop] returned false *)

(** The threads around the queue: their stacks and the [ThreadWorker] each
    worker thread runs.  [Priors] and [Unmet] are auxiliary variables: no
    transition reads them.  [Priors f] is the list of prior futures [f] was
    submitted with, [Unmet f] the priors registered for [f] whose completion
    signal has not reached [f] yet. *)
Record System := mkSystem {
  Shared : Queue;
  Stacks : gmap thread_id (list Frame);
  Workers : gmap thread_id ThreadWorker;
  Priors : future → list future;
  Unmet : future → list future;
}.

Definition with_Shared (q : Queue) (s : System) : System :=
  mkSystem q (Stacks s) (Workers s) (Priors s) (Unmet s).

Definition with_Stacks (m : gmap thread_id (list Frame)) (s : System) : System :=
  mkSystem (Shared s) m (Workers s) (Priors s) (Unmet s).

Definition with_Workers (m : gmap thread_id ThreadWorker) (s : System) : System :=
  mkSystem (Shared s) (Stacks s) m (Priors s) (Unmet s).

Definition with_Priors (p : future → list future) (s : System) : System :=
  mkSystem (Shared s) (Stacks s) (Workers s) p (Unmet s).

Definition with_Unmet (u : future → list future) (s : System) : System :=
  mkSystem (Shared s) (Stacks s) (Workers s) (Priors s) u.

(** All frames of all threads. *)
Definition frames (m : gmap thread_id (list Frame)) : list Frame :=
  concat (snd <$> map_to_list m).

Definition is_sync (fr : Frame) : bool :=
  match fr with InSync _ => true | _ => false end.

(** [DestroyMutex] is held from the entry of the shrinking branch to the end
    of [Sync]: exactly while some thread is blocked in [Sync]. *)
Definition DestroyMutex_held (s : System) : bool :=
  existsb is_sync (frames (Stacks s)).

Definition stack (s : System) (t : thread_id) : list Frame :=
  default [] (Stacks s !! t).

Definition set_stack (t : thread_id) (fs : list Frame) (s : System) : System :=
  with_Stacks (<[t := fs]> (Stacks s)) s.

(** A thread may call the interface of the queue when it runs code of the
    application: inside a payload, or outside the queue on a thread that is
    not a worker. *)
Definition user_code (s : System) (t : thread_id) : bool :=
  match stack s t with
  | [] => bool_decide (Workers s !! t = None)
  | InPayload _ :: _ => true
  | _ => false
  end.

Fixpoint remove_first (x : future) (l : list future) : list future :=
  match l with
  | [] => []
  | y :: l => if decide (x = y) then l else y :: remove_first x l
  end.

(** One new worker thread, seen from the system. *)
Definition spawn (s : System) : System :=
  let q := Shared s in
  with_Workers (<[NextThreadId q := mkThreadWorker (fresh (dom (Atomics q)))]> (Workers s))
    (with_Shared (spawn_worker q) s).

Inductive label :=
  | LPush (t : thread_id)
  | LPushDependent (t : thread_id) (priors : list future)
  | LWait (t : thread_id) (f : future)
  | LTryInvoke (t : thread_id) (f : future)
  | LSetNumberOfThreads (t : thread_id) (numberOfThreads : Z)
  | LSyncDone (t : thread_id)
  | LDestroy (t : thread_id)
  | LPop (t : thread_id)
  | LExit (t : thread_id)
  | LInvoke (t : thread_id)
  | LPayloadDone (t : thread_id)
  | LSignal (t : thread_id)
  | LLaunch (t : thread_id).

(** The outcome of a transition that is not enabled in the current state. *)
Inductive outcome (A : Type) : Type :=
  | Done (a : A)
  | Failed (e : failure)
  | NotEnabled.
Arguments Done {A} a.
Arguments Failed {A} e.
Arguments NotEnabled {A}.

Definition lift {A} (r : result A) : outcome A :=
  match r with Ok a => Done a | Err e => Failed e end.

#[global] Instance outcome_ret : MRet outcome := λ A a, Done a.
#[global] Instance outcome_bind : MBind outcome :=
  λ A B f m, match m with Done a => f a | Failed e => Failed e | NotEnabled => NotEnabled end.

Definition guard (b : bool) : outcome unit :=
  if b then Done () else NotEnabled.

(** One transition: a critical section of the source, or a call of the
    interface, executed by thread [t].  [LPop] ends where [Pop] unlocks the
    queue mutex and [LTryInvoke] where the lambda of [TryInvoke] returns;
    [LInvoke] is the write of RUNNING in [Invoke], [LPayloadDone] the end of
    the payload, [LSignal] one iteration of the loop over the dependents and
    [LLaunch] the reinsertion block with its wakeups.  [LSetNumberOfThreads]
    runs the lambda up to [Sync], which [LSyncDone] completes once the joined
    threads have left their loop; [LDestroy] is the destructor up to its
    [Sync].  [TryInvoke] holds the mutex of the target state from its check
    to the write of RUNNING; the semantics does not, and so has more
    interleavings than the source there, which the invariants tolerate.  A
    transition whose code has undefined behaviour, fails an assertion or
    throws is [Failed] and leads nowhere. *)
Definition step (l : label) (s : System) : outcome System :=
  let q := Shared s in
  match l with
  | LPush t =>
      _ ← guard (user_code s t);
      '(f, q) ← lift (Push q);
      mret (with_Unmet (<[f := []]> (Unmet s))
             (with_Priors (<[f := []]> (Priors s)) (with_Shared q s)))
  | LPushDependent t priors =>
      _ ← guard (user_code s t);
      pending ← lift (pending_priors priors q);
      '(f, q) ← lift (PushDependent priors q);
      mret (with_Unmet (<[f := pending]> (Unmet s))
             (with_Priors (<[f := priors]> (Priors s)) (with_Shared q s)))
  | LWait t f =>
      _ ← guard (user_code s t);
      q ← lift (Wait_mark f q);
      mret (with_Shared q s)
  | LTryInvoke t f =>
      _ ← guard (user_code s t);
      '(invoker, q) ← lift (TryInvoke_take f q);
      match invoker with
      | None => mret (with_Shared q s)
      | Some invoker => mret (set_stack t (InInvoke invoker :: stack s t) (with_Shared q s))
      end
  | LSetNumberOfThreads t numberOfThreads =>
      _ ← guard (user_code s t);
      _ ← guard (negb (DestroyMutex_held s));
      let size := Z.of_nat (length (Threads q)) in
      if Destroying q then mret s
      else if decide (size = numberOfThreads) then mret s
      else if decide (size < numberOfThreads)%Z then
        mret (Nat.iter (Z.to_nat (numberOfThreads - size)) spawn
                (with_Shared (with_NumberOfThreads numberOfThreads q) s))
      else
        q ← lift (shrink_begin t numberOfThreads q);
        mret (set_stack t (InSync numberOfThreads :: stack s t) (with_Shared q s))
  | LSyncDone t =>
      match stack s t with
      | InSync numberOfThreads :: fs =>
          _ ← guard (forallb (λ t', bool_decide (Workers s !! t' = None))
                       (drop (Z.to_nat (NumberOfThreads q)) (Threads q)));
          q ← lift (shrink_end t numberOfThreads q);
          mret (set_stack t fs (with_Shared q s))
      | _ => NotEnabled
      end
  | LDestroy t =>
      _ ← guard (user_code s t);
      _ ← guard (negb (DestroyMutex_held s));
      mret (set_stack t (InDestructor :: stack s t)
             (with_Shared (emit [EvNotifyAll] (with_Destroying true q)) s))
  | LPop t =>
      match Workers s !! t, stack s t with
      | Some w, [] =>
          o ← lift (Pop_take w q);
          match o with
          | PopBlocked => NotEnabled
          | PopFalse => mret (set_stack t [AfterLoop] s)
          | PopTaken invoker q => mret (set_stack t [InInvoke invoker] (with_Shared q s))
          end
      | _, _ => NotEnabled
      end
  | LExit t =>
      match stack s t with
      | AfterLoop :: fs =>
          mret (set_stack t fs
                 (with_Workers (delete t (Workers s)) (with_Shared (deregister t q) s)))
      | _ => NotEnabled
      end
  | LInvoke t =>
      match stack s t with
      | InInvoke invoker :: fs =>
          q ← lift (store_Status (GetSharedState invoker) RUNNING q);
          mret (set_stack t (InPayload invoker :: fs) (with_Shared q s))
      | _ => NotEnabled
      end
  | LPayloadDone t =>
      match stack s t with
      | InPayload invoker :: fs =>
          q ← lift (call_invoker t invoker q);
          invokerState ← lift (load (GetSharedState invoker) q);
          mret (set_stack t (InSignal invoker (DependentSharedFutures invokerState) [] :: fs)
                 (with_Shared q s))
      | _ => NotEnabled
      end
  | LSignal t =>
      match stack s t with
      | InSignal invoker (f :: dependents) invokersToLaunch :: fs =>
          '(a, q) ← lift (signal_dependent f q);
          let s := with_Unmet (<[f := remove_first (GetSharedState invoker) (Unmet s f)]>
                                 (Unmet s)) (with_Shared q s) in
          match a with
          | Skip =>
              mret (set_stack t (InSignal invoker dependents invokersToLaunch :: fs) s)
          | InvokeNow waitingInvoker =>
              mret (set_stack t (InInvoke waitingInvoker
                                 :: InSignal invoker dependents invokersToLaunch :: fs) s)
          | ToLaunch waitingInvoker =>
              mret (set_stack t (InSignal invoker dependents
                                   (invokersToLaunch ++ [waitingInvoker]) :: fs) s)
          end
      | _ => NotEnabled
      end
  | LLaunch t =>
      match stack s t with
      | InSignal invoker [] invokersToLaunch :: fs =>
          q ← lift (launch_invokers invokersToLaunch q);
          mret (set_stack t fs (with_Shared q s))
      | _ => NotEnabled
      end
  end.

(** The system before the constructor of the queue runs. *)
Definition initial : System :=
  mkSystem empty_queue ∅ ∅ (λ _, []) (λ _, []).

Inductive reachable : System → Prop :=
  | reachable_initial : reachable initial
  | reachable_step l s s' : reachable s → step l s = Done s' → reachable s'.

Fixpoint run (ls : list label) (s : System) : outcome System :=
  match ls with
  | [] => Done s
  | l :: ls => s ← step l s; run ls s
  end.

(** * Part 3: the vocabulary of the properties *)

(** ** Views of the heap *)

Definition status (q : Queue) (f : future) : option StatusType :=
  Status <$> Heap q !! f.

Definition counter (q : Queue) (f : future) : option Z :=
  NumberOfPriorSharedFuturesRemaining <$> Heap q !! f.

Definition dependents (q : Queue) (f : future) : option (list future) :=
  DependentSharedFutures <$> Heap q !! f.

Definition index_of (q : Queue) (f : future) : option Z :=
  InvokerIndex <$> Heap q !! f.

(** The addressing scheme of the ready queue: the entry at position [k] has
    the index of the front plus [k]. *)
Definition addressable (q : Queue) (front : Z) : Prop :=
  ∀ k inv, InvokerQueue q !! k = Some (Some inv) →
           index_of q (GetSharedState inv) = Some (front + Z.of_nat k)%Z.

(** The part of the queue the thread pool depends on. *)
Definition same_pool (q q' : Queue) : Prop :=
  NumberOfThreads q' = NumberOfThreads q ∧ Destroying q' = Destroying q ∧
  Threads q' = Threads q ∧ ThreadIdToIndex q' = ThreadIdToIndex q ∧
  Atomics q' = Atomics q ∧ NextThreadId q' = NextThreadId q.

(** [PopFrontNullptr] keeps the front of the queue from being null. *)
Definition front_ok (l : list (option InvokerBase)) : Prop := head l ≠ Some None.

Fixpoint occurrences (x : future) (l : list future) : nat :=
  match l with
  | [] => 0
  | y :: l => (if decide (x = y) then 1 else 0) + occurrences x l
  end.

(** ** Ownership of invokers

    An invoker is a [unique_ptr]: at any time it is held by the ready queue,
    by the on-hold store or by one frame of one thread.  The table lists the
    holders with the role each has; the role determines the status. *)

Inductive kind := KQueue | KHold | KClaimed | KInline | KRunning | KSignaling | KCollected.

Definition claimed_kind (i : InvokerBase) : kind :=
  if IsHighPriority i then KInline else KClaimed.

Definition frame_table (fr : Frame) : list (future * kind) :=
  match fr with
  | InInvoke i => [(GetSharedState i, claimed_kind i)]
  | InPayload i => [(GetSharedState i, KRunning)]
  | InSignal i _ invokersToLaunch =>
      (GetSharedState i, KSignaling)
      :: ((λ w, (GetSharedState w, KCollected)) <$> invokersToLaunch)
  | _ => []
  end.

Definition queue_table (l : list (option InvokerBase)) : list (future * kind) :=
  (λ i, (GetSharedState i, KQueue)) <$> omap id l.

Definition hold_table (m : gmap future InvokerBase) : list (future * kind) :=
  (λ f, (f, KHold)) <$> elements (dom m).

Definition status_ok (k : kind) (st : StatusType) : Prop :=
  match k with
  | KQueue => st = ENQUEUED
  | KHold | KCollected => st = ON_HOLD
  | KClaimed => st = ENQUEUED
  | KInline => st = ENQUEUED ∨ st = ON_HOLD
  | KRunning => st = RUNNING
  | KSignaling => st = DONE
  end.

Definition table_of (q : Queue) (m : gmap thread_id (list Frame)) : list (future * kind) :=
  queue_table (InvokerQueue q) ++ hold_table (InvokersOnHold q) ++ (frames m ≫= frame_table).

Record ownership (q : Queue) (m : gmap thread_id (list Frame)) : Prop := {
  own_nodup : NoDup (table_of q m).*1;
  own_status : ∀ f k, (f, k) ∈ table_of q m → ∃ st, status q f = Some st ∧ status_ok k st;
  own_key : ∀ f inv, InvokersOnHold q !! f = Some inv → GetSharedState inv = f;
  own_front : front_ok (InvokerQueue q);
}.

Definition owned (s : System) : Prop := ownership (Shared s) (Stacks s).

(** The keys of the on-hold store are the states of the invokers it holds. *)
Definition hold_keys (q : Queue) : Prop :=
  ∀ f inv, InvokersOnHold q !! f = Some inv → GetSharedState inv = f.

(** What a nested invocation may do: it only removes invokers from the
    on-hold store, and whatever it pushes to the front of the ready queue
    was in the store before. *)
Definition run_ok (q q' : Queue) : Prop :=
  hold_keys q' ∧
  (∀ g, is_Some (InvokersOnHold q' !! g) → is_Some (InvokersOnHold q !! g)) ∧
  ∃ es, Trace q' = Trace q ++ es ∧
        ∀ g, EvEmplaceFront g ∈ es → is_Some (InvokersOnHold q !! g).

(** ** Accounting of dependencies *)

(** What the invariant asks of a frame: the dependents still to be signaled
    are allocated, and each of them still counts the signaling future among
    its unmet priors. *)
Definition frame_ok (q : Queue) (unmet : future → list future) (fr : Frame) : Prop :=
  match fr with
  | InSignal inv rest _ =>
      ∀ f, f ∈ rest →
           is_Some (status q f) ∧
           occurrences f rest ≤ occurrences (GetSharedState inv) (unmet f)
  | _ => True
  end.

Record dependencies (s : System) : Prop := {
  dep_closed : ∀ p l g, dependents (Shared s) p = Some l → g ∈ l → is_Some (status (Shared s) g);
  dep_frames : Forall (frame_ok (Shared s) (Unmet s)) (frames (Stacks s));
  dep_counter : ∀ f, is_Some (InvokersOnHold (Shared s) !! f) →
                     counter (Shared s) f = Some (Z.of_nat (length (Unmet s f)));
  dep_unmet : ∀ f p, p ∈ Priors s f → status (Shared s) p = Some DONE ∨ p ∈ Unmet s f;
  dep_pending : ∀ p l, dependents (Shared s) p = Some l → status (Shared s) p ≠ Some DONE →
                       ∀ f, occurrences f l ≤ occurrences p (Unmet s f);
  dep_released : ∀ f, is_Some (InvokersOnHold (Shared s) !! f) ∨
                      ∀ p, p ∈ Priors s f → status (Shared s) p = Some DONE;
}.

(** ** Status transitions *)

Inductive transition : StatusType → StatusType → Prop :=
  | transition_enqueue : transition ON_HOLD ENQUEUED
  | transition_run : transition ENQUEUED RUNNING
  | transition_done : transition RUNNING DONE.

(** The step that starts a high-priority invoker taken from the on-hold
    store by the signaling loop. *)
Definition inline_start (l : label) (s : System) (f : future) : Prop :=
  ∃ t inv fs, l = LInvoke t ∧ stack s t = InInvoke inv :: fs ∧
              GetSharedState inv = f ∧ IsHighPriority inv = true.

(** ** The thread pool *)

(** Workers are registered under their own cell, distinct workers have
    distinct cells, and the cell of a worker holds its position in
    [Threads]. *)
Record pool_core (q : Queue) (W : gmap thread_id ThreadWorker) : Prop := {
  pc_registered : ∀ t w, W !! t = Some w → ThreadIdToIndex q !! t = Some (ThreadIndex w);
  pc_registered_inv : ∀ t c, ThreadIdToIndex q !! t = Some c →
                             ∃ w, W !! t = Some w ∧ ThreadIndex w = c;
  pc_inj : ∀ t t' w w', W !! t = Some w → W !! t' = Some w' →
                        ThreadIndex w = ThreadIndex w' → t = t';
  pc_position : ∀ t w, W !! t = Some w →
                       ∃ i : nat, Atomics q !! ThreadIndex w = Some (Z.of_nat i) ∧
                                  Threads q !! i = Some t;
  pc_nodup : NoDup (Threads q);
  pc_fresh : ∀ t, t ∈ Threads q → t < NextThreadId q;
}.

(** The transitions that leave the pool alone. *)
Definition task_label (l : label) : Prop :=
  match l with
  | LSetNumberOfThreads _ _ | LSyncDone _ | LDestroy _ | LExit _ => False
  | _ => True
  end.

Record pool_inv (s : System) : Prop := {
  pool_core_ok : pool_core (Shared s) (Workers s);
  pool_size : DestroyMutex_held s = false →
              NumberOfThreads (Shared s) = Z.of_nat (length (Threads (Shared s)));
  pool_sync : ∀ n, InSync n ∈ frames (Stacks s) → n = NumberOfThreads (Shared s);
}.




(** ** Concrete executions *)

(** The state a schedule leads to (the initial state when the schedule
    cannot be run to its end). *)
Definition state_after (ls : list label) : System :=
  match run ls initial with Done s => s | _ => initial end.

(** A queue with four workers, built by the constructor and one resize from
    the application thread 100. *)
Definition pool_of_four : Queue :=
  match q ← vtkThreadedCallbackQueue_new 100; SetNumberOfThreads 100 4 q with
  | Ok q => q
  | Err _ => empty_queue
  end.

(** The same queue after its destructor ran on thread 100. *)
Definition destroyed_pool : Queue :=
  match vtkThreadedCallbackQueue_delete 100 pool_of_four with
  | Ok q => q
  | Err _ => empty_queue
  end.

(** Task 1 depends on task 0; worker 0 runs both. *)
Definition chain_schedule : list label :=
  [LSetNumberOfThreads 100 1; LPush 100; LPushDependent 100 [0]; LPop 0; LInvoke 0;
   LPayloadDone 0; LSignal 0; LLaunch 0; LPop 0; LInvoke 0].

(** Thread 101 takes task 0 through [TryInvoke]; task 1 depends on it and is
    waited for, so that thread 101 is about to invoke it inline. *)
Definition wait_schedule : list label :=
  [LSetNumberOfThreads 100 1; LPush 100; LTryInvoke 101 0; LInvoke 101;
   LPushDependent 100 [0]; LWait 100 1; LPayloadDone 101; LSignal 101].

(** Worker 0 has moved task 2 out of the queue and released the queue mutex
    (and not yet written RUNNING) when task 1 is reinserted as past due. *)
Definition race_schedule : list label :=
  [LSetNumberOfThreads 100 1; LPush 100; LTryInvoke 101 0; LInvoke 101;
   LPushDependent 100 [0]; LPush 100; LPush 100; LPop 0; LPayloadDone 101;
   LSignal 101; LLaunch 101].



Definition three_pushes : list label :=
  [LSetNumberOfThreads 100 1; LPush 100; LPush 100; LPush 100].



(** ** Further vocabulary *)

(** The payloads that ran, in the order of the trace, each with the thread
    that ran it. *)
Definition runs (tr : list event) : list (thread_id * future) :=
  omap (λ e, match e with EvRun t f => Some (t, f) | _ => None end) tr.

(** The log of a state: no payload ran twice, the payloads that ran are
    those of the DONE states, and the priors of a task ran before it. *)
Record run_log (s : System) : Prop := {
  log_nodup : NoDup (runs (Trace (Shared s))).*2;
  log_done : ∀ f, f ∈ (runs (Trace (Shared s))).*2 ↔ status (Shared s) f = Some DONE;
  log_order : ∀ i t f p, runs (Trace (Shared s)) !! i = Some (t, f) → p ∈ Priors s f →
                         ∃ j t', j < i ∧ runs (Trace (Shared s)) !! j = Some (t', p);
}.

(** A state that is not in the on-hold store expects no signal any more. *)
Definition settled (s : System) : Prop :=
  ∀ f, InvokersOnHold (Shared s) !! f = None → Unmet s f = [].

(** The transitions of the path from [Pop] to the end of the signaling. *)
Definition worker_label (l : label) : Prop :=
  match l with
  | LPop _ | LExit _ | LInvoke _ | LPayloadDone _ | LSignal _ | LLaunch _ => True
  | _ => False
  end.

(** The events of an invocation on thread [t]. *)
Definition invoke_event (t : thread_id) (e : event) : bool :=
  match e with
  | EvRun t' _ => bool_decide (t' = t)
  | EvEmplaceFront _ | EvNotifyOne => true
  | _ => false
  end.

Definition emplaced (es : list event) : list future :=
  omap (λ e, match e with EvEmplaceFront f => Some f | _ => None end) es.

Definition wakeups (es : list event) : nat :=
  length (omap (λ e, match e with EvNotifyOne => Some () | _ => None end) es).

(** The pool and the lists of dependents are untouched, the on-hold store
    only loses entries, the events are payloads run on [t], insertions at
    the front and wakeups, as many wakeups as insertions, and the ready
    queue only grows at its front. *)
Definition invoke_frame (t : thread_id) (q q' : Queue) : Prop :=
  same_pool q q' ∧ (∀ g, dependents q' g = dependents q g) ∧
  (∀ g, is_Some (InvokersOnHold q' !! g) → is_Some (InvokersOnHold q !! g)) ∧
  ∃ es l, Trace q' = Trace q ++ es ∧ forallb (invoke_event t) es = true ∧
          wakeups es = length (emplaced es) ∧
          InvokerQueue q' = l ++ InvokerQueue q ∧ length l = length (emplaced es).

(** No resize is in flight once [Destroying] is set. *)
Definition quiescent (s : System) : Prop :=
  Destroying (Shared s) = true → ∀ n, InSync n ∉ frames (Stacks s).

(** The pool does not change. *)
Definition frozen (q q' : Queue) : Prop :=
  Destroying q' = true ∧ Threads q' = Threads q ∧ NumberOfThreads q' = NumberOfThreads q ∧
  Atomics q' = Atomics q ∧ NextThreadId q' = NextThreadId q ∧
  ∀ t, is_Some (ThreadIdToIndex q' !! t) → is_Some (ThreadIdToIndex q !! t).

(** Two independent tasks in the queue. *)
Definition two_pushes : list label :=
  [LSetNumberOfThreads 100 1; LPush 100; LPush 100].

(** Thread 101 has moved task 1 out of the middle of the queue. *)
Definition tombstone_schedule : list label :=
  three_pushes ++ [LTryInvoke 101 1].

(** Task 2 waits for tasks 0 and 1. *)
Definition join_schedule : list label :=
  [LSetNumberOfThreads 100 1; LPush 100; LPush 100; LPushDependent 100 [0; 1]].

(** The destructor starts on a pool of two; a worker leaves and another
    thread asks for five threads. *)
Definition destroy_schedule : list label :=
  [LSetNumberOfThreads 100 2; LDestroy 100].

Definition after_destroy_schedule : list label :=
  [LPop 0; LExit 0; LSetNumberOfThreads 101 5].

(** A queue as the constructor leaves it. *)
Definition new_queue : Queue :=
  match vtkThreadedCallbackQueue_new 100 with Ok q => q | Err _ => empty_queue end.

(** * Part 4: proofs *)

(** ** Inversion of monadic computations *)

Lemma bind_Ok {A B} (m : result A) (k : A → result B) (b : B) :
  m ≫= k = Ok b → ∃ a, m = Ok a ∧ k a = Ok b.
Proof. destruct m as [a|e]; [by exists a | done]. Qed.

Lemma deref_Ok {A} (o : option A) (a : A) : deref o = Ok a → o = Some a.
Proof. by destruct o; intros [= ->]. Qed.

Lemma map_at_Ok {A} (o : option A) (a : A) : map_at o = Ok a → o = Some a.
Proof. by destruct o; intros [= ->]. Qed.

Lemma mret_Ok {A} (a b : A) : (mret a : result A) = Ok b → a = b.
Proof. by intros [= ->]. Qed.

Lemma bind_Done {A B} (m : outcome A) (k : A → outcome B) (b : B) :
  m ≫= k = Done b → ∃ a, m = Done a ∧ k a = Done b.
Proof. destruct m as [a|e|]; [by exists a | done | done]. Qed.

Lemma lift_Done {A} (r : result A) (a : A) : lift r = Done a → r = Ok a.
Proof. by destruct r; intros [= ->]. Qed.

Lemma guard_Done b u : guard b = Done u → b = true.
Proof. by destruct b. Qed.

Lemma mret_Done {A} (a b : A) : (mret a : outcome A) = Done b → a = b.
Proof. by intros [= ->]. Qed.

Ltac inv_res :=
  repeat match goal with
  | H : Err _ = Ok _ |- _ => discriminate H
  | H : Failed _ = Done _ |- _ => discriminate H
  | H : NotEnabled = Done _ |- _ => discriminate H
  | H : Ok _ = Ok _ |- _ => injection H as H; try subst
  | H : Done _ = Done _ |- _ => injection H as H; try subst
  | H : mret _ = Ok _ |- _ => apply mret_Ok in H; try subst
  | H : mret _ = Done _ |- _ => apply mret_Done in H; try subst
  | H : _ ≫= _ = Ok _ |- _ =>
      let a := fresh "a" in let E := fresh "E" in
      apply bind_Ok in H as (a & E & H)
  | H : _ ≫= _ = Done _ |- _ =>
      let a := fresh "a" in let E := fresh "E" in
      apply bind_Done in H as (a & E & H)
  | H : deref _ = Ok _ |- _ => apply deref_Ok in H
  | H : map_at _ = Ok _ |- _ => apply map_at_Ok in H
  | H : lift _ = Done _ |- _ => apply lift_Done in H
  | H : guard _ = Done _ |- _ => apply guard_Done in H
  | H : load _ _ = Ok _ |- _ => apply deref_Ok in H
  | H : (let '(_, _) := ?p in _) = _ |- _ => destruct p
  | H : (if decide ?P then _ else _) = _ |- _ => destruct (decide P)
  | H : (_ , _) = (_ , _) |- _ => injection H as ? ?; try subst
  end.

(** ** Tables of owned invokers *)

Lemma frames_split (m : gmap thread_id (list Frame)) t :
  ∃ rest, frames m ≡ₚ default [] (m !! t) ++ rest ∧
          ∀ fs, frames (<[t := fs]> m) ≡ₚ fs ++ rest.
Proof.
  unfold frames. destruct (m !! t) as [fs0|] eqn:E; simpl.
  - exists (concat (snd <$> map_to_list (delete t m))). split.
    + rewrite <- (map_to_list_delete m t fs0 E). done.
    + intros fs. rewrite <- (insert_delete_eq m).
      rewrite map_to_list_insert by apply lookup_delete_eq. done.
  - exists (concat (snd <$> map_to_list m)). split; [done|].
    intros fs. rewrite map_to_list_insert by done. done.
Qed.

Lemma queue_table_app l1 l2 : queue_table (l1 ++ l2) = queue_table l1 ++ queue_table l2.
Proof. unfold queue_table. by rewrite omap_app, fmap_app. Qed.

Lemma queue_table_strip l : queue_table (strip_nullptr l) = queue_table l.
Proof. induction l as [|[i|] l IH]; simpl; auto. Qed.

Lemma queue_table_take (l : list (option InvokerBase)) i inv :
  l !! i = Some (Some inv) →
  queue_table l ≡ₚ (GetSharedState inv, KQueue) :: queue_table (<[i := None]> l).
Proof.
  revert i. induction l as [|x l IH]; intros [|i] H; simplify_eq/=.
  - done.
  - destruct x as [j|]; simpl.
    + unfold queue_table in *. simpl. rewrite (IH _ H). apply perm_swap.
    + unfold queue_table in *. simpl. by apply IH.
Qed.

Lemma hold_table_insert_fresh (m : gmap future InvokerBase) f inv :
  m !! f = None → hold_table (<[f := inv]> m) ≡ₚ (f, KHold) :: hold_table m.
Proof.
  intros H. unfold hold_table. rewrite dom_insert_L.
  rewrite elements_union_singleton by by apply not_elem_of_dom. done.
Qed.

Lemma hold_table_insert_same (m : gmap future InvokerBase) f inv :
  is_Some (m !! f) → hold_table (<[f := inv]> m) = hold_table m.
Proof. intros H. unfold hold_table. by rewrite dom_insert_lookup_L. Qed.

Lemma hold_table_delete (m : gmap future InvokerBase) f inv :
  m !! f = Some inv → hold_table m ≡ₚ (f, KHold) :: hold_table (delete f m).
Proof.
  intros H. rewrite <- (hold_table_insert_fresh (delete f m) f inv) by apply lookup_delete_eq.
  rewrite insert_delete_eq, insert_id; done.
Qed.

(** ** Effects of the stores *)

Lemma same_pool_refl q : same_pool q q.
Proof. by repeat split. Qed.

Lemma same_pool_trans q1 q2 q3 : same_pool q1 q2 → same_pool q2 q3 → same_pool q1 q3.
Proof. unfold same_pool. intros (?&?&?&?&?&?) (?&?&?&?&?&?). repeat split; congruence. Qed.

Section stores.
Context (q q' : Queue) (f : future).

Lemma store_Status_spec s :
  store_Status f s q = Ok q' →
  is_Some (Heap q !! f) ∧
  (∀ g, status q' g = if decide (g = f) then Some s else status q g) ∧
  (∀ g, counter q' g = counter q g) ∧ (∀ g, dependents q' g = dependents q g) ∧
  InvokerQueue q' = InvokerQueue q ∧ InvokersOnHold q' = InvokersOnHold q ∧
  Trace q' = Trace q ∧ same_pool q q'.
Proof.
  unfold store_Status. intros H. inv_res. split; [eauto|].
  unfold status, counter, dependents. simpl.
  repeat split; try done; intros g; rewrite lookup_insert; case_decide;
    simplify_eq; rewrite ?E; try done; by destruct (decide _).
Qed.

Lemma store_InvokerIndex_spec i :
  store_InvokerIndex f i q = Ok q' →
  is_Some (Heap q !! f) ∧
  (∀ g, status q' g = status q g) ∧
  (∀ g, counter q' g = counter q g) ∧ (∀ g, dependents q' g = dependents q g) ∧
  InvokerQueue q' = InvokerQueue q ∧ InvokersOnHold q' = InvokersOnHold q ∧
  Trace q' = Trace q ∧ same_pool q q'.
Proof.
  unfold store_InvokerIndex. intros H. inv_res. split; [eauto|].
  unfold status, counter, dependents. simpl.
  repeat split; try done; intros g; rewrite lookup_insert; case_decide;
    simplify_eq; rewrite ?E; done.
Qed.

Lemma store_counter_spec n :
  store_NumberOfPriorSharedFuturesRemaining f n q = Ok q' →
  is_Some (Heap q !! f) ∧
  (∀ g, status q' g = status q g) ∧
  (∀ g, counter q' g = if decide (g = f) then Some n else counter q g) ∧
  (∀ g, dependents q' g = dependents q g) ∧
  InvokerQueue q' = InvokerQueue q ∧ InvokersOnHold q' = InvokersOnHold q ∧
  Trace q' = Trace q ∧ same_pool q q'.
Proof.
  unfold store_NumberOfPriorSharedFuturesRemaining. intros H. inv_res. split; [eauto|].
  unfold status, counter, dependents. simpl.
  repeat split; try done; intros g; rewrite lookup_insert; case_decide;
    simplify_eq; rewrite ?E; try done; by destruct (decide _).
Qed.

Lemma store_dependents_spec l :
  store_DependentSharedFutures f l q = Ok q' →
  is_Some (Heap q !! f) ∧
  (∀ g, status q' g = status q g) ∧
  (∀ g, counter q' g = counter q g) ∧
  (∀ g, dependents q' g = if decide (g = f) then Some l else dependents q g) ∧
  InvokerQueue q' = InvokerQueue q ∧ InvokersOnHold q' = InvokersOnHold q ∧
  Trace q' = Trace q ∧ same_pool q q'.
Proof.
  unfold store_DependentSharedFutures. intros H. inv_res. split; [eauto|].
  unfold status, counter, dependents. simpl.
  repeat split; try done; intros g; rewrite lookup_insert; case_decide;
    simplify_eq; rewrite ?E; try done; by destruct (decide _).
Qed.

End stores.

(** ** Effects of the operations on the views *)

Lemma front_ok_strip l : front_ok (strip_nullptr l).
Proof. induction l as [|[i|] l IH]; simpl; [done..|apply IH]. Qed.

Lemma strip_nullptr_front l :
  strip_nullptr l = [] ∨ ∃ inv l', strip_nullptr l = Some inv :: l'.
Proof. induction l as [|[i|] l IH]; simpl; eauto. Qed.

Lemma call_invoker_spec t inv q q' :
  call_invoker t inv q = Ok q' →
  is_Some (Heap q !! GetSharedState inv) ∧
  (∀ g, status q' g = if decide (g = GetSharedState inv) then Some DONE else status q g) ∧
  (∀ g, counter q' g = counter q g) ∧ (∀ g, dependents q' g = dependents q g) ∧
  InvokerQueue q' = InvokerQueue q ∧ InvokersOnHold q' = InvokersOnHold q ∧
  Trace q' = Trace q ++ [EvRun t (GetSharedState inv)] ∧ same_pool q q'.
Proof.
  unfold call_invoker. intros H. inv_res.
  apply store_Status_spec in E as (?&?&?&?&?&?&?&?).
  unfold same_pool in *. simpl. repeat split; try done; try tauto; try congruence.
Qed.

Lemma signal_dependent_spec f q a q' :
  signal_dependent f q = Ok (a, q') →
  ∃ st, Heap q !! f = Some st ∧
    (∀ g, status q' g = status q g) ∧
    (∀ g, counter q' g =
          if decide (g = f) then Some (NumberOfPriorSharedFuturesRemaining st - 1)%Z
          else counter q g) ∧
    (∀ g, dependents q' g = dependents q g) ∧
    InvokerQueue q' = InvokerQueue q ∧ Trace q' = Trace q ∧ same_pool q q' ∧
    match a with
    | Skip =>
        InvokersOnHold q' = InvokersOnHold q ∧
        ¬ (Status st = ON_HOLD ∧ NumberOfPriorSharedFuturesRemaining st = 1%Z)
    | InvokeNow w =>
        Status st = ON_HOLD ∧ NumberOfPriorSharedFuturesRemaining st = 1%Z ∧
        InvokersOnHold q !! f = Some w ∧ InvokersOnHold q' = delete f (InvokersOnHold q) ∧
        IsHighPriority w = true
    | ToLaunch w =>
        Status st = ON_HOLD ∧ NumberOfPriorSharedFuturesRemaining st = 1%Z ∧
        InvokersOnHold q !! f = Some w ∧ InvokersOnHold q' = delete f (InvokersOnHold q) ∧
        IsHighPriority w = false
    end.
Proof.
  unfold signal_dependent, take_on_hold. intros H. inv_res.
  - match goal with H : store_NumberOfPriorSharedFuturesRemaining _ _ _ = _ |- _ =>
      apply store_counter_spec in H as (?&?&?&?&?&?&?&?) end.
    match goal with H : Heap q !! f = Some ?s |- _ => exists s end.
    match goal with H : context [IsHighPriority ?w] |- _ =>
      destruct (IsHighPriority w) eqn:Ehp end; inv_res; simpl;
      (split; [done|]); unfold same_pool in *; simpl;
      repeat split; try done; try tauto; try congruence; lia.
  - match goal with H : store_NumberOfPriorSharedFuturesRemaining _ _ _ = _ |- _ =>
      apply store_counter_spec in H as (?&?&?&?&?&?&?&?) end.
    match goal with H : Heap q !! f = Some ?s |- _ => exists s end.
    split_and!; try done.
    intros [? ?]. match goal with H : ¬ _ |- _ => apply H end. split; [done|lia].
Qed.

Lemma launch_loop_spec l index q q' :
  launch_loop l index q = Ok q' →
  InvokerQueue q' = (Some <$> rev l) ++ InvokerQueue q ∧
  InvokersOnHold q' = InvokersOnHold q ∧
  (∀ g, status q' g = if decide (g ∈ GetSharedState <$> l) then Some ENQUEUED else status q g) ∧
  (∀ g, counter q' g = counter q g) ∧ (∀ g, dependents q' g = dependents q g) ∧
  Trace q' = Trace q ++ (EvEmplaceFront <$> (GetSharedState <$> l)) ∧
  same_pool q q'.
Proof.
  revert index q. induction l as [|inv l IH]; intros index q H; simpl in H.
  - inv_res. simpl. rewrite app_nil_r. split_and!; try done.
  - inv_res.
    apply store_InvokerIndex_spec in E0 as (?&Hs1&Hc1&Hd1&Hq1&Hh1&Ht1&Hp1).
    apply store_Status_spec in E1 as (?&Hs2&Hc2&Hd2&Hq2&Hh2&Ht2&Hp2).
    apply IH in H as (Hq&Hh&Hs&Hc&Hd&Ht&Hp). simpl in *.
    split_and!.
    + rewrite Hq, Hq2, Hq1, fmap_app. simpl. by rewrite <- app_assoc.
    + congruence.
    + intros g. rewrite Hs.
      match goal with |- context [status (emit _ (with_InvokerQueue _ ?x)) g] =>
        change (status (emit _ (with_InvokerQueue _ x)) g) with (status x g) end.
      rewrite Hs2, Hs1.
      repeat case_decide; try done; set_solver.
    + intros g. rewrite Hc.
      match goal with |- context [counter (emit _ (with_InvokerQueue _ ?x)) g] =>
        change (counter (emit _ (with_InvokerQueue _ x)) g) with (counter x g) end.
      by rewrite Hc2, Hc1.
    + intros g. rewrite Hd.
      match goal with |- context [dependents (emit _ (with_InvokerQueue _ ?x)) g] =>
        change (dependents (emit _ (with_InvokerQueue _ x)) g) with (dependents x g) end.
      by rewrite Hd2, Hd1.
    + rewrite Ht. simpl. rewrite Ht2, Ht1. by rewrite <- app_assoc.
    + unfold same_pool in *. simpl in *. intuition congruence.
Qed.

Lemma launch_invokers_spec l q q' :
  launch_invokers l q = Ok q' →
  InvokerQueue q' = (Some <$> rev l) ++ InvokerQueue q ∧
  InvokersOnHold q' = InvokersOnHold q ∧
  (∀ g, status q' g = if decide (g ∈ GetSharedState <$> l) then Some ENQUEUED else status q g) ∧
  (∀ g, counter q' g = counter q g) ∧ (∀ g, dependents q' g = dependents q g) ∧
  Trace q' = Trace q ++ (EvEmplaceFront <$> (GetSharedState <$> l))
                     ++ replicate (length l) EvNotifyOne ∧
  same_pool q q'.
Proof.
  unfold launch_invokers. intros H. inv_res.
  assert (launch_loop l (match InvokerQueue q with
                         | [] => Z.of_nat (length l)
                         | _ => match front_InvokerIndex q with
                                | Ok i => to_size_t i | Err _ => 0%Z end
                         end) q = Ok a) as Hloop.
  { destruct l as [|inv l]; [simpl in *; by inv_res|].
    inv_res. destruct (InvokerQueue q); inv_res; [done|].
    match goal with H : front_InvokerIndex q = Ok _ |- _ => rewrite H end. done. }
  apply launch_loop_spec in Hloop as (Hq&Hh&Hs&Hc&Hd&Ht&Hp).
  simpl. split_and!; try done.
  rewrite Ht. by rewrite <- app_assoc.
Qed.

Lemma front_InvokerIndex_Ok q i :
  front_InvokerIndex q = Ok i →
  ∃ inv l st, InvokerQueue q = Some inv :: l ∧ Heap q !! GetSharedState inv = Some st ∧
              i = InvokerIndex st.
Proof.
  unfold front_InvokerIndex. intros H. inv_res.
  destruct (InvokerQueue q) as [|[inv|] l]; simplify_eq/=. eauto 10.
Qed.

Lemma TryInvoke_take_spec state q o q' :
  TryInvoke_take state q = Ok (o, q') →
  Heap q' = Heap q ∧ InvokersOnHold q' = InvokersOnHold q ∧ Trace q' = Trace q ∧
  same_pool q q' ∧
  (front_ok (InvokerQueue q) → front_ok (InvokerQueue q')) ∧
  match o with
  | None => InvokerQueue q' = InvokerQueue q
  | Some inv =>
      queue_table (InvokerQueue q) ≡ₚ (GetSharedState inv, KQueue) :: queue_table (InvokerQueue q')
  end.
Proof.
  unfold TryInvoke_take. intros H. inv_res; try by (split_and!; try done; by inv_res).
  - match goal with H : front_InvokerIndex q = Ok _ |- _ =>
      apply front_InvokerIndex_Ok in H as (finv & l & fst & Hl & Hf & ->) end.
    match goal with H : to_vtkIdType _ = 0%Z |- _ => rewrite H in * end.
    rewrite Hl in *. simplify_eq/=.
    split_and!; try done.
    + intros _. apply front_ok_strip.
    + rewrite queue_table_strip. done.
  - match goal with H : front_InvokerIndex q = Ok _ |- _ =>
      apply front_InvokerIndex_Ok in H as (finv & l & fst & Hl & Hf & ->) end.
    remember (Z.to_nat (to_vtkIdType (InvokerIndex a - InvokerIndex fst))) as i eqn:Ei.
    assert (i ≠ 0%nat) as Hne by lia.
    destruct i as [|i]; [done|].
    rewrite Hl in *. simpl. split_and!; try done.
    destruct o as [inv|].
    + simplify_eq/=. unfold queue_table; simpl.
      match goal with H : l !! _ = Some (Some inv) |- _ =>
        apply queue_table_take in H; unfold queue_table in H; rewrite H end.
      apply perm_swap.
    + simplify_eq/=. f_equal. by apply list_insert_id.
Qed.

Lemma Pop_take_taken w q inv q' :
  Pop_take w q = Ok (PopTaken inv q') →
  ∃ l, InvokerQueue q = Some inv :: l ∧ InvokerQueue q' = strip_nullptr l ∧
       Heap q' = Heap q ∧ InvokersOnHold q' = InvokersOnHold q ∧ Trace q' = Trace q ∧
       same_pool q q'.
Proof.
  unfold Pop_take. intros H.
  destruct (OnHold w q) as [[]|]; simpl in H; [done| |done].
  destruct (Continue w q) as [[]|]; simpl in H; [|done|done].
  inv_res.
  destruct (InvokerQueue q) as [|[i|] l] eqn:El; simplify_eq/=.
  exists l. split_and!; done.
Qed.

Lemma Push_spec q f q' :
  Push q = Ok (f, q') →
  Heap q !! f = None ∧
  (∀ g, status q' g = if decide (g = f) then Some ENQUEUED else status q g) ∧
  (∀ g, counter q' g = if decide (g = f) then Some 0%Z else counter q g) ∧
  (∀ g, dependents q' g = if decide (g = f) then Some [] else dependents q g) ∧
  InvokerQueue q' = InvokerQueue q ++ [Some (mkInvoker f false)] ∧
  InvokersOnHold q' = InvokersOnHold q ∧
  Trace q' = Trace q ++ [EvEmplaceBack f; EvNotifyOne] ∧ same_pool q q'.
Proof.
  unfold Push. intros H. inv_res.
  assert (Heap q !! fresh (dom (Heap q)) = None) as Hfresh.
  { apply not_elem_of_dom, is_fresh. }
  unfold status, counter, dependents. simpl.
  split_and!; try done; intros g; rewrite lookup_insert; case_decide; simplify_eq;
    try done; by destruct (decide _).
Qed.

(** ** Counting occurrences *)

Lemma occurrences_app x l1 l2 :
  occurrences x (l1 ++ l2) = occurrences x l1 + occurrences x l2.
Proof. induction l1 as [|y l1 IH]; simpl; [done|]. rewrite IH. lia. Qed.

Lemma occurrences_replicate x n y :
  occurrences x (replicate n y) = if decide (x = y) then n else 0.
Proof. induction n as [|n IH]; simpl; repeat case_decide; try done; lia. Qed.

Lemma occurrences_zero x l : x ∉ l → occurrences x l = 0.
Proof.
  induction l as [|y l IH]; simpl; [done|]. intros H.
  rewrite decide_False by set_solver. rewrite IH by set_solver. done.
Qed.

Lemma occurrences_elem_of x l : 0 < occurrences x l → x ∈ l.
Proof.
  intros H. destruct (decide (x ∈ l)) as [|Hn]; [done|].
  rewrite occurrences_zero in H by done. lia.
Qed.

Lemma occurrences_remove_first_eq x l :
  occurrences x (remove_first x l) = pred (occurrences x l).
Proof.
  induction l as [|y l IH]; simpl; [done|]. case_decide; simpl; [done|].
  rewrite decide_False by done. done.
Qed.

Lemma occurrences_remove_first_ne x y l :
  x ≠ y → occurrences y (remove_first x l) = occurrences y l.
Proof.
  intros Hne. induction l as [|z l IH]; simpl; [done|].
  destruct (decide (x = z)) as [->|]; simpl.
  - rewrite decide_False by done. done.
  - by rewrite IH.
Qed.

Lemma length_remove_first x l : x ∈ l → S (length (remove_first x l)) = length l.
Proof.
  induction l as [|y l IH]; [by intros ?%elem_of_nil|]. simpl.
  case_decide; [done|]. intros [?|Hin]%elem_of_cons; [done|]. simpl. by rewrite IH.
Qed.

Lemma elem_of_remove_first_ne x y l : y ≠ x → y ∈ l → y ∈ remove_first x l.
Proof.
  intros Hne. induction l as [|z l IH]; simpl; [done|]. case_decide; set_solver.
Qed.

(** ** Submission *)

Lemma pending_priors_spec priors q pending :
  pending_priors priors q = Ok pending →
  (∀ p, p ∈ priors → is_Some (Heap q !! p)) ∧
  (∀ p, p ∈ pending → p ∈ priors ∧ is_Some (Heap q !! p) ∧ status q p ≠ Some DONE) ∧
  (∀ p, p ∈ priors → status q p = Some DONE ∨ p ∈ pending).
Proof.
  revert pending. induction priors as [|p priors IH]; intros pending H; simpl in H.
  - inv_res. split_and!; intros p; by intros ?%elem_of_nil.
  - apply bind_Ok in H as (st & Hst & H). apply deref_Ok in Hst.
    apply bind_Ok in H as (rest & Hrest & H). apply mret_Ok in H.
    destruct (IH _ Hrest) as (IH1 & IH2 & IH3).
    assert (status q p = Some (Status st)) as Hsp by (unfold status; by rewrite Hst).
    split_and!.
    + intros p' [->|?]%elem_of_cons; eauto.
    + intros p' Hin. case_decide; subst.
      * destruct (IH2 _ Hin) as (?&?&?). set_solver.
      * apply elem_of_cons in Hin as [->|Hin].
        -- split_and!; [set_solver|eauto|]. rewrite Hsp. congruence.
        -- destruct (IH2 _ Hin) as (?&?&?). set_solver.
    + intros p' [->|Hin]%elem_of_cons.
      * case_decide; subst; [left; rewrite Hsp; congruence | right; set_solver].
      * destruct (IH3 _ Hin); [by left|right]. case_decide; subst; set_solver.
Qed.

Lemma register_dependent_spec f pending q q' :
  register_dependent f pending q = Ok q' →
  (∀ g, status q' g = status q g) ∧ (∀ g, counter q' g = counter q g) ∧
  (∀ g, dependents q' g = (λ l, l ++ replicate (occurrences g pending) f) <$> dependents q g) ∧
  InvokerQueue q' = InvokerQueue q ∧ InvokersOnHold q' = InvokersOnHold q ∧
  Trace q' = Trace q ∧ same_pool q q'.
Proof.
  revert q. induction pending as [|p pending IH]; intros q H; simpl in H.
  - inv_res. split_and!; try done. intros g. simpl.
    destruct (dependents q' g); simpl; [|done]. by rewrite app_nil_r.
  - apply bind_Ok in H as (st & Hst & H). apply deref_Ok in Hst.
    apply bind_Ok in H as (q1 & Hq1 & H).
    apply store_dependents_spec in Hq1 as (_&Hs1&Hc1&Hd1&Hq1&Hh1&Ht1&Hp1).
    apply IH in H as (Hs&Hc&Hd&Hq&Hh&Ht&Hp).
    split_and!.
    + intros g. by rewrite Hs, Hs1.
    + intros g. by rewrite Hc, Hc1.
    + intros g. rewrite Hd, Hd1. simpl. case_decide; subst.
      * unfold dependents. rewrite Hst. simpl.
        f_equal. rewrite <- app_assoc. done.
      * done.
    + congruence.
    + congruence.
    + congruence.
    + eapply same_pool_trans; eauto.
Qed.

Lemma PushDependent_spec priors q pending f q' :
  pending_priors priors q = Ok pending →
  PushDependent priors q = Ok (f, q') →
  Heap q !! f = None ∧
  if decide (pending = []) then Push q = Ok (f, q')
  else
    (∀ g, status q' g = if decide (g = f) then Some ON_HOLD else status q g) ∧
    (∀ g, counter q' g =
          if decide (g = f) then Some (Z.of_nat (length pending)) else counter q g) ∧
    (∀ g, dependents q' g =
          if decide (g = f) then Some []
          else (λ l, l ++ replicate (occurrences g pending) f) <$> dependents q g) ∧
    InvokerQueue q' = InvokerQueue q ∧
    InvokersOnHold q' = <[f := mkInvoker f false]> (InvokersOnHold q) ∧
    Trace q' = Trace q ∧ same_pool q q'.
Proof.
  intros Hpend H. unfold PushDependent in H. rewrite Hpend in H. simpl in H.
  destruct (pending_priors_spec _ _ _ Hpend) as (_ & Hp2 & _).
  destruct pending as [|p0 pending0] eqn:Epend.
  - rewrite decide_True by done. split; [|done].
    by apply Push_spec in H as (?&_).
  - rewrite decide_False by done. rewrite <- Epend in *.
    apply bind_Ok in H as (q1 & H & Hret). apply mret_Ok in Hret. simplify_eq.
    assert (Heap q !! fresh (dom (Heap q)) = None) as Hfresh.
    { apply not_elem_of_dom, is_fresh. }
    set (f := fresh (dom (Heap q))) in *.
    assert (occurrences f (p0 :: pending0) = 0) as Hocc.
    { apply occurrences_zero. intros Hin. destruct (Hp2 _ Hin) as (_ & [? Hs] & _).
      congruence. }
    apply register_dependent_spec in H as (Hs&Hc&Hd&Hq&Hh&Ht&Hp).
    split; [done|].
    split_and!; try done.
    + intros g. rewrite Hs. unfold status. simpl.
      destruct (decide (g = f)) as [->|Hne];
        [by rewrite lookup_insert_eq | by rewrite lookup_insert_ne].
    + intros g. rewrite Hc. unfold counter. simpl.
      destruct (decide (g = f)) as [->|Hne];
        [by rewrite lookup_insert_eq | by rewrite lookup_insert_ne].
    + intros g. rewrite Hd.
      destruct (decide (g = f)) as [->|Hne].
      * rewrite Hocc. unfold dependents. simpl. by rewrite lookup_insert_eq.
      * unfold dependents. cbn [Heap with_Heap with_InvokersOnHold].
        by rewrite lookup_insert_ne.
Qed.

Lemma Wait_mark_spec f q q' :
  Wait_mark f q = Ok q' →
  Heap q' = Heap q ∧ InvokerQueue q' = InvokerQueue q ∧ Trace q' = Trace q ∧
  same_pool q q' ∧
  (InvokersOnHold q' = InvokersOnHold q ∨
   ∃ inv, InvokersOnHold q !! f = Some inv ∧
          InvokersOnHold q' = <[f := mkInvoker (GetSharedState inv) true]> (InvokersOnHold q)).
Proof.
  unfold Wait_mark. intros H. inv_res; [|split_and!; auto using same_pool_refl].
  destruct (InvokersOnHold q !! f) as [inv|] eqn:E'; inv_res;
    split_and!; eauto using same_pool_refl.
  unfold same_pool; simpl; tauto.
Qed.

(** ** Updating the ownership table *)

Lemma status_ok_claimed i : status_ok (claimed_kind i) ENQUEUED.
Proof. unfold claimed_kind. destruct (IsHighPriority i); simpl; auto. Qed.

Lemma perm_regroup {A} (a1 c1 a2 c2 a3 c3 R : list A) :
  (a1 ++ c1) ++ (a2 ++ c2) ++ (a3 ++ c3) ++ R ≡ₚ (a1 ++ a2 ++ a3) ++ (c1 ++ c2 ++ c3 ++ R).
Proof.
  rewrite <- !(assoc_L (++)). f_equiv.
  rewrite (Permutation_app_swap_app c1 a2). f_equiv.
  rewrite (Permutation_app_swap_app c2 a3).
  rewrite (Permutation_app_swap_app c1 a3). done.
Qed.

Lemma table_update (T T' old new rest : list (future * kind))
    (h h' : future → option StatusType) :
  NoDup T.*1 →
  (∀ f k, (f, k) ∈ T → ∃ st, h f = Some st ∧ status_ok k st) →
  T ≡ₚ old ++ rest → T' ≡ₚ new ++ rest →
  NoDup new.*1 →
  (∀ f, f ∈ new.*1 → f ∈ old.*1 ∨ h f = None) →
  (∀ f, f ∉ old.*1 → is_Some (h f) → h' f = h f) →
  (∀ f k, (f, k) ∈ new → ∃ st, h' f = Some st ∧ status_ok k st) →
  NoDup T'.*1 ∧ (∀ f k, (f, k) ∈ T' → ∃ st, h' f = Some st ∧ status_ok k st).
Proof.
  intros Hnd Hst HT HT' Hnew Hfresh Hframe Hnewst.
  rewrite HT in Hnd. rewrite fmap_app in Hnd.
  apply NoDup_app in Hnd as (Hndold & Hdisj & Hndrest).
  assert (∀ f k, (f, k) ∈ rest → ∃ st, h f = Some st ∧ status_ok k st) as Hrest.
  { intros f k Hin. apply Hst. rewrite HT. set_solver. }
  assert (∀ f, f ∈ rest.*1 → f ∉ old.*1) as Hdisj'.
  { intros f Hin Hold. by apply (Hdisj f). }
  split.
  - rewrite HT', fmap_app. apply NoDup_app. split_and!; [done| |done].
    intros f Hin Hinr. destruct (Hfresh f Hin) as [Hold|Hnone].
    + by apply (Hdisj f).
    + apply list_elem_of_fmap in Hinr as ([f' k] & -> & Hinr).
      destruct (Hrest _ _ Hinr) as (st & Hs & _). simpl in *. congruence.
  - intros f k Hin. rewrite HT' in Hin. apply elem_of_app in Hin as [Hin|Hin].
    + by apply Hnewst.
    + destruct (Hrest _ _ Hin) as (st & Hs & Hok). exists st. split; [|done].
      rewrite Hframe; [done| |by rewrite Hs].
      apply Hdisj'. apply list_elem_of_fmap. by exists (f, k).
Qed.

Lemma table_of_split q m t :
  ∃ R, table_of q m ≡ₚ queue_table (InvokerQueue q) ++ hold_table (InvokersOnHold q)
                       ++ (default [] (m !! t) ≫= frame_table) ++ R ∧
       (∀ q' fs, table_of q' (<[t := fs]> m) ≡ₚ
          queue_table (InvokerQueue q') ++ hold_table (InvokersOnHold q')
          ++ (fs ≫= frame_table) ++ R) ∧
       (∀ q', table_of q' m ≡ₚ
          queue_table (InvokerQueue q') ++ hold_table (InvokersOnHold q')
          ++ (default [] (m !! t) ≫= frame_table) ++ R).
Proof.
  destruct (frames_split m t) as (rest & H1 & H2).
  exists (rest ≫= frame_table). split_and!.
  - unfold table_of. rewrite H1, bind_app. done.
  - intros q' fs. unfold table_of. rewrite H2, bind_app. done.
  - intros q'. unfold table_of. rewrite H1, bind_app. done.
Qed.

Section update.
Context (q q' : Queue) (m : gmap thread_id (list Frame)) (t : thread_id).
Context (oldQ newQ cQ oldH newH cH oldS newS cS : list (future * kind)).
Context (fs : list Frame).

Let old := oldQ ++ oldH ++ oldS.
Let new := newQ ++ newH ++ newS.

Hypothesis Hown : ownership q m.
Hypothesis HQ : queue_table (InvokerQueue q) ≡ₚ oldQ ++ cQ.
Hypothesis HQ' : queue_table (InvokerQueue q') ≡ₚ newQ ++ cQ.
Hypothesis HH : hold_table (InvokersOnHold q) ≡ₚ oldH ++ cH.
Hypothesis HH' : hold_table (InvokersOnHold q') ≡ₚ newH ++ cH.
Hypothesis HS : default [] (m !! t) ≫= frame_table ≡ₚ oldS ++ cS.
Hypothesis HS' : fs ≫= frame_table ≡ₚ newS ++ cS.
Hypothesis Hnew : NoDup new.*1.
Hypothesis Hfresh : ∀ f, f ∈ new.*1 → f ∈ old.*1 ∨ status q f = None.
Hypothesis Hframe : ∀ f, f ∉ old.*1 → is_Some (status q f) → status q' f = status q f.
Hypothesis Hnewst : ∀ f k, (f, k) ∈ new → ∃ st, status q' f = Some st ∧ status_ok k st.
Hypothesis Hkey : ∀ f inv, InvokersOnHold q' !! f = Some inv → GetSharedState inv = f.
Hypothesis Hfront : front_ok (InvokerQueue q').

Lemma ownership_update : ownership q' (<[t := fs]> m).
Proof using All.
  destruct Hown as [Hnd Hst _ _].
  destruct (table_of_split q m t) as (R & HT & HT' & _).
  specialize (HT' q' fs).
  rewrite HQ, HH, HS, perm_regroup in HT.
  rewrite HQ', HH', HS', perm_regroup in HT'.
  destruct (table_update _ _ _ _ _ (status q) (status q') Hnd Hst HT HT')
    as [Hnd' Hst']; [done..|].
  by constructor.
Qed.

End update.

Lemma ownership_stacks q m m' :
frames m ≡ₚ frames m' → ownership q m → ownership q m'.
Proof.
intros Hp [Hnd Hst Hk Hf].
assert (table_of q m ≡ₚ table_of q m') as HT.
{ unfold table_of. by rewrite Hp. }
constructor; try done.
- by rewrite <- HT.
- intros f k Hin. apply Hst. by rewrite HT.
Qed.

Lemma frames_insert_same m t : frames (<[t := default [] (m !! t)]> m) ≡ₚ frames m.
Proof.
destruct (frames_split m t) as (rest & H1 & H2). by rewrite H2, H1.
Qed.

(** ** The ownership invariant holds in every reachable state *)

Lemma step_LInvoke_owned t s s' : owned s → step (LInvoke t) s = Done s' → owned s'.
Proof.
  unfold owned. intros Hown H. simpl in H.
  destruct (stack s t) as [|[inv| | | | |] fs] eqn:Est; try done.
  inv_res. simpl.
  match goal with H : store_Status _ _ _ = Ok ?q |- _ =>
    apply store_Status_spec in H as ([st0 Hst0]&Hs&Hc&Hd&Hq&Hh&Ht&Hp) end.
  eapply (ownership_update _ _ _ t [] [] (queue_table (InvokerQueue (Shared s)))
            [] [] (hold_table (InvokersOnHold (Shared s)))
            [(GetSharedState inv, claimed_kind inv)] [(GetSharedState inv, KRunning)]
            (fs ≫= frame_table)); simpl.
  - done.
  - done.
  - by rewrite Hq.
  - done.
  - by rewrite Hh.
  - unfold stack in Est. by rewrite Est.
  - done.
  - apply NoDup_singleton.
  - intros f ?. by left.
  - intros f Hf _. rewrite Hs. rewrite decide_False; [done|set_solver].
  - intros f k [= -> ->]%list_elem_of_singleton. rewrite Hs, decide_True by done.
    by eexists.
  - rewrite Hh. apply Hown.
  - rewrite Hq. apply Hown.
Qed.

(** Facts read off the invariant. *)

Lemma own_queue_status q m inv :
  ownership q m → Some inv ∈ InvokerQueue q → status q (GetSharedState inv) = Some ENQUEUED.
Proof.
  intros Hown Hin. destruct (own_status _ _ Hown (GetSharedState inv) KQueue) as (st&?&Hok).
  - unfold table_of. apply elem_of_app. left. unfold queue_table.
    apply list_elem_of_fmap. exists inv. split; [done|].
    apply list_elem_of_omap. by exists (Some inv).
  - simpl in Hok. congruence.
Qed.

Lemma own_hold_status q m f inv :
  ownership q m → InvokersOnHold q !! f = Some inv → status q f = Some ON_HOLD.
Proof.
  intros Hown Hin. destruct (own_status _ _ Hown f KHold) as (st&?&Hok).
  - unfold table_of. apply elem_of_app. right. apply elem_of_app. left.
    unfold hold_table. apply list_elem_of_fmap. exists f. split; [done|].
    apply elem_of_elements, elem_of_dom. eauto.
  - simpl in Hok. congruence.
Qed.

Lemma elem_of_frames m t (fr : Frame) :
  fr ∈ default [] (m !! t) → fr ∈ frames m.
Proof.
  intros Hin. destruct (frames_split m t) as (rest & H1 & _). rewrite H1. set_solver.
Qed.

Lemma own_frame_status q m t fr f k :
  ownership q m → fr ∈ default [] (m !! t) → (f, k) ∈ frame_table fr →
  ∃ st, status q f = Some st ∧ status_ok k st.
Proof.
  intros Hown Hfr Hin. apply (own_status _ _ Hown).
  unfold table_of. apply elem_of_app. right. apply elem_of_app. right.
  apply list_elem_of_bind. exists fr. split; [done|]. by eapply elem_of_frames.
Qed.

Lemma own_frame_nodup q m t fr :
  ownership q m → fr ∈ default [] (m !! t) → NoDup (frame_table fr).*1.
Proof.
  intros Hown Hfr. pose proof (own_nodup _ _ Hown) as Hnd.
  destruct (table_of_split q m t) as (R & HT & _). rewrite HT in Hnd.
  rewrite !fmap_app in Hnd.
  apply NoDup_app in Hnd as (_ & _ & Hnd). apply NoDup_app in Hnd as (_ & _ & Hnd).
  apply NoDup_app in Hnd as (Hnd & _ & _).
  apply list_elem_of_split in Hfr as (l1 & l2 & Heq).
  rewrite Heq, bind_app, bind_cons, !fmap_app in Hnd.
  apply NoDup_app in Hnd as (_ & _ & Hnd). by apply NoDup_app in Hnd as (Hnd & _ & _).
Qed.

(** Steps that only touch the pool or push frames that own nothing. *)
Lemma status_same_heap q q' : Heap q' = Heap q → ∀ f, status q' f = status q f.
Proof. intros H f. unfold status. by rewrite H. Qed.

Lemma ownership_same_status q q' m m' :
  ownership q m → (∀ f, status q' f = status q f) → InvokerQueue q' = InvokerQueue q →
  InvokersOnHold q' = InvokersOnHold q →
  frames m' ≫= frame_table ≡ₚ frames m ≫= frame_table →
  ownership q' m'.
Proof.
  intros [Hnd Hst Hk Hf] Hs Hq Ho Hp.
  assert (table_of q' m' ≡ₚ table_of q m) as HT.
  { unfold table_of. by rewrite Hq, Ho, Hp. }
  constructor.
  - by rewrite HT.
  - intros f k Hin. rewrite Hs. apply Hst. by rewrite <- HT.
  - by rewrite Ho.
  - by rewrite Hq.
Qed.

Lemma ownership_same q q' m m' :
  ownership q m → Heap q' = Heap q → InvokerQueue q' = InvokerQueue q →
  InvokersOnHold q' = InvokersOnHold q →
  frames m' ≫= frame_table ≡ₚ frames m ≫= frame_table →
  ownership q' m'.
Proof. intros ? Hh. apply ownership_same_status; [done|]. by apply status_same_heap. Qed.

Lemma frames_table_insert m t fs :
  fs ≫= frame_table ≡ₚ default [] (m !! t) ≫= frame_table →
  frames (<[t := fs]> m) ≫= frame_table ≡ₚ frames m ≫= frame_table.
Proof.
  intros H. destruct (frames_split m t) as (rest & H1 & H2).
  rewrite H2, H1, !bind_app, H. done.
Qed.

Lemma iter_spawn n s :
  Heap (Shared (Nat.iter n spawn s)) = Heap (Shared s) ∧
  InvokerQueue (Shared (Nat.iter n spawn s)) = InvokerQueue (Shared s) ∧
  InvokersOnHold (Shared (Nat.iter n spawn s)) = InvokersOnHold (Shared s) ∧
  Stacks (Nat.iter n spawn s) = Stacks s ∧
  Priors (Nat.iter n spawn s) = Priors s ∧ Unmet (Nat.iter n spawn s) = Unmet s.
Proof. induction n as [|n IH]; simpl; [done|]. destruct IH as (?&?&?&?&?&?). done. Qed.

Lemma shrink_begin_tasks t n q q' :
  shrink_begin t n q = Ok q' →
  Heap q' = Heap q ∧ InvokerQueue q' = InvokerQueue q ∧ InvokersOnHold q' = InvokersOnHold q.
Proof.
  unfold shrink_begin, swap_with_thread0. intros H. inv_res; done.
Qed.

Lemma shrink_end_tasks t n q q' :
  shrink_end t n q = Ok q' →
  Heap q' = Heap q ∧ InvokerQueue q' = InvokerQueue q ∧ InvokersOnHold q' = InvokersOnHold q.
Proof.
  unfold shrink_end, Sync. intros H. inv_res; done.
Qed.

Lemma step_pool_owned l s s' :
  match l with
  | LSetNumberOfThreads _ _ | LSyncDone _ | LDestroy _ | LExit _ => True
  | _ => False
  end →
  owned s → step l s = Done s' → owned s'.
Proof.
  unfold owned. intros Hl Hown H.
  destruct l as [| | | |t n|t|t| |t| | | |]; try done; simpl in H.
  - inv_res.
    destruct (Destroying (Shared s)); inv_res; [done|done| |].
    + destruct (iter_spawn (Z.to_nat (n - Z.of_nat (length (Threads (Shared s)))))
                  (with_Shared (with_NumberOfThreads n (Shared s)) s))
        as (Hh&Hq&Ho&Hst&_).
      eapply ownership_same; eauto. by rewrite Hst.
    + match goal with H : shrink_begin _ _ _ = Ok _ |- _ =>
        apply shrink_begin_tasks in H as (Hh&Hq&Ho) end.
      eapply ownership_same; eauto. simpl. by apply frames_table_insert.
  - destruct (stack s t) as [|[| | |n| |] fs] eqn:Est; try done. inv_res.
    match goal with H : shrink_end _ _ _ = Ok _ |- _ =>
      apply shrink_end_tasks in H as (Hh&Hq&Ho) end.
    eapply ownership_same; eauto. simpl. apply frames_table_insert.
    unfold stack in Est. by rewrite Est.
  - inv_res. eapply ownership_same; eauto. simpl. by apply frames_table_insert.
  - destruct (stack s t) as [|[| | | | |] fs] eqn:Est; try done. inv_res.
    eapply ownership_same; eauto. simpl. apply frames_table_insert.
    unfold stack in Est. by rewrite Est.
Qed.

Lemma step_LPayloadDone_owned t s s' :
  owned s → step (LPayloadDone t) s = Done s' → owned s'.
Proof.
  unfold owned. intros Hown H. simpl in H.
  destruct (stack s t) as [|[|inv| | | |] fs] eqn:Est; try done.
  inv_res. simpl.
  match goal with H : call_invoker _ _ _ = Ok ?q |- _ =>
    apply call_invoker_spec in H as ([st0 Hst0]&Hs&Hc&Hd&Hq&Hh&Ht&Hp) end.
  eapply (ownership_update _ _ _ t [] [] (queue_table (InvokerQueue (Shared s)))
            [] [] (hold_table (InvokersOnHold (Shared s)))
            [(GetSharedState inv, KRunning)] [(GetSharedState inv, KSignaling)]
            (fs ≫= frame_table)); simpl.
  - done.
  - done.
  - by rewrite Hq.
  - done.
  - by rewrite Hh.
  - unfold stack in Est. by rewrite Est.
  - done.
  - apply NoDup_singleton.
  - intros f ?. by left.
  - intros f Hf _. rewrite Hs. rewrite decide_False; [done|set_solver].
  - intros f k [= -> ->]%list_elem_of_singleton. rewrite Hs, decide_True by done.
    by eexists.
  - rewrite Hh. apply Hown.
  - rewrite Hq. apply Hown.
Qed.

Lemma step_LPop_owned t s s' : owned s → step (LPop t) s = Done s' → owned s'.
Proof.
  unfold owned. intros Hown H. simpl in H.
  destruct (Workers s !! t) as [w|]; [|done].
  destruct (stack s t) as [|] eqn:Est; [|done].
  inv_res. match goal with H : Pop_take _ _ = Ok ?o |- _ => destruct o as [| |inv q'] end.
  - done.
  - inv_res. eapply ownership_same; eauto. simpl. apply frames_table_insert.
    unfold stack in Est. by rewrite Est.
  - inv_res. simpl.
    match goal with H : Pop_take _ _ = Ok _ |- _ =>
      apply Pop_take_taken in H as (l & Hl & Hl' & Hh & Ho & _) end.
    assert (status (Shared s) (GetSharedState inv) = Some ENQUEUED) as Hst.
    { eapply own_queue_status; [done|]. rewrite Hl. set_solver. }
    assert (∀ f, status q' f = status (Shared s) f) as Hs.
    { intros f. unfold status. by rewrite Hh. }
    eapply (ownership_update _ _ _ t [(GetSharedState inv, KQueue)] [] (queue_table l)
              [] [] (hold_table (InvokersOnHold (Shared s)))
              [] [(GetSharedState inv, claimed_kind inv)] []); simpl.
    + done.
    + by rewrite Hl.
    + by rewrite Hl', queue_table_strip.
    + done.
    + by rewrite Ho.
    + unfold stack in Est. by rewrite Est.
    + done.
    + apply NoDup_singleton.
    + intros f ?. by left.
    + intros f _ _. apply Hs.
    + intros f k [= -> ->]%list_elem_of_singleton. rewrite Hs, Hst. eexists.
      split; [done|]. apply status_ok_claimed.
    + rewrite Ho. apply Hown.
    + rewrite Hl'. apply front_ok_strip.
Qed.

Lemma step_LTryInvoke_owned t f s s' :
  owned s → step (LTryInvoke t f) s = Done s' → owned s'.
Proof.
  unfold owned. intros Hown H. simpl in H.
  apply bind_Done in H as ([] & _ & H). apply bind_Done in H as ([o q0] & E & H).
  apply lift_Done in E.
  apply TryInvoke_take_spec in E as (Hh & Ho & _ & _ & Hfr & Hq); destruct o as [inv|].
  - inv_res. simpl.
    assert (status (Shared s) (GetSharedState inv) = Some ENQUEUED) as Hst.
    { destruct (own_status _ _ Hown (GetSharedState inv) KQueue) as (st&?&Hok).
      - unfold table_of. rewrite Hq. set_solver.
      - simpl in Hok. congruence. }
    assert (∀ g, status q0 g = status (Shared s) g) as Hs.
    { intros g. unfold status. by rewrite Hh. }
    eapply (ownership_update _ _ _ t [(GetSharedState inv, KQueue)] []
              (queue_table (InvokerQueue q0))
              [] [] (hold_table (InvokersOnHold (Shared s)))
              [] [(GetSharedState inv, claimed_kind inv)] (stack s t ≫= frame_table)); simpl.
    + done.
    + done.
    + done.
    + done.
    + by rewrite Ho.
    + done.
    + done.
    + apply NoDup_singleton.
    + intros g ?. by left.
    + intros g _ _. apply Hs.
    + intros g k [= -> ->]%list_elem_of_singleton. rewrite Hs, Hst. eexists.
      split; [done|]. apply status_ok_claimed.
    + rewrite Ho. apply Hown.
    + apply Hfr, Hown.
  - inv_res. eapply ownership_same; eauto.
Qed.

Lemma step_LWait_owned t f s s' :
  owned s → step (LWait t f) s = Done s' → owned s'.
Proof.
  unfold owned. intros Hown H. simpl in H.
  apply bind_Done in H as ([] & _ & H). apply bind_Done in H as (a & E & H).
  apply lift_Done in E. inv_res.
  apply Wait_mark_spec in E as (Hh & Hq & _ & _ & [Ho|(inv & Hinv & Ho)]).
  - eapply ownership_same; eauto.
  - simpl. destruct Hown as [Hnd Hst Hk Hf].
    assert (table_of a (Stacks s) = table_of (Shared s) (Stacks s)) as HT.
    { unfold table_of. rewrite Hq, Ho. by rewrite hold_table_insert_same by eauto. }
    assert (∀ g, status a g = status (Shared s) g) as Hs.
    { intros g. unfold status. by rewrite Hh. }
    constructor.
    + by rewrite HT.
    + intros g k Hin. rewrite Hs. apply Hst. by rewrite <- HT.
    + intros g inv' Hg. rewrite Ho in Hg.
      destruct (decide (g = f)) as [->|Hne].
      * rewrite lookup_insert_eq in Hg. simplify_eq. simpl. eauto.
      * rewrite lookup_insert_ne in Hg by done. eauto.
    + by rewrite Hq.
Qed.

Section update_shared.
Context (q q' : Queue) (m : gmap thread_id (list Frame)).
Context (oldQ newQ cQ oldH newH cH : list (future * kind)).

Hypothesis Hown : ownership q m.
Hypothesis HQ : queue_table (InvokerQueue q) ≡ₚ oldQ ++ cQ.
Hypothesis HQ' : queue_table (InvokerQueue q') ≡ₚ newQ ++ cQ.
Hypothesis HH : hold_table (InvokersOnHold q) ≡ₚ oldH ++ cH.
Hypothesis HH' : hold_table (InvokersOnHold q') ≡ₚ newH ++ cH.
Hypothesis Hnew : NoDup (newQ ++ newH).*1.
Hypothesis Hfresh : ∀ f, f ∈ (newQ ++ newH).*1 → f ∈ (oldQ ++ oldH).*1 ∨ status q f = None.
Hypothesis Hframe :
  ∀ f, f ∉ (oldQ ++ oldH).*1 → is_Some (status q f) → status q' f = status q f.
Hypothesis Hnewst :
  ∀ f k, (f, k) ∈ newQ ++ newH → ∃ st, status q' f = Some st ∧ status_ok k st.
Hypothesis Hkey : ∀ f inv, InvokersOnHold q' !! f = Some inv → GetSharedState inv = f.
Hypothesis Hfront : front_ok (InvokerQueue q').

Lemma ownership_update_shared : ownership q' m.
Proof using All.
  apply (ownership_stacks _ (<[0 := default [] (m !! 0)]> m)); [apply frames_insert_same|].
  eapply (ownership_update q q' m 0 oldQ newQ cQ oldH newH cH [] []
            (default [] (m !! 0) ≫= frame_table)); rewrite ?app_nil_r; try done.
Qed.

End update_shared.

Lemma front_ok_snoc l inv : front_ok l → front_ok (l ++ [Some inv]).
Proof. unfold front_ok. by destruct l. Qed.

Lemma Push_owned q m f q' : ownership q m → Push q = Ok (f, q') → ownership q' m.
Proof.
intros Hown H. apply Push_spec in H as (Hf&Hs&_&_&Hq&Ho&_&_).
eapply (ownership_update_shared q q' m [] [(f, KQueue)] (queue_table (InvokerQueue q))
          [] [] (hold_table (InvokersOnHold q))); simpl.
- done.
- done.
- rewrite Hq, queue_table_app. unfold queue_table at 2. simpl.
  symmetry. apply Permutation_cons_append.
- done.
- by rewrite Ho.
- apply NoDup_singleton.
- intros g ->%list_elem_of_singleton. right. unfold status. by rewrite Hf.
- intros g _ Hg. rewrite Hs. rewrite decide_False; [done|].
  intros ->. unfold status in Hg. rewrite Hf in Hg. by destruct Hg.
- intros g k [= -> ->]%list_elem_of_singleton. rewrite Hs, decide_True by done.
  by eexists.
- rewrite Ho. apply Hown.
- rewrite Hq. apply front_ok_snoc, Hown.
Qed.

Lemma step_LPush_owned t s s' : owned s → step (LPush t) s = Done s' → owned s'.
Proof.
unfold owned. intros Hown H. simpl in H.
apply bind_Done in H as ([] & _ & H). apply bind_Done in H as ([f q'] & E & H).
apply lift_Done in E. inv_res. simpl. by eapply Push_owned.
Qed.

Lemma step_LPushDependent_owned t priors s s' :
owned s → step (LPushDependent t priors) s = Done s' → owned s'.
Proof.
unfold owned. intros Hown H. simpl in H.
apply bind_Done in H as ([] & _ & H). apply bind_Done in H as (pending & Ep & H).
apply bind_Done in H as ([f q'] & E & H).
apply lift_Done in Ep. apply lift_Done in E. inv_res. simpl.
destruct (PushDependent_spec _ _ _ _ _ Ep E) as [Hf Hspec].
destruct (decide (pending = [])) as [->|Hne].
{ by eapply Push_owned. }
destruct Hspec as (Hs&_&_&Hq&Ho&_&_).
assert (InvokersOnHold (Shared s) !! f = None) as Hnone.
{ destruct (InvokersOnHold (Shared s) !! f) as [inv|] eqn:Ei; [|done].
  pose proof (own_hold_status _ _ _ _ Hown Ei) as Hst.
  unfold status in Hst. by rewrite Hf in Hst. }
eapply (ownership_update_shared (Shared s) q' _ [] [] (queue_table (InvokerQueue (Shared s)))
          [] [(f, KHold)] (hold_table (InvokersOnHold (Shared s)))); simpl.
- done.
- done.
- by rewrite Hq.
- done.
- rewrite Ho. by apply hold_table_insert_fresh.
- apply NoDup_singleton.
- intros g ->%list_elem_of_singleton. right. unfold status. by rewrite Hf.
- intros g _ Hg. rewrite Hs. rewrite decide_False; [done|].
  intros ->. unfold status in Hg. rewrite Hf in Hg. by destruct Hg.
- intros g k [= -> ->]%list_elem_of_singleton. rewrite Hs, decide_True by done.
  by eexists.
- intros g inv Hg. rewrite Ho in Hg. destruct (decide (g = f)) as [->|Hgf].
  + rewrite lookup_insert_eq in Hg. by simplify_eq.
  + rewrite lookup_insert_ne in Hg by done. by eapply own_key.
- rewrite Hq. apply Hown.
Qed.

Lemma queue_table_Some (l : list InvokerBase) :
queue_table (Some <$> l) = (λ w, (GetSharedState w, KQueue)) <$> l.
Proof.
unfold queue_table. induction l as [|w l IH]; simpl; [done|]. by f_equal.
Qed.

Lemma step_LSignal_owned t s s' : owned s → step (LSignal t) s = Done s' → owned s'.
Proof.
unfold owned. intros Hown H. simpl in H.
destruct (stack s t) as [|[| |inv [|f deps] acc| | |] fs] eqn:Est; try done.
apply bind_Done in H as ([a q'] & E & H). apply lift_Done in E.
apply signal_dependent_spec in E as (st & Hst & Hs & _ & _ & Hq & _ & _ & Ha).
unfold stack in Est.
destruct a as [|w|w]; inv_res; simpl.
- destruct Ha as [Ho _].
  eapply ownership_same_status; eauto. apply frames_table_insert. by rewrite Est.
- destruct Ha as (Hon & _ & Hw & Ho & Hhp).
  pose proof (own_key _ _ Hown _ _ Hw) as Hkey.
  eapply (ownership_update _ _ _ t [] [] (queue_table (InvokerQueue (Shared s)))
            [(f, KHold)] [] (hold_table (delete f (InvokersOnHold (Shared s))))
            [] [(f, KInline)] (default [] (Stacks s !! t) ≫= frame_table)); simpl.
  + done.
  + done.
  + by rewrite Hq.
  + by eapply hold_table_delete.
  + by rewrite Ho.
  + done.
  + rewrite Est, Hkey. unfold claimed_kind. rewrite Hhp. done.
  + apply NoDup_singleton.
  + intros g ?. by left.
  + intros g _ _. apply Hs.
  + intros g k [= -> ->]%list_elem_of_singleton. rewrite Hs. unfold status.
    rewrite Hst. simpl. rewrite Hon. eexists. split; [done|]. by right.
  + intros g inv' Hg. rewrite Ho in Hg.
    apply lookup_delete_Some in Hg as [_ Hg]. by eapply own_key.
  + rewrite Hq. apply Hown.
- destruct Ha as (Hon & _ & Hw & Ho & _).
  pose proof (own_key _ _ Hown _ _ Hw) as Hkey.
  eapply (ownership_update _ _ _ t [] [] (queue_table (InvokerQueue (Shared s)))
            [(f, KHold)] [] (hold_table (delete f (InvokersOnHold (Shared s))))
            [] [(f, KCollected)] (default [] (Stacks s !! t) ≫= frame_table)); simpl.
  + done.
  + done.
  + by rewrite Hq.
  + by eapply hold_table_delete.
  + by rewrite Ho.
  + done.
  + rewrite Est. simpl. rewrite fmap_app. simpl. rewrite Hkey.
    rewrite <- Permutation_middle, app_nil_r. apply perm_swap.
  + apply NoDup_singleton.
  + intros g ?. by left.
  + intros g _ _. apply Hs.
  + intros g k [= -> ->]%list_elem_of_singleton. rewrite Hs. unfold status.
    rewrite Hst. simpl. rewrite Hon. by eexists.
  + intros g inv' Hg. rewrite Ho in Hg.
    apply lookup_delete_Some in Hg as [_ Hg]. by eapply own_key.
  + rewrite Hq. apply Hown.
Qed.

Lemma step_LLaunch_owned t s s' : owned s → step (LLaunch t) s = Done s' → owned s'.
Proof.
unfold owned. intros Hown H. simpl in H.
destruct (stack s t) as [|[| |inv [|f deps] acc| | |] fs] eqn:Est; try done.
apply bind_Done in H as (q' & E & H). apply lift_Done in E. inv_res. simpl.
apply launch_invokers_spec in E as (Hq & Ho & Hs & _ & _ & _ & _).
unfold stack in Est.
assert (NoDup (frame_table (InSignal inv [] acc)).*1) as Hnd.
{ eapply (own_frame_nodup _ _ t); [done|]. rewrite Est. set_solver. }
simpl in Hnd. apply NoDup_cons in Hnd as [_ Hnd].
rewrite <- list_fmap_compose in Hnd.
eapply (ownership_update _ _ _ t []
          ((λ w, (GetSharedState w, KQueue)) <$> acc)
          (queue_table (InvokerQueue (Shared s)))
          [] [] (hold_table (InvokersOnHold (Shared s)))
          (frame_table (InSignal inv [] acc)) [] (fs ≫= frame_table)); simpl.
- done.
- done.
- rewrite Hq, queue_table_app, queue_table_Some. by rewrite <- Permutation_rev.
- done.
- by rewrite Ho.
- by rewrite Est.
- done.
- rewrite app_nil_r, <- list_fmap_compose. done.
- intros g Hg. left. rewrite app_nil_r, <- list_fmap_compose in Hg.
  right. by rewrite <- list_fmap_compose.
- intros g Hg _. rewrite Hs. rewrite decide_False; [done|].
  intros Hin. apply Hg. right. by rewrite <- list_fmap_compose.
- intros g k Hg. rewrite app_nil_r in Hg.
  apply list_elem_of_fmap in Hg as (w & [= -> ->] & Hw).
  rewrite Hs, decide_True by (by apply list_elem_of_fmap_2). by eexists.
- rewrite Ho. apply Hown.
- rewrite Hq. destruct acc as [|w acc] using rev_ind; simpl.
  + apply Hown.
  + rewrite rev_app_distr. simpl. done.
Qed.

Lemma step_owned l s s' : owned s → step l s = Done s' → owned s'.
Proof.
destruct l; eauto using step_LPush_owned, step_LPushDependent_owned, step_LWait_owned,
  step_LTryInvoke_owned, step_LPop_owned, step_LInvoke_owned, step_LPayloadDone_owned,
  step_LSignal_owned, step_LLaunch_owned; by apply step_pool_owned.
Qed.

Lemma initial_owned : owned initial.
Proof.
unfold owned, initial. simpl. constructor.
- unfold table_of. simpl. unfold hold_table, frames. rewrite dom_empty_L, elements_empty.
  rewrite map_to_list_empty. simpl. constructor.
- unfold table_of. simpl. unfold hold_table, frames. rewrite dom_empty_L, elements_empty.
  rewrite map_to_list_empty. simpl. by intros f k ?%elem_of_nil.
- simpl. intros f inv Hf. by rewrite lookup_empty in Hf.
- done.
Qed.

Lemma reachable_owned s : reachable s → owned s.
Proof. induction 1; eauto using initial_owned, step_owned. Qed.

(** ** The accounting of dependencies holds in every reachable state *)

Lemma frame_ok_mono q q' u fr :
  (∀ g, is_Some (status q g) → is_Some (status q' g)) →
  frame_ok q u fr → frame_ok q' u fr.
Proof. intros Hs. destruct fr; simpl; try done. intros H f Hf. destruct (H f Hf). auto. Qed.

(** Steps that leave the accounting alone. *)
Lemma dependencies_same s s' :
  dependencies s →
  (∀ g, is_Some (status (Shared s) g) → is_Some (status (Shared s') g)) →
  (∀ g, status (Shared s) g = Some DONE → status (Shared s') g = Some DONE) →
  (∀ g, counter (Shared s') g = counter (Shared s) g) →
  (∀ g, dependents (Shared s') g = dependents (Shared s) g) →
  (∀ f, is_Some (InvokersOnHold (Shared s') !! f) ↔ is_Some (InvokersOnHold (Shared s) !! f)) →
  Unmet s' = Unmet s → Priors s' = Priors s →
  (∀ fr, fr ∈ frames (Stacks s') →
         fr ∈ frames (Stacks s) ∨ frame_ok (Shared s') (Unmet s') fr) →
  dependencies s'.
Proof.
  intros [Hcl Hfr Hcn Hun Hpe Hre] Hsome Hdone Hc Hd Hh HU HP Hframes.
  constructor.
  - intros p l g Hp Hg. rewrite Hd in Hp. eauto.
  - apply Forall_forall. intros fr Hin. destruct (Hframes fr Hin) as [Hold|]; [|done].
    rewrite HU. eapply frame_ok_mono; [done|]. by eapply Forall_forall in Hfr.
  - intros f Hf. rewrite Hc, HU. apply Hcn. by apply Hh.
  - intros f p Hp. rewrite HP in Hp. rewrite HU. destruct (Hun f p Hp); auto.
  - intros p l Hp Hnd f. rewrite HU. rewrite Hd in Hp. eapply Hpe; [done|].
    intros Hdn. apply Hnd. auto.
  - intros f. rewrite HP. destruct (Hre f) as [?|Hall]; [left; by apply Hh|right].
    intros p Hp. auto.
Qed.

Lemma frames_insert_elem m t fs (fr : Frame) :
  fr ∈ frames (<[t := fs]> m) → fr ∈ fs ∨ fr ∈ frames m.
Proof.
  destruct (frames_split m t) as (rest & H1 & H2). rewrite H2, H1. set_solver.
Qed.

Lemma own_other_frames q m t fr fs :
  ownership q m → default [] (m !! t) = fr :: fs →
  ∃ rest, frames m ≡ₚ fr :: fs ++ rest ∧
          (∀ fs', frames (<[t := fs']> m) ≡ₚ fs' ++ rest) ∧
          ∀ fr' f k k', fr' ∈ fs ++ rest → (f, k) ∈ frame_table fr →
                        (f, k') ∈ frame_table fr' → False.
Proof.
  intros Hown Est. destruct (frames_split m t) as (rest & H1 & H2).
  rewrite Est in H1. exists rest. split_and!; [done|done|].
  intros fr' f k k' Hfr' Hf Hf'.
  pose proof (own_nodup _ _ Hown) as Hnd. unfold table_of in Hnd.
  rewrite H1 in Hnd. simpl in Hnd. rewrite !fmap_app in Hnd.
  apply NoDup_app in Hnd as (_ & _ & Hnd). apply NoDup_app in Hnd as (_ & _ & Hnd).
  apply NoDup_app in Hnd as (_ & Hdis & _).
  apply (Hdis f).
  - apply list_elem_of_fmap. by exists (f, k).
  - apply list_elem_of_fmap. exists (f, k'). split; [done|].
    apply list_elem_of_bind. eauto.
Qed.

Lemma frames_keep s t fs' q' fr :
  (∀ fr', fr' ∈ fs' → fr' ∈ stack s t ∨ frame_ok q' (Unmet s) fr') →
  fr ∈ frames (<[t := fs']> (Stacks s)) →
  fr ∈ frames (Stacks s) ∨ frame_ok q' (Unmet s) fr.
Proof.
  intros H [Hin|Hin]%frames_insert_elem; [|by left].
  destruct (H _ Hin) as [Hold|]; [left|by right]. by eapply elem_of_frames.
Qed.

Lemma step_pool_deps l s s' :
  match l with
  | LSetNumberOfThreads _ _ | LSyncDone _ | LDestroy _ | LExit _ => True
  | _ => False
  end →
  dependencies s → step l s = Done s' → dependencies s'.
Proof.
  intros Hl Hdep H.
  destruct l as [| | | |t n|t|t| |t| | | |]; try done; simpl in H.
  - inv_res.
    destruct (Destroying (Shared s)); inv_res; [done|done| |].
    + destruct (iter_spawn (Z.to_nat (n - Z.of_nat (length (Threads (Shared s)))))
                  (with_Shared (with_NumberOfThreads n (Shared s)) s))
        as (Hh&Hq&Ho&Hst&HP&HU). simpl in *.
      eapply dependencies_same; eauto.
      * intros g. unfold status. by rewrite Hh.
      * intros g. unfold status. by rewrite Hh.
      * intros g. unfold counter. by rewrite Hh.
      * intros g. unfold dependents. by rewrite Hh.
      * intros g. by rewrite Ho.
      * intros fr. rewrite Hst. by left.
    + match goal with H : shrink_begin _ _ _ = Ok _ |- _ =>
        apply shrink_begin_tasks in H as (Hh&Hq&Ho) end.
      eapply dependencies_same; eauto; simpl.
      * intros g. unfold status. by rewrite Hh.
      * intros g. unfold status. by rewrite Hh.
      * intros g. unfold counter. by rewrite Hh.
      * intros g. unfold dependents. by rewrite Hh.
      * intros g. by rewrite Ho.
      * intros fr. apply frames_keep. intros fr' [->|?]%elem_of_cons; [by right|by left].
  - destruct (stack s t) as [|[| | |n| |] fs] eqn:Est; try done. inv_res.
    match goal with H : shrink_end _ _ _ = Ok _ |- _ =>
      apply shrink_end_tasks in H as (Hh&Hq&Ho) end.
    eapply dependencies_same; eauto; simpl.
    * intros g. unfold status. by rewrite Hh.
    * intros g. unfold status. by rewrite Hh.
    * intros g. unfold counter. by rewrite Hh.
    * intros g. unfold dependents. by rewrite Hh.
    * intros g. by rewrite Ho.
    * intros fr. apply frames_keep. intros fr' ?. left. rewrite Est. set_solver.
  - inv_res. eapply dependencies_same; eauto; simpl.
    intros fr. apply frames_keep. intros fr' [->|?]%elem_of_cons; [by right|by left].
  - destruct (stack s t) as [|[| | | | |] fs] eqn:Est; try done. inv_res.
    eapply dependencies_same; eauto; simpl.
    intros fr. apply frames_keep. intros fr' ?. left. rewrite Est. set_solver.
Qed.

Lemma step_LInvoke_deps t s s' :
  owned s → dependencies s → step (LInvoke t) s = Done s' → dependencies s'.
Proof.
  unfold owned. intros Hown Hdep H. simpl in H.
  destruct (stack s t) as [|[inv| | | | |] fs] eqn:Est; try done.
  apply bind_Done in H as (q' & E & H). apply lift_Done in E. inv_res.
  apply store_Status_spec in E as ([st0 Hst0]&Hs&Hc&Hd&Hq&Hh&Ht&Hp).
  assert (status (Shared s) (GetSharedState inv) ≠ Some DONE) as Hnd.
  { destruct (own_frame_status _ _ t (InInvoke inv) (GetSharedState inv) (claimed_kind inv) Hown)
      as (st & Hst & Hok).
    - unfold stack in Est. rewrite Est. set_solver.
    - set_solver.
    - rewrite Hst. unfold claimed_kind in Hok. destruct (IsHighPriority inv); simpl in Hok;
        intros [= ->]; naive_solver. }
  eapply dependencies_same; eauto; simpl.
  - intros g. rewrite Hs. case_decide; eauto.
  - intros g Hg. rewrite Hs. case_decide; [by subst|done].
  - intros g. by rewrite Hh.
  - intros fr. apply frames_keep.
    intros fr' [->|?]%elem_of_cons; [by right|left]. rewrite Est. set_solver.
Qed.

Lemma step_LPop_deps t s s' :
  dependencies s → step (LPop t) s = Done s' → dependencies s'.
Proof.
  intros Hdep H. simpl in H.
  destruct (Workers s !! t) as [w|]; [|done].
  destruct (stack s t) as [|] eqn:Est; [|done].
  apply bind_Done in H as (o & E & H). apply lift_Done in E.
  destruct o as [| |inv q']; inv_res.
  - eapply dependencies_same; eauto; simpl.
    intros fr. apply frames_keep. intros fr' [->|?]%elem_of_cons; [by right|set_solver].
  - apply Pop_take_taken in E as (l & Hl & Hl' & Hh & Ho & _).
    eapply dependencies_same; eauto; simpl.
    + intros g. unfold status. by rewrite Hh.
    + intros g. unfold status. by rewrite Hh.
    + intros g. unfold counter. by rewrite Hh.
    + intros g. unfold dependents. by rewrite Hh.
    + intros g. by rewrite Ho.
    + intros fr. apply frames_keep. intros fr' [->|?]%elem_of_cons; [by right|set_solver].
Qed.

Lemma step_LTryInvoke_deps t f s s' :
  dependencies s → step (LTryInvoke t f) s = Done s' → dependencies s'.
Proof.
  intros Hdep H. simpl in H.
  apply bind_Done in H as ([] & _ & H). apply bind_Done in H as ([o q0] & E & H).
  apply lift_Done in E.
  apply TryInvoke_take_spec in E as (Hh & Ho & _ & _ & Hfr & Hq).
  assert (∀ g, status q0 g = status (Shared s) g) as Hs by by apply status_same_heap.
  destruct o as [inv|]; inv_res.
  - eapply dependencies_same; eauto; simpl.
    + intros g. by rewrite Hs.
    + intros g. by rewrite Hs.
    + intros g. unfold counter. by rewrite Hh.
    + intros g. unfold dependents. by rewrite Hh.
    + intros g. by rewrite Ho.
    + intros fr. apply frames_keep. intros fr' [->|?]%elem_of_cons; [by right|by left].
  - eapply dependencies_same; eauto; simpl.
    + intros g. by rewrite Hs.
    + intros g. by rewrite Hs.
    + intros g. unfold counter. by rewrite Hh.
    + intros g. unfold dependents. by rewrite Hh.
    + intros g. by rewrite Ho.
Qed.

Lemma step_LWait_deps t f s s' :
  dependencies s → step (LWait t f) s = Done s' → dependencies s'.
Proof.
  intros Hdep H. simpl in H.
  apply bind_Done in H as ([] & _ & H). apply bind_Done in H as (a & E & H).
  apply lift_Done in E. inv_res.
  apply Wait_mark_spec in E as (Hh & Hq & _ & _ & Ho).
  eapply dependencies_same; eauto; simpl.
  - intros g. unfold status. by rewrite Hh.
  - intros g. unfold status. by rewrite Hh.
  - intros g. unfold counter. by rewrite Hh.
  - intros g. unfold dependents. by rewrite Hh.
  - intros g. destruct Ho as [->|(inv & Hinv & ->)]; [done|].
    destruct (decide (g = f)) as [->|Hne].
    + rewrite lookup_insert_eq, Hinv. split; eauto.
    + by rewrite lookup_insert_ne.
Qed.

Lemma step_LLaunch_deps t s s' :
  owned s → dependencies s → step (LLaunch t) s = Done s' → dependencies s'.
Proof.
  unfold owned. intros Hown Hdep H. simpl in H.
  destruct (stack s t) as [|[| |inv [|f deps] acc| | |] fs] eqn:Est; try done.
  apply bind_Done in H as (q' & E & H). apply lift_Done in E. inv_res.
  apply launch_invokers_spec in E as (Hq & Ho & Hs & Hc & Hd & _ & _).
  unfold stack in Est.
  assert (∀ g, g ∈ GetSharedState <$> acc → status (Shared s) g = Some ON_HOLD) as Hacc.
  { intros g (w & -> & Hw)%list_elem_of_fmap.
    destruct (own_frame_status _ _ t (InSignal inv [] acc) (GetSharedState w) KCollected Hown)
      as (st & Hst & Hok).
    - rewrite Est. set_solver.
    - simpl. right. apply list_elem_of_fmap. eauto.
    - simpl in Hok. congruence. }
  eapply dependencies_same; eauto; simpl.
  - intros g. rewrite Hs. case_decide; eauto.
  - intros g Hg. rewrite Hs. case_decide; [|done]. rewrite Hacc in Hg; done.
  - intros g. by rewrite Ho.
  - intros fr. apply frames_keep. intros fr' ?. left. unfold stack. rewrite Est. set_solver.
Qed.

Lemma step_LPayloadDone_deps t s s' :
  owned s → dependencies s → step (LPayloadDone t) s = Done s' → dependencies s'.
Proof.
  unfold owned. intros Hown [Hcl Hfr Hcn Hun Hpe Hre] H. simpl in H.
  destruct (stack s t) as [|[|inv| | | |] fs] eqn:Est; try done.
  apply bind_Done in H as (q' & E & H). apply lift_Done in E.
  apply bind_Done in H as (st & Eld & H). apply lift_Done in Eld. apply deref_Ok in Eld.
  inv_res.
  apply call_invoker_spec in E as ([st0 Hst0]&Hs&Hc&Hd&Hq&Hh&Ht&Hp).
  unfold stack in Est.
  set (P := GetSharedState inv) in *.
  assert (status (Shared s) P = Some RUNNING) as HP.
  { destruct (own_frame_status _ _ t (InPayload inv) P KRunning Hown) as (x & Hx & Hok).
    - rewrite Est. set_solver.
    - set_solver.
    - simpl in Hok. congruence. }
  assert (dependents (Shared s) P = Some (DependentSharedFutures st)) as Hdeps.
  { rewrite <- Hd. unfold dependents. by rewrite Eld. }
  assert (∀ g, is_Some (status (Shared s) g) → is_Some (status q' g)) as Hsome.
  { intros g. rewrite Hs. case_decide; eauto. }
  assert (∀ g, status (Shared s) g = Some DONE → status q' g = Some DONE) as Hdone.
  { intros g. rewrite Hs. by case_decide. }
  constructor; simpl.
  - intros p l g Hl Hg. rewrite Hd in Hl. eauto.
  - apply Forall_forall. intros fr [Hin|Hin]%frames_insert_elem.
    + apply elem_of_cons in Hin as [->|Hin].
      * simpl. intros f Hf. split; [by eauto|].
        eapply Hpe; [done|]. fold P. by rewrite HP.
      * eapply frame_ok_mono; [done|]. eapply Forall_forall in Hfr; [done|].
        eapply (elem_of_frames _ t). rewrite Est. set_solver.
    + eapply frame_ok_mono; [done|]. by eapply Forall_forall in Hfr.
  - intros f Hf. rewrite Hc. apply Hcn. by rewrite <- Hh.
  - intros f p Hp'. destruct (Hun f p Hp'); auto.
  - intros p l Hl Hnd f. rewrite Hd in Hl. eapply Hpe; [done|]. intros ?. apply Hnd. auto.
  - intros f. rewrite Hh. destruct (Hre f) as [?|Hall]; [by left|right]. intros p ?. auto.
Qed.

Lemma push_deps s q' f priors :
  dependencies s → Push (Shared s) = Ok (f, q') →
  (∀ p, p ∈ priors → status (Shared s) p = Some DONE) →
  dependencies (with_Unmet (<[f := []]> (Unmet s))
                  (with_Priors (<[f := priors]> (Priors s)) (with_Shared q' s))).
Proof.
  intros [Hcl Hfr Hcn Hun Hpe Hre] H Hpr.
  apply Push_spec in H as (Hf&Hs&Hc&Hd&Hq&Ho&_&_).
  assert (status (Shared s) f = None) as Hfn by (unfold status; by rewrite Hf).
  assert (∀ g, is_Some (status (Shared s) g) → g ≠ f) as Hne.
  { intros g Hg ->. rewrite Hfn in Hg. by destruct Hg. }
  assert (∀ g, is_Some (status (Shared s) g) → status q' g = status (Shared s) g) as Hsame.
  { intros g Hg. rewrite Hs. rewrite decide_False; auto. }
  assert (∀ g, is_Some (status (Shared s) g) → is_Some (status q' g)) as Hsome.
  { intros g Hg. by rewrite Hsame. }
  constructor; simpl.
  - intros p l g Hl Hg. rewrite Hd in Hl. case_decide; simplify_eq.
    + by apply elem_of_nil in Hg.
    + eauto.
  - apply Forall_forall. intros fr Hin. eapply Forall_forall in Hfr; [|done].
    destruct fr; simpl in *; try done.
    intros g Hg. destruct (Hfr g Hg) as [Hg1 Hg2]. split; [auto|].
    rewrite fn_lookup_insert_ne; [done|]. intros Heq. by apply (Hne g Hg1).
  - intros g Hg. rewrite Ho in Hg. specialize (Hcn g Hg).
    assert (g ≠ f) as Hgf.
    { intros ->. unfold counter in Hcn. by rewrite Hf in Hcn. }
    rewrite Hc, decide_False by done. by rewrite fn_lookup_insert_ne.
  - intros g p. destruct (decide (g = f)) as [->|Hgf].
    + rewrite fn_lookup_insert. intros Hp. left. rewrite Hsame; auto.
      rewrite Hpr; eauto.
    + rewrite !fn_lookup_insert_ne by done. intros Hp.
      destruct (Hun g p Hp) as [Hdn|?]; [left|by right].
      rewrite Hsame; [done|]. by rewrite Hdn.
  - intros p l Hl Hnd g. rewrite Hd in Hl. rewrite Hs in Hnd.
    destruct (decide (p = f)) as [->|Hpf]; simplify_eq; [simpl; lia|].
    destruct (decide (g = f)) as [->|Hgf].
    + rewrite occurrences_zero; [lia|]. intros Hin. apply (Hne f); eauto.
    + rewrite fn_lookup_insert_ne by done. eauto.
  - intros g. rewrite Ho. destruct (decide (g = f)) as [->|Hgf].
    + right. rewrite fn_lookup_insert. intros p Hp. rewrite Hsame; auto. rewrite Hpr; eauto.
    + rewrite fn_lookup_insert_ne by done. destruct (Hre g) as [?|Hall]; [by left|right].
      intros p Hp. rewrite Hsame; auto. rewrite Hall; eauto.
Qed.

Lemma step_LPush_deps t s s' :
  dependencies s → step (LPush t) s = Done s' → dependencies s'.
Proof.
  intros Hdep H. simpl in H.
  apply bind_Done in H as ([] & _ & H). apply bind_Done in H as ([f q'] & E & H).
  apply lift_Done in E. inv_res. apply push_deps; [done|done|].
  intros p Hp. by apply elem_of_nil in Hp.
Qed.

Lemma step_LPushDependent_deps t priors s s' :
  dependencies s → step (LPushDependent t priors) s = Done s' → dependencies s'.
Proof.
  intros Hdep H. simpl in H.
  apply bind_Done in H as ([] & _ & H). apply bind_Done in H as (pending & Ep & H).
  apply bind_Done in H as ([f q'] & E & H).
  apply lift_Done in Ep. apply lift_Done in E. inv_res.
  destruct (PushDependent_spec _ _ _ _ _ Ep E) as [Hf Hspec].
  destruct (pending_priors_spec _ _ _ Ep) as (Hp1 & Hp2 & Hp3).
  destruct (decide (pending = [])) as [->|Hnil].
  { apply push_deps; [done|done|]. intros p Hp. destruct (Hp3 p Hp) as [?|Hin]; [done|].
    by apply elem_of_nil in Hin. }
  destruct Hspec as (Hs&Hc&Hd&Hq&Ho&_&_).
  destruct Hdep as [Hcl Hfr Hcn Hun Hpe Hre].
  assert (status (Shared s) f = None) as Hfn by (unfold status; by rewrite Hf).
  assert (∀ g, is_Some (status (Shared s) g) → g ≠ f) as Hne.
  { intros g Hg ->. rewrite Hfn in Hg. by destruct Hg. }
  assert (∀ g, is_Some (status (Shared s) g) → status q' g = status (Shared s) g) as Hsame.
  { intros g Hg. rewrite Hs. rewrite decide_False; auto. }
  assert (∀ g, is_Some (status (Shared s) g) → is_Some (status q' g)) as Hsome.
  { intros g Hg. by rewrite Hsame. }
  assert (∀ p, p ∈ pending → p ≠ f) as Hpf.
  { intros p Hp. destruct (Hp2 p Hp) as (_ & [x Hx] & _). intros ->. congruence. }
  constructor; simpl.
  - intros p l g Hl Hg. rewrite Hd in Hl. case_decide; simplify_eq.
    + by apply elem_of_nil in Hg.
    + destruct (dependents (Shared s) p) as [l0|] eqn:El0; simplify_eq/=.
      apply elem_of_app in Hg as [Hg|Hg]; [eauto|].
      apply elem_of_replicate in Hg as [-> _]. rewrite Hs, decide_True by done. eauto.
  - apply Forall_forall. intros fr Hin. eapply Forall_forall in Hfr; [|done].
    destruct fr; simpl in *; try done.
    intros g Hg. destruct (Hfr g Hg) as [Hg1 Hg2]. split; [auto|].
    rewrite fn_lookup_insert_ne; [done|]. intros Heq. by apply (Hne g Hg1).
  - intros g Hg. rewrite Ho in Hg. rewrite Hc. destruct (decide (g = f)) as [->|Hgf].
    + by rewrite fn_lookup_insert.
    + rewrite fn_lookup_insert_ne by done. rewrite lookup_insert_ne in Hg by done. auto.
  - intros g p. destruct (decide (g = f)) as [->|Hgf].
    + rewrite !fn_lookup_insert. intros Hp. destruct (Hp3 p Hp) as [Hdn|?]; [left|by right].
      rewrite Hsame; [done|]. by rewrite Hdn.
    + rewrite !fn_lookup_insert_ne by done. intros Hp.
      destruct (Hun g p Hp) as [Hdn|?]; [left|by right].
      rewrite Hsame; [done|]. by rewrite Hdn.
  - intros p l Hl Hnd g. rewrite Hd in Hl. rewrite Hs in Hnd.
    destruct (decide (p = f)) as [->|Hpf']; simplify_eq; [simpl; lia|].
    destruct (dependents (Shared s) p) as [l0|] eqn:El0; simplify_eq/=.
    rewrite occurrences_app, occurrences_replicate.
    destruct (decide (g = f)) as [->|Hgf].
    + rewrite fn_lookup_insert. rewrite occurrences_zero; [lia|].
      intros Hin. apply (Hne f); eauto.
    + rewrite fn_lookup_insert_ne by done.
      assert (occurrences g l0 ≤ occurrences p (Unmet s g)) by eauto. lia.
  - intros g. rewrite Ho. destruct (decide (g = f)) as [->|Hgf].
    + left. rewrite lookup_insert_eq. eauto.
    + rewrite fn_lookup_insert_ne, lookup_insert_ne by done.
      destruct (Hre g) as [?|Hall]; [by left|right].
      intros p Hp. rewrite Hsame; auto. rewrite Hall; eauto.
Qed.

Lemma step_LSignal_deps t s s' :
  owned s → dependencies s → step (LSignal t) s = Done s' → dependencies s'.
Proof.
  unfold owned. intros Hown [Hcl Hfr Hcn Hun Hpe Hre] H. simpl in H.
  destruct (stack s t) as [|[| |inv [|f deps] acc| | |] fs] eqn:Est; try done.
  apply bind_Done in H as ([a q'] & E & H). apply lift_Done in E.
  apply signal_dependent_spec in E as (st & Hst & Hs & Hc & Hd & Hq & _ & _ & Ha).
  unfold stack in Est.
  set (P := GetSharedState inv) in *.
  set (U := <[f := remove_first P (Unmet s f)]> (Unmet s)).
  destruct (own_other_frames _ _ _ _ _ Hown Est) as (rest & Hfrm & Hfrm' & Hdis).
  assert (status (Shared s) P = Some DONE) as HP.
  { destruct (own_frame_status _ _ t (InSignal inv (f :: deps) acc) P KSignaling Hown)
      as (x & Hx & Hok).
    - rewrite Est. set_solver.
    - set_solver.
    - simpl in Hok. congruence. }
  assert (frame_ok (Shared s) (Unmet s) (InSignal inv (f :: deps) acc)) as Htop.
  { eapply Forall_forall in Hfr; [done|]. rewrite Hfrm. set_solver. }
  assert (P ∈ Unmet s f) as HPin.
  { apply occurrences_elem_of. destruct (Htop f) as [_ Hocc]; [set_solver|].
    simpl in Hocc. rewrite decide_True in Hocc by done. subst P. lia. }
  assert (∀ g, is_Some (status (Shared s) g) → is_Some (status q' g)) as Hsome.
  { intros g. by rewrite Hs. }
  assert (frame_ok q' U (InSignal inv deps acc)) as Htop'.
  { simpl. intros g Hg. destruct (Htop g) as [Hg1 Hg2]; [set_solver|].
    split; [auto|]. unfold U. simpl in Hg2. destruct (decide (g = f)) as [->|Hgf].
    - rewrite fn_lookup_insert, occurrences_remove_first_eq.
      subst P. lia.
    - rewrite fn_lookup_insert_ne by done. subst P. lia. }
  assert (∀ acc', frame_ok q' U (InSignal inv deps acc')) as Htop''.
  { intros acc'. apply Htop'. }
  assert (∀ fr', fr' ∈ fs ++ rest → frame_ok q' U fr') as Hothers.
  { intros fr' Hin.
    assert (frame_ok (Shared s) (Unmet s) fr') as Hold.
    { eapply Forall_forall in Hfr; [done|]. rewrite Hfrm. set_solver. }
    destruct fr' as [| |inv' rest' acc'| | |]; simpl in *; try done.
    intros g Hg. destruct (Hold g Hg) as [Hg1 Hg2]. split; [auto|].
    unfold U. destruct (decide (g = f)) as [->|Hgf].
    - rewrite fn_lookup_insert. rewrite occurrences_remove_first_ne; [done|].
      intros Heq. eapply (Hdis _ P KSignaling KSignaling Hin); [set_solver|].
      simpl. rewrite <- Heq. set_solver.
    - by rewrite fn_lookup_insert_ne. }
  assert (∀ g p, p ∈ Priors s g → status q' p = Some DONE ∨ p ∈ U g) as Hun'.
  { intros g p Hp. rewrite Hs. unfold U. destruct (decide (g = f)) as [->|Hgf].
    - rewrite fn_lookup_insert. destruct (Hun f p Hp) as [?|Hin]; [by left|].
      destruct (decide (p = P)) as [->|HpP]; [by left|right].
      by apply elem_of_remove_first_ne.
    - rewrite fn_lookup_insert_ne by done. auto. }
  assert (∀ p l, dependents q' p = Some l → status q' p ≠ Some DONE →
                 ∀ g, occurrences g l ≤ occurrences p (U g)) as Hpe'.
  { intros p l Hl Hnd g. rewrite Hd in Hl. rewrite Hs in Hnd.
    unfold U. destruct (decide (g = f)) as [->|Hgf].
    - rewrite fn_lookup_insert. rewrite occurrences_remove_first_ne; [eauto|].
      intros ->. by rewrite HP in Hnd.
    - rewrite fn_lookup_insert_ne by done. eauto. }
  assert (∀ g, g ≠ f → is_Some (InvokersOnHold (Shared s) !! g) →
               counter q' g = Some (Z.of_nat (length (U g)))) as Hcn'.
  { intros g Hgf Hg. rewrite Hc, decide_False by done. unfold U.
    rewrite fn_lookup_insert_ne by done. auto. }
  assert (∀ w, Status st = ON_HOLD → NumberOfPriorSharedFuturesRemaining st = 1%Z →
               InvokersOnHold (Shared s) !! f = Some w →
               ∀ p, p ∈ Priors s f → status q' p = Some DONE) as Hrel.
  { intros w _ Hone Hw p Hp.
    assert (counter (Shared s) f = Some 1%Z) as Hc1.
    { unfold counter. rewrite Hst. simpl. by rewrite Hone. }
    rewrite Hcn in Hc1 by eauto.
    assert (Unmet s f = [P]) as HU.
    { destruct (Unmet s f) as [|x [|y l]] eqn:EU; simpl in Hc1.
      - by apply elem_of_nil in HPin.
      - apply list_elem_of_singleton in HPin. by subst.
      - injection Hc1. lia. }
    rewrite Hs. destruct (Hun f p Hp) as [?|Hin]; [done|].
    rewrite HU in Hin. apply list_elem_of_singleton in Hin. by subst. }
  destruct a as [|w|w]; inv_res; simpl.
  - destruct Ha as [Ho Hnot]. constructor; simpl; fold U; try done.
    + intros p l g Hl Hg. rewrite Hd in Hl. eauto.
    + apply Forall_forall. intros fr Hin. rewrite Hfrm' in Hin.
      apply elem_of_cons in Hin as [->|Hin]; auto.
    + intros g Hg. rewrite Ho in Hg. destruct (decide (g = f)) as [->|Hgf]; [|auto].
      rewrite Hc, decide_True by done. unfold U. rewrite fn_lookup_insert.
      specialize (Hcn f Hg). unfold counter in Hcn. rewrite Hst in Hcn. simpl in Hcn.
      simplify_eq. rewrite Hcn. f_equal.
      pose proof (length_remove_first P (Unmet s f) HPin). subst P. lia.
    + intros g. rewrite Ho. destruct (Hre g) as [?|Hall]; [by left|right].
      intros p Hp. rewrite Hs. auto.
  - destruct Ha as (Hon & Hone & Hw & Ho & _). constructor; simpl; fold U; try done.
    + intros p l g Hl Hg. rewrite Hd in Hl. eauto.
    + apply Forall_forall. intros fr Hin. rewrite Hfrm' in Hin.
      apply elem_of_cons in Hin as [->|Hin]; [done|].
      apply elem_of_cons in Hin as [->|Hin]; auto.
    + intros g Hg. rewrite Ho in Hg. apply lookup_delete_is_Some in Hg as [Hgf Hg]. auto.
    + intros g. rewrite Ho. destruct (decide (g = f)) as [->|Hgf]; [right; eauto|].
      destruct (Hre g) as [?|Hall]; [left|right].
      * apply lookup_delete_is_Some. auto.
      * intros p Hp. rewrite Hs. auto.
  - destruct Ha as (Hon & Hone & Hw & Ho & _). constructor; simpl; fold U; try done.
    + intros p l g Hl Hg. rewrite Hd in Hl. eauto.
    + apply Forall_forall. intros fr Hin. rewrite Hfrm' in Hin.
      apply elem_of_cons in Hin as [->|Hin]; auto.
    + intros g Hg. rewrite Ho in Hg. apply lookup_delete_is_Some in Hg as [Hgf Hg]. auto.
    + intros g. rewrite Ho. destruct (decide (g = f)) as [->|Hgf]; [right; eauto|].
      destruct (Hre g) as [?|Hall]; [left|right].
      * apply lookup_delete_is_Some. auto.
      * intros p Hp. rewrite Hs. auto.
Qed.

Lemma step_deps l s s' : owned s → dependencies s → step l s = Done s' → dependencies s'.
Proof.
  destruct l; eauto using step_LPush_deps, step_LPushDependent_deps, step_LWait_deps,
    step_LTryInvoke_deps, step_LPop_deps, step_LInvoke_deps, step_LPayloadDone_deps,
    step_LSignal_deps, step_LLaunch_deps;
    intros _; by apply step_pool_deps.
Qed.

Lemma initial_deps : dependencies initial.
Proof.
  constructor; simpl.
  - intros p l g Hl. unfold dependents in Hl. simpl in Hl. by rewrite lookup_empty in Hl.
  - unfold frames. rewrite map_to_list_empty. constructor.
  - intros f [x Hx]. by rewrite lookup_empty in Hx.
  - intros f p Hp. by apply elem_of_nil in Hp.
  - intros p l Hl. unfold dependents in Hl. simpl in Hl. by rewrite lookup_empty in Hl.
  - intros f. right. intros p Hp. by apply elem_of_nil in Hp.
Qed.

Lemma reachable_deps s : reachable s → dependencies s.
Proof.
  induction 1 as [|l s s' Hr IH Hstep]; [apply initial_deps|].
  eapply step_deps; eauto using reachable_owned.
Qed.

(** ** Spawning and swapping workers *)

Lemma pool_core_fields q q' W :
  Threads q' = Threads q → ThreadIdToIndex q' = ThreadIdToIndex q →
  Atomics q' = Atomics q → NextThreadId q' = NextThreadId q →
  pool_core q W → pool_core q' W.
Proof.
  intros HT HI HA HX [H1 H2 H3 H4 H5 H6].
  constructor; rewrite ?HT, ?HI, ?HA, ?HX; auto.
Qed.

Lemma pool_core_same q q' W : same_pool q q' → pool_core q W → pool_core q' W.
Proof. intros (HN & HD & HT & HI & HA & HX). by apply pool_core_fields. Qed.

Lemma spawn_core s :
  pool_core (Shared s) (Workers s) → pool_core (Shared (spawn s)) (Workers (spawn s)).
Proof.
  intros [Hr Hri Hinj Hpos Hnd Hfr]. unfold spawn, spawn_worker. simpl.
  set (q := Shared s) in *. set (tid := NextThreadId q). set (c := fresh (dom (Atomics q))).
  assert (tid ∉ Threads q) as Htid.
  { intros Hin. apply Hfr in Hin. unfold tid in Hin. lia. }
  assert (Workers s !! tid = None) as HW.
  { destruct (Workers s !! tid) as [w|] eqn:E; [|done].
    destruct (Hpos _ _ E) as (i & _ & Hi). exfalso. apply Htid.
    apply list_elem_of_lookup. eauto. }
  assert (ThreadIdToIndex q !! tid = None) as Hid.
  { destruct (ThreadIdToIndex q !! tid) as [c'|] eqn:E; [|done].
    destruct (Hri _ _ E) as (w & Hw & _). congruence. }
  assert (Atomics q !! c = None) as Hc.
  { apply not_elem_of_dom, is_fresh. }
  assert (∀ t w, Workers s !! t = Some w → ThreadIndex w ≠ c) as Hcells.
  { intros t w Hw Heq. destruct (Hpos _ _ Hw) as (i & Hi & _). congruence. }
  rewrite Hid. constructor; simpl.
  - intros t w. destruct (decide (t = tid)) as [->|Hne].
    + rewrite !lookup_insert_eq. by intros [= <-].
    + rewrite !lookup_insert_ne by done. auto.
  - intros t c'. destruct (decide (t = tid)) as [->|Hne].
    + rewrite !lookup_insert_eq. intros [= <-]. eauto.
    + rewrite !lookup_insert_ne by done. auto.
  - intros t t' w w'. destruct (decide (t = tid)) as [->|Hne];
      destruct (decide (t' = tid)) as [->|Hne']; [done|..].
    + rewrite lookup_insert_eq, lookup_insert_ne by done. intros [= <-] Hw' Heq.
      simpl in Heq. symmetry in Heq. by apply Hcells in Hw'.
    + rewrite lookup_insert_eq, lookup_insert_ne by done. intros Hw [= <-] Heq.
      simpl in Heq. by apply Hcells in Hw.
    + rewrite !lookup_insert_ne by done. eauto.
  - intros t w. destruct (decide (t = tid)) as [->|Hne].
    + rewrite lookup_insert_eq. intros [= <-]. simpl. exists (length (Threads q)).
      rewrite lookup_insert_eq. split; [done|].
      rewrite lookup_app_r by lia. by rewrite Nat.sub_diag.
    + rewrite lookup_insert_ne by done. intros Hw.
      destruct (Hpos _ _ Hw) as (i & Hi & Hti). exists i.
      rewrite lookup_insert_ne by (symmetry; eauto). split; [done|].
      rewrite lookup_app_l; [done|]. by eapply lookup_lt_Some.
  - apply NoDup_app. split_and!; [done| |apply NoDup_singleton].
    intros x Hx ->%list_elem_of_singleton. done.
  - intros t [Hin| ->%list_elem_of_singleton]%elem_of_app; [|lia].
    apply Hfr in Hin. unfold tid. lia.
Qed.

Lemma iter_spawn_pool n s :
  pool_core (Shared s) (Workers s) →
  pool_core (Shared (Nat.iter n spawn s)) (Workers (Nat.iter n spawn s)) ∧
  length (Threads (Shared (Nat.iter n spawn s))) = length (Threads (Shared s)) + n ∧
  NumberOfThreads (Shared (Nat.iter n spawn s)) = NumberOfThreads (Shared s) ∧
  Destroying (Shared (Nat.iter n spawn s)) = Destroying (Shared s) ∧
  (∀ t w, Workers s !! t = Some w →
          Workers (Nat.iter n spawn s) !! t = Some w ∧
          Atomics (Shared (Nat.iter n spawn s)) !! ThreadIndex w
          = Atomics (Shared s) !! ThreadIndex w) ∧
  (∀ t, Workers (Nat.iter n spawn s) !! t = None → Workers s !! t = None) ∧
  (∀ t w, Workers (Nat.iter n spawn s) !! t = Some w → Workers s !! t = None →
          ∃ i : nat, Atomics (Shared (Nat.iter n spawn s)) !! ThreadIndex w = Some (Z.of_nat i) ∧
                     length (Threads (Shared s)) ≤ i) ∧
  (∀ t w, Workers (Nat.iter n spawn s) !! t = Some w → Workers s !! t = None →
          NextThreadId (Shared s) ≤ t) ∧
  NextThreadId (Shared s) ≤ NextThreadId (Shared (Nat.iter n spawn s)).
Proof.
  intros Hcore. induction n as [|n IH]; simpl.
  { split_and!; try done; try lia; intros t w ? ?; congruence. }
  destruct IH as (IHc & IHl & IHn & IHd & IHw & IHn' & IHnew & IHid & IHx).
  set (s1 := Nat.iter n spawn s) in *.
  pose proof (spawn_core s1 IHc) as Hc1.
  destruct IHc as [Hr Hri Hinj Hpos Hnd Hfr].
  assert (Atomics (Shared s1) !! fresh (dom (Atomics (Shared s1))) = None) as Hfc.
  { apply not_elem_of_dom, is_fresh. }
  assert (Workers s1 !! NextThreadId (Shared s1) = None) as HW.
  { destruct (Workers s1 !! NextThreadId (Shared s1)) as [w|] eqn:E; [|done].
    destruct (Hpos _ _ E) as (i & _ & Hi).
    assert (NextThreadId (Shared s1) < NextThreadId (Shared s1)); [|lia].
    apply Hfr. apply list_elem_of_lookup. eauto. }
  split_and!; [done|..].
  - unfold spawn, spawn_worker. simpl. rewrite length_app. simpl. lia.
  - done.
  - done.
  - intros t w Hw. destruct (IHw _ _ Hw) as [Hw1 Ha1]. unfold spawn, spawn_worker. simpl.
    assert (t ≠ NextThreadId (Shared s1)) by congruence.
    rewrite lookup_insert_ne by done. split; [done|].
    rewrite lookup_insert_ne; [done|].
    intros Heq. destruct (Hpos _ _ Hw1) as (i & Hi & _). congruence.
  - intros t. unfold spawn. simpl. destruct (decide (t = NextThreadId (Shared s1))) as [->|Hne].
    + by rewrite lookup_insert_eq.
    + rewrite lookup_insert_ne by done. auto.
  - intros t w. unfold spawn, spawn_worker. simpl.
    destruct (decide (t = NextThreadId (Shared s1))) as [->|Hne].
    + rewrite lookup_insert_eq. intros [= <-] _. simpl. rewrite lookup_insert_eq.
      exists (length (Threads (Shared s1))). split; [done|lia].
    + rewrite lookup_insert_ne by done. intros Hw Hn.
      destruct (IHnew _ _ Hw Hn) as (i & Hi & Hle). exists i. split; [|done].
      rewrite lookup_insert_ne; [done|]. intros Heq. congruence.
  - intros t w. unfold spawn. simpl.
    destruct (decide (t = NextThreadId (Shared s1))) as [->|Hne].
    + intros _ _. done.
    + rewrite lookup_insert_ne by done. eauto.
  - unfold spawn, spawn_worker. simpl. lia.
Qed.

Lemma swapped_lookup (l : list thread_id) k x0 xk i y :
  l !! 0 = Some x0 → l !! k = Some xk → k ≠ 0 →
  <[0 := xk]> (<[k := x0]> l) !! i = Some y ↔
  (i = 0 ∧ y = xk) ∨ (i = k ∧ y = x0) ∨ (i ≠ 0 ∧ i ≠ k ∧ l !! i = Some y).
Proof.
  intros H0 Hk Hne.
  assert (0 < length l) by (by eapply lookup_lt_Some).
  assert (k < length l) by (by eapply lookup_lt_Some).
  rewrite list_lookup_insert_Some, list_lookup_insert_Some, length_insert.
  split.
  - intros [(<- & <- & _)|(? & [(<- & <- & _)|(? & ?)])]; eauto 10.
  - intros [(-> & ->)|[(-> & ->)|(? & ? & ?)]]; eauto 10.
Qed.

Lemma swap_with_thread0_core t n q q' W :
  pool_core q W → swap_with_thread0 t n q = Ok q' →
  pool_core q' W ∧ NumberOfThreads q' = NumberOfThreads q ∧
  Destroying q' = Destroying q ∧ length (Threads q') = length (Threads q) ∧
  Heap q' = Heap q ∧ InvokerQueue q' = InvokerQueue q ∧ InvokersOnHold q' = InvokersOnHold q ∧
  is_Some (W !! t).
Proof.
  intros Hcore H. pose proof Hcore as [Hr Hri Hinj Hpos Hnd Hfr].
  unfold swap_with_thread0 in H.
  apply bind_Ok in H as (cell & Ecell & H). apply map_at_Ok in Ecell.
  apply bind_Ok in H as (threadIndex & Eti & H). apply deref_Ok in Eti.
  destruct (Hri _ _ Ecell) as (w & Hw & Hwc).
  destruct (decide _) as [[Hnz Hge]|_]; [|inv_res; split_and!; eauto].
  apply bind_Ok in H as (thread0 & E0 & H). apply deref_Ok in E0.
  apply bind_Ok in H as (cell0 & Ecell0 & H). apply map_at_Ok in Ecell0.
  destruct (decide _) as [Hrange|]; [|done].
  apply bind_Ok in H as (self & Eself & H). apply deref_Ok in Eself.
  apply bind_Ok in H as (tmp & Etmp & H). apply deref_Ok in Etmp.
  apply bind_Ok in H as (value & Evalue & H). apply deref_Ok in Evalue.
  apply mret_Ok in H. simpl in *. subst q'. simpl.
  destruct (Hri _ _ Ecell0) as (w0 & Hw0 & Hwc0).
  destruct (Hpos _ _ Hw) as (k & Hk & Htk). rewrite Hwc in Hk.
  destruct (Hpos _ _ Hw0) as (k0 & Hk0 & Htk0). rewrite Hwc0 in Hk0.
  assert (k0 = 0) as -> by (eapply NoDup_lookup; eauto).
  assert (threadIndex = Z.of_nat k) as -> by congruence.
  rewrite Nat2Z.id in Eself. assert (self = t) as -> by congruence.
  assert (k ≠ 0) as Hk0' by lia.
  assert (t ≠ thread0) as Htt.
  { intros ->. apply Hk0'. eapply NoDup_lookup; eauto. }
  assert (cell ≠ cell0) as Hcc.
  { intros ->. apply Htt. eapply Hinj; eauto. congruence. }
  assert (tmp = 0%Z) as -> by (change 0%Z with (Z.of_nat 0); congruence).
  assert (value = Z.of_nat k) as -> by congruence.
  split_and!; try done; [|by rewrite !length_insert].
  constructor; simpl; try done.
  - intros t' w' Hw'. destruct (decide (t' = t)) as [->|Hnt].
    + exists 0. assert (w' = w) as -> by congruence. rewrite Hwc, lookup_insert_eq.
      split; [done|]. rewrite Nat2Z.id. apply swapped_lookup; eauto.
    + destruct (decide (t' = thread0)) as [->|Hn0].
      * exists k. assert (w' = w0) as -> by congruence. rewrite Hwc0.
        rewrite lookup_insert_ne, lookup_insert_eq by done. split; [done|].
        rewrite Nat2Z.id. apply swapped_lookup; eauto.
      * destruct (Hpos _ _ Hw') as (i & Hi & Hti). exists i.
        rewrite !lookup_insert_ne.
        -- split; [done|]. rewrite Nat2Z.id. apply swapped_lookup; eauto.
           right. right. split_and!; [| |done]; intros ->; congruence.
        -- intros Heq. apply Hn0. eapply Hinj; eauto. congruence.
        -- intros Heq. apply Hnt. eapply Hinj; eauto. congruence.
  - rewrite Nat2Z.id. apply NoDup_alt. intros i j x Hi Hj.
    apply (swapped_lookup _ _ thread0 t) in Hi; [|done..].
    apply (swapped_lookup _ _ thread0 t) in Hj; [|done..].
    destruct Hi as [(-> & ->)|[(-> & ->)|(? & ? & Hi)]];
      destruct Hj as [(-> & Hx)|[(-> & Hx)|(? & ? & Hj)]]; try done; try congruence.
    + exfalso. assert (j = k); [eapply NoDup_lookup; eauto|done].
    + exfalso. assert (j = 0); [eapply NoDup_lookup; eauto|done].
    + exfalso. subst. assert (i = k); [eapply NoDup_lookup; eauto|done].
    + exfalso. subst. assert (i = 0); [eapply NoDup_lookup; eauto|done].
    + eapply NoDup_lookup; eauto.
  - rewrite Nat2Z.id. intros x Hx. apply list_elem_of_lookup in Hx as [i Hi].
    apply (swapped_lookup _ _ thread0 t) in Hi; [|done..].
    apply Hfr. apply list_elem_of_lookup.
    destruct Hi as [(-> & ->)|[(-> & ->)|(? & ? & Hi)]]; eauto.
Qed.

Lemma shrink_begin_core t n q q' W :
  pool_core q W → shrink_begin t n q = Ok q' →
  pool_core q' W ∧ NumberOfThreads q' = n ∧
  Destroying q' = Destroying q ∧ length (Threads q') = length (Threads q) ∧
  is_Some (W !! t).
Proof.
  intros Hcore H. unfold shrink_begin in H.
  apply bind_Ok in H as (q1 & E & H). apply mret_Ok in H. subst q'.
  destruct (swap_with_thread0_core _ _ _ _ _ Hcore E) as (Hc1 & HN & HD & HL & _ & _ & _ & HW).
  split_and!; try done.
  by eapply pool_core_fields; [..|done].
Qed.

(** ** The pool invariant holds in every reachable state *)

Lemma frames_sync_insert m t fs' :
  (∀ n, InSync n ∈ fs' ↔ InSync n ∈ default [] (m !! t)) →
  ∀ n, InSync n ∈ frames (<[t := fs']> m) ↔ InSync n ∈ frames m.
Proof.
  intros H n. destruct (frames_split m t) as (rest & H1 & H2).
  rewrite H2, H1, !elem_of_app, H. done.
Qed.

Lemma DestroyMutex_free s :
  DestroyMutex_held s = false ↔ ∀ n, InSync n ∉ frames (Stacks s).
Proof.
  unfold DestroyMutex_held. split.
  - intros H n Hin. apply not_true_iff_false in H. apply H.
    apply existsb_exists. exists (InSync n). split; [by apply list_elem_of_In|done].
  - intros H. apply not_true_iff_false. intros (fr & Hin & Hs)%existsb_exists.
    destruct fr; try done. eapply H. by apply list_elem_of_In.
Qed.

Lemma step_task_shape l s s' :
  task_label l → step l s = Done s' →
  same_pool (Shared s) (Shared s') ∧ Workers s' = Workers s ∧
  (∀ n, InSync n ∈ frames (Stacks s') ↔ InSync n ∈ frames (Stacks s)).
Proof.
  intros Hl H. destruct l as [t|t priors|t f|t f| | | |t| |t|t|t|t]; try done; simpl in H.
  - apply bind_Done in H as ([] & _ & H). apply bind_Done in H as ([f q'] & E & H).
    apply lift_Done in E. inv_res. apply Push_spec in E as (_&_&_&_&_&_&_&Hp). done.
  - apply bind_Done in H as ([] & _ & H). apply bind_Done in H as (pending & Ep & H).
    apply bind_Done in H as ([f q'] & E & H).
    apply lift_Done in Ep. apply lift_Done in E. inv_res.
    destruct (PushDependent_spec _ _ _ _ _ Ep E) as [_ Hspec].
    destruct (decide (pending = [])).
    + apply Push_spec in Hspec as (_&_&_&_&_&_&_&Hp). done.
    + destruct Hspec as (_&_&_&_&_&_&Hp). done.
  - apply bind_Done in H as ([] & _ & H). apply bind_Done in H as (a & E & H).
    apply lift_Done in E. inv_res. apply Wait_mark_spec in E as (_&_&_&Hp&_). done.
  - apply bind_Done in H as ([] & _ & H). apply bind_Done in H as ([o q0] & E & H).
    apply lift_Done in E. apply TryInvoke_take_spec in E as (_ & _ & _ & Hp & _ & _).
    destruct o; inv_res; [|done]. split_and!; [done..|]. simpl.
    apply frames_sync_insert. intros n. unfold stack. set_solver.
  - destruct (Workers s !! t) as [w|]; [|done].
    destruct (stack s t) as [|] eqn:Est; [|done]. unfold stack in Est.
    apply bind_Done in H as (o & E & H). apply lift_Done in E.
    destruct o as [| |inv q']; inv_res.
    + split_and!; [apply same_pool_refl|done|]. simpl.
      apply frames_sync_insert. intros n. rewrite Est. set_solver.
    + apply Pop_take_taken in E as (l & _ & _ & _ & _ & _ & Hp).
      split_and!; [done..|]. simpl.
      apply frames_sync_insert. intros n. rewrite Est. set_solver.
  - destruct (stack s t) as [|[inv| | | | |] fs] eqn:Est; try done. unfold stack in Est.
    apply bind_Done in H as (q' & E & H). apply lift_Done in E. inv_res.
    apply store_Status_spec in E as (_&_&_&_&_&_&_&Hp).
    split_and!; [done..|]. simpl.
    apply frames_sync_insert. intros n. rewrite Est. set_solver.
  - destruct (stack s t) as [|[|inv| | | |] fs] eqn:Est; try done. unfold stack in Est.
    apply bind_Done in H as (q' & E & H). apply lift_Done in E.
    apply bind_Done in H as (st & Eld & H). inv_res.
    apply call_invoker_spec in E as (_&_&_&_&_&_&_&Hp).
    split_and!; [done..|]. simpl.
    apply frames_sync_insert. intros n. rewrite Est. set_solver.
  - destruct (stack s t) as [|[| |inv [|f deps] acc| | |] fs] eqn:Est; try done.
    unfold stack in Est.
    apply bind_Done in H as ([a q'] & E & H). apply lift_Done in E.
    apply signal_dependent_spec in E as (st & _ & _ & _ & _ & _ & _ & Hp & _).
    destruct a; inv_res; (split_and!; [done..|]); simpl;
      apply frames_sync_insert; intros n; rewrite Est; set_solver.
  - destruct (stack s t) as [|[| |inv [|f deps] acc| | |] fs] eqn:Est; try done.
    unfold stack in Est.
    apply bind_Done in H as (q' & E & H). apply lift_Done in E. inv_res.
    apply launch_invokers_spec in E as (_ & _ & _ & _ & _ & _ & Hp).
    split_and!; [done..|]. simpl.
    apply frames_sync_insert. intros n. rewrite Est. set_solver.
Qed.

Lemma step_task_pool l s s' : task_label l → pool_inv s → step l s = Done s' → pool_inv s'.
Proof.
  intros Hl [Hc Hsz Hsy] H.
  destruct (step_task_shape _ _ _ Hl H) as (Hp & HW & Hfr).
  pose proof Hp as (HN & HD & HT & HI & HA & HX).
  constructor.
  - rewrite HW. by eapply pool_core_same.
  - intros Hfree. rewrite HN, HT. apply Hsz. apply DestroyMutex_free.
    intros n Hn. apply Hfr in Hn. revert Hn. by apply DestroyMutex_free.
  - intros n Hn. rewrite HN. apply Hsy. by apply Hfr.
Qed.

Lemma shrink_end_Ok t n q q' :
  shrink_end t n q = Ok q' →
  (0 ≤ NumberOfThreads q ≤ Z.of_nat (length (Threads q)))%Z ∧
  (t ∉ drop (Z.to_nat (NumberOfThreads q)) (Threads q)) ∧
  Threads q' = take (Z.to_nat n) (Threads q) ∧
  NumberOfThreads q' = NumberOfThreads q ∧ Destroying q' = Destroying q ∧
  ThreadIdToIndex q' = ThreadIdToIndex q ∧ Atomics q' = Atomics q ∧
  NextThreadId q' = NextThreadId q ∧
  Trace q' = Trace q ++ (EvJoin <$> drop (Z.to_nat (NumberOfThreads q)) (Threads q)).
Proof.
  unfold shrink_end, Sync. intros H.
  apply bind_Ok in H as (q1 & E & H). apply mret_Ok in H. subst q'.
  destruct (decide _) as [Hr|]; [|done]. destruct (decide _) as [|Hn]; [done|].
  apply mret_Ok in E. subst q1. done.
Qed.

Lemma forallb_not_worker (W : gmap thread_id ThreadWorker) l t :
  forallb (λ t', bool_decide (W !! t' = None)) l = true → t ∈ l → W !! t = None.
Proof.
  intros H Hin. rewrite forallb_forall in H. apply list_elem_of_In in Hin.
  apply H in Hin. by apply bool_decide_eq_true in Hin.
Qed.

Lemma step_pool_inv l s s' : pool_inv s → step l s = Done s' → pool_inv s'.
Proof.
  intros Hinv H.
  destruct l as [| | | |t n|t|t| |t| | | |];
    try (by revert Hinv H; apply step_task_pool);
    destruct Hinv as [Hc Hsz Hsy]; simpl in H.
  - apply bind_Done in H as ([] & _ & H). apply bind_Done in H as ([] & Hg & H).
    apply guard_Done, negb_true_iff in Hg.
    pose proof Hg as Hfree. rewrite DestroyMutex_free in Hfree.
    destruct (Destroying (Shared s)); [by inv_res|].
    destruct (decide _) as [|Hne]; [by inv_res|].
    destruct (decide _) as [Hlt|Hge]; inv_res.
    + set (s0 := with_Shared (with_NumberOfThreads n (Shared s)) s).
      destruct (iter_spawn_pool (Z.to_nat (n - Z.of_nat (length (Threads (Shared s))))) s0)
        as (Hc' & Hlen & HN & _).
      { by eapply pool_core_fields; [..|done]. }
      destruct (iter_spawn (Z.to_nat (n - Z.of_nat (length (Threads (Shared s))))) s0)
        as (_&_&_&Hst&_).
      constructor; [done| |].
      * intros _. rewrite HN, Hlen. simpl. lia.
      * intros m Hm. rewrite Hst in Hm. by apply Hfree in Hm.
    + match goal with H : shrink_begin _ _ _ = Ok _ |- _ =>
        apply shrink_begin_core with (W := Workers s) in H as (Hc' & HN & _); [|done] end.
      constructor; simpl; [done| |].
      * intros Hf. rewrite DestroyMutex_free in Hf. exfalso. apply (Hf n). simpl.
        destruct (frames_split (Stacks s) t) as (rest & _ & H2). rewrite H2. set_solver.
      * intros m [Hm|Hm]%frames_insert_elem; [|by apply Hfree in Hm].
        apply elem_of_cons in Hm as [[= ->]|Hm]; [done|].
        exfalso. eapply Hfree, elem_of_frames. done.
  - destruct (stack s t) as [|[| | |n| |] fs] eqn:Est; try done. unfold stack in Est.
    apply bind_Done in H as ([] & Hg & H). apply guard_Done in Hg.
    apply bind_Done in H as (q' & E & H). apply lift_Done in E. inv_res.
    apply shrink_end_Ok in E as (Hr & Hself & HT & HN & HD & HI & HA & HX & _).
    assert (n = NumberOfThreads (Shared s)) as Hn.
    { apply Hsy. eapply (elem_of_frames _ t). rewrite Est. set_solver. }
    destruct Hc as [Hreg Hri Hinj Hpos Hnd Hfr].
    constructor; simpl.
    + constructor; rewrite ?HT, ?HI, ?HA, ?HX; try done.
      * intros t' w Hw. destruct (Hpos _ _ Hw) as (i & Hi & Hti). exists i. split; [done|].
        rewrite lookup_take_lt; [done|].
        destruct (decide (i < Z.to_nat n)) as [|Hge]; [done|]. exfalso.
        assert (Workers s !! t' = None); [|congruence].
        eapply forallb_not_worker; [done|]. apply list_elem_of_lookup.
        exists (i - Z.to_nat n). rewrite lookup_drop, <- Hn.
        by replace (Z.to_nat n + (i - Z.to_nat n)) with i by lia.
      * eapply sublist_NoDup; [done|]. apply sublist_take.
      * intros x Hx. apply Hfr. by eapply subseteq_take.
    + intros _. rewrite HN, HT, length_take. lia.
    + intros m [Hm|Hm]%frames_insert_elem.
      * rewrite HN. apply Hsy. eapply (elem_of_frames _ t). rewrite Est. set_solver.
      * rewrite HN. by apply Hsy.
  - apply bind_Done in H as ([] & _ & H). apply bind_Done in H as ([] & Hg & H). inv_res.
    constructor; simpl.
    + by eapply pool_core_fields; [..|done].
    + intros Hf. apply Hsz. apply DestroyMutex_free. intros n Hn.
      rewrite DestroyMutex_free in Hf. apply (Hf n). simpl.
      destruct (frames_split (Stacks s) t) as (rest & H1 & H2). rewrite H2.
      rewrite H1 in Hn. unfold stack. set_solver.
    + intros n [Hn|Hn]%frames_insert_elem; [|by apply Hsy].
      apply elem_of_cons in Hn as [?|Hn]; [done|].
      apply Hsy. by eapply elem_of_frames.
  - destruct (stack s t) as [|[| | | | |] fs] eqn:Est; try done. unfold stack in Est.
    inv_res. destruct Hc as [Hreg Hri Hinj Hpos Hnd Hfr].
    constructor; simpl.
    + constructor; simpl; try done.
      * intros t' w [Hne Hw]%lookup_delete_Some. rewrite lookup_delete_ne by done. auto.
      * intros t' c [Hne Hw]%lookup_delete_Some. destruct (Hri _ _ Hw) as (w & ? & ?).
        exists w. rewrite lookup_delete_ne by done. auto.
      * intros t1 t2 w1 w2 [_ H1]%lookup_delete_Some [_ H2]%lookup_delete_Some. eauto.
      * intros t' w [Hne Hw]%lookup_delete_Some. auto.
    + intros Hf. apply Hsz. apply DestroyMutex_free. intros n Hn.
      rewrite DestroyMutex_free in Hf. apply (Hf n). simpl.
      destruct (frames_split (Stacks s) t) as (rest & H1 & H2). rewrite H2.
      rewrite H1, Est in Hn. set_solver.
    + intros n [Hn|Hn]%frames_insert_elem; [|by apply Hsy].
      apply Hsy. eapply (elem_of_frames _ t). rewrite Est. set_solver.
Qed.

Lemma initial_pool_inv : pool_inv initial.
Proof.
  constructor; simpl.
  - constructor; simpl; try done.
    + constructor.
    + intros t Ht. by apply elem_of_nil in Ht.
  - done.
  - unfold frames. rewrite map_to_list_empty. simpl. intros n Hn. by apply elem_of_nil in Hn.
Qed.

Lemma reachable_pool_inv s : reachable s → pool_inv s.
Proof. induction 1; eauto using initial_pool_inv, step_pool_inv. Qed.

(** ** Workers out of service *)


Lemma run_reachable ls s s' : reachable s → run ls s = Done s' → reachable s'.
Proof.
  revert s. induction ls as [|l ls IH]; intros s Hr H; simpl in H.
  - by inv_res.
  - apply bind_Done in H as (s1 & E & H). eapply IH; [|done]. by eapply reachable_step.
Qed.







(** ** Machine integers *)

Lemma to_vtkIdType_range z : vtkIdType_range z → to_vtkIdType z = z.
Proof.
  unfold vtkIdType_range, to_vtkIdType. intros H.
  rewrite Z.mod_small by lia. lia.
Qed.

Lemma to_vtkIdType_to_size_t z : to_vtkIdType (to_size_t z) = to_vtkIdType z.
Proof.
  unfold to_vtkIdType, to_size_t. by rewrite Zplus_mod_idemp_l.
Qed.

Lemma to_size_t_pred z : to_size_t (to_size_t z - 1) = to_size_t (z - 1).
Proof. unfold to_size_t. by rewrite Zminus_mod_idemp_l. Qed.

Lemma to_size_t_of_nat n : (Z.of_nat n < 2 ^ 64)%Z → Z.of_nat n = to_size_t (Z.of_nat n).
Proof. intros H. unfold to_size_t. rewrite Z.mod_small; lia. Qed.

(** ** The reinsertion loop *)

Lemma launch_loop_indices l i q :
  NoDup (GetSharedState <$> l) →
  (∀ inv, inv ∈ l → status q (GetSharedState inv) = Some ON_HOLD) →
  (- 2 ^ 63 ≤ i - Z.of_nat (length l))%Z → (i < 2 ^ 63)%Z →
  ∃ q', launch_loop l (to_size_t i) q = Ok q' ∧
        (∀ j inv, l !! j = Some inv →
                  index_of q' (GetSharedState inv) = Some (i - Z.of_nat (S j))%Z) ∧
        (∀ g, g ∉ GetSharedState <$> l → Heap q' !! g = Heap q !! g).
Proof.
  revert i q. induction l as [|inv l IH]; intros i q Hnd Hst Hlo Hhi; simpl.
  - eexists. split_and!; [done| |done]. intros j inv Hj. by rewrite lookup_nil in Hj.
  - apply NoDup_cons in Hnd as [Hnotin Hnd]. simpl in Hlo.
    pose proof (Hst inv (list_elem_of_here _ _)) as Hinv.
    unfold status in Hinv. destruct (Heap q !! GetSharedState inv) as [st|] eqn:Est; [|done].
    unfold load. rewrite Est. simpl. simpl in Hinv. simplify_eq.
    rewrite decide_True by done.
    unfold store_InvokerIndex, store_Status, load. rewrite Est. simpl.
    rewrite lookup_insert_eq. simpl. rewrite insert_insert_eq.
    rewrite to_size_t_pred, to_vtkIdType_to_size_t.
    rewrite to_vtkIdType_range by (unfold vtkIdType_range; lia).
    match goal with |- context [launch_loop l _ ?q1] => set (q1' := q1) end.
    destruct (IH (i - 1)%Z q1') as (q' & Hq' & Hidx & Hother); [done| |lia|lia|].
    { intros w Hw. unfold status, q1'. simpl. rewrite lookup_insert_ne.
      - apply Hst. by right.
      - intros Heq. apply Hnotin. rewrite Heq. by apply list_elem_of_fmap_2. }
    exists q'. split_and!; [done| |].
    + intros [|j] w Hj; simpl in Hj.
      * simplify_eq. unfold index_of. rewrite Hother by done.
        unfold q1'. simpl. rewrite lookup_insert_eq. simpl. f_equal; lia.
      * rewrite (Hidx j w Hj). f_equal; lia.
    + intros g Hg. rewrite Hother by set_solver. unfold q1'. simpl.
      rewrite lookup_insert_ne; [done|]. set_solver.
Qed.


(** When the ready queue is empty the count starts at the number of invokers,
    so that the new front has index 0. *)
Lemma launch_invokers_empty_queue invokersToLaunch q :
  InvokerQueue q = [] →
  NoDup (GetSharedState <$> invokersToLaunch) →
  (∀ inv, inv ∈ invokersToLaunch → status q (GetSharedState inv) = Some ON_HOLD) →
  (Z.of_nat (length invokersToLaunch) < 2 ^ 63)%Z →
  ∃ q', launch_invokers invokersToLaunch q = Ok q' ∧
    InvokerQueue q' = Some <$> rev invokersToLaunch ∧
    ∀ j inv, invokersToLaunch !! j = Some inv →
      index_of q' (GetSharedState inv)
      = Some (Z.of_nat (length invokersToLaunch) - Z.of_nat (S j))%Z.
Proof.
  intros Hq Hnd Hst Hlen.
  destruct (launch_loop_indices invokersToLaunch (Z.of_nat (length invokersToLaunch)) q
              Hnd Hst) as (q1 & Hloop & Hidx & _); [lia..|].
  rewrite <- to_size_t_of_nat in Hloop by lia.
  assert (launch_invokers invokersToLaunch q
          = Ok (emit (replicate (length invokersToLaunch) EvNotifyOne) q1)) as Hrun.
  { unfold launch_invokers. destruct invokersToLaunch as [|inv l].
    - simpl in Hloop. by inv_res.
    - rewrite Hq. simpl. simpl in Hloop. rewrite Hloop. done. }
  eexists. split; [exact Hrun|].
  apply launch_invokers_spec in Hrun as (Hq' & _). split.
  - by rewrite Hq', Hq, app_nil_r.
  - intros j inv Hj. apply (Hidx j inv Hj).
Qed.

(** ** TryInvoke *)

(** C5: [TryInvoke] takes the slot at the target's index minus the front's
    index; a slot that is not the front is left as a tombstone, a front slot
    is popped and the leading tombstones are stripped, after which the queue
    is empty or its front is not null. *)
Theorem TryInvoke_take_slot state q st invoker rest frontState index :
  Heap q !! state = Some st → Status st = ENQUEUED →
  InvokerQueue q = Some invoker :: rest →
  Heap q !! GetSharedState invoker = Some frontState →
  index = (InvokerIndex st - InvokerIndex frontState)%Z →
  vtkIdType_range index → (0 ≤ index < Z.of_nat (length (InvokerQueue q)))%Z →
  ∃ slot q', TryInvoke_take state q = Ok (slot, q') ∧
    InvokerQueue q !! Z.to_nat index = Some slot ∧
    (index ≠ 0%Z → InvokerQueue q' = <[Z.to_nat index := None]> (InvokerQueue q)) ∧
    (index = 0%Z → slot = Some invoker ∧ InvokerQueue q' = strip_nullptr rest ∧
                   (InvokerQueue q' = [] ∨ ∃ inv l, InvokerQueue q' = Some inv :: l)) ∧
    Heap q' = Heap q ∧ InvokersOnHold q' = InvokersOnHold q ∧ Trace q' = Trace q.
Proof.
  intros Hst Henq Hq Hfront -> Hrange Hidx.
  destruct (InvokerQueue q !! Z.to_nat (InvokerIndex st - InvokerIndex frontState))
    as [slot|] eqn:Eslot.
  2:{ apply lookup_ge_None in Eslot. lia. }
  unfold TryInvoke_take, load. rewrite Hst. simpl.
  rewrite decide_False by (intros ?; congruence).
  rewrite decide_False by (by rewrite Hq).
  unfold front_InvokerIndex, load. rewrite Hq. simpl. rewrite Hfront. simpl.
  rewrite to_vtkIdType_range by done.
  rewrite decide_True by (by rewrite Hq in Hidx).
  rewrite <- Hq, Eslot. simpl.
  destruct (decide (InvokerIndex st - InvokerIndex frontState = 0)%Z) as [H0|Hne].
  - exists slot. eexists. split; [done|]. rewrite H0 in *. rewrite Hq in *. simpl in *.
    simplify_eq. split_and!; try done.
    intros _. split_and!; [done|done|]. apply strip_nullptr_front.
  - exists slot. eexists. split; [done|]. split_and!; try done.
Qed.

(** X22: the abort case of [TryInvoke]: without an ENQUEUED target or with
    an empty queue it returns false and changes nothing. *)
Lemma TryInvoke_abort fuel t state q st :
  Heap q !! state = Some st → Status st ≠ ENQUEUED ∨ InvokerQueue q = [] →
  TryInvoke fuel t state q = Ok (false, q).
Proof.
  intros Hst Hor. unfold TryInvoke, TryInvoke_take, load. rewrite Hst. simpl.
  destruct (decide (Status st ≠ ENQUEUED)); [done|].
  destruct Hor as [|Hq]; [done|]. by rewrite decide_True.
Qed.

(** ** SetNumberOfThreads *)

(** C8: once [Destroying] is set, [SetNumberOfThreads] returns without any
    effect: no thread is spawned or joined and no field changes. *)
Theorem SetNumberOfThreads_destroying this_thread numberOfThreads q :
  Destroying q = true → SetNumberOfThreads this_thread numberOfThreads q = Ok q.
Proof. intros H. unfold SetNumberOfThreads. by rewrite H. Qed.

Lemma delete_sets_Destroying this_thread q q' :
  vtkThreadedCallbackQueue_delete this_thread q = Ok q' → Destroying q' = true.
Proof.
  unfold vtkThreadedCallbackQueue_delete, Sync. intros H.
  destruct (decide _); [|done]. destruct (decide _); [done|]. by inv_res.
Qed.

(** C6, for a target of at least one thread: a worker whose index is not
    below the target swaps with worker 0, both in [Threads] and in the two
    index cells, every handle at a position from the target on is joined, the
    calling thread is not among them, and [Threads] is cut to the target. *)
Theorem shrink_from_excess_worker this_thread numberOfThreads q cell cell0 k k0 thread0 :
  Destroying q = false →
  (1 ≤ numberOfThreads < Z.of_nat (length (Threads q)))%Z →
  ThreadIdToIndex q !! this_thread = Some cell →
  Atomics q !! cell = Some (Z.of_nat k) →
  (numberOfThreads ≤ Z.of_nat k)%Z →
  Threads q !! k = Some this_thread →
  Threads q !! 0 = Some thread0 →
  ThreadIdToIndex q !! thread0 = Some cell0 →
  Atomics q !! cell0 = Some k0 →
  NoDup (Threads q) →
  ∃ q' swapped,
    SetNumberOfThreads this_thread numberOfThreads q = Ok q' ∧
    swapped = <[0 := this_thread]> (<[k := thread0]> (Threads q)) ∧
    swapped !! 0 = Some this_thread ∧ swapped !! k = Some thread0 ∧
    Atomics q' !! cell = Some k0 ∧ Atomics q' !! cell0 = Some (Z.of_nat k) ∧
    NumberOfThreads q' = numberOfThreads ∧
    Threads q' = take (Z.to_nat numberOfThreads) swapped ∧
    length (Threads q') = Z.to_nat numberOfThreads ∧
    Threads q' !! 0 = Some this_thread ∧
    Trace q' = Trace q ++ EvNotifyAll :: (EvJoin <$> drop (Z.to_nat numberOfThreads) swapped) ∧
    (this_thread ∉ drop (Z.to_nat numberOfThreads) swapped) ∧
    (∀ i t, (numberOfThreads ≤ Z.of_nat i)%Z → swapped !! i = Some t → EvJoin t ∈ Trace q').
Proof.
  intros Hd [Hn1 Hn2] Hc Hk Hnk Hself H0 Hc0 Hk0 Hnd.
  assert (Hklt : k < length (Threads q)) by (eapply lookup_lt_Some; eauto).
  assert (Hkpos : k ≠ 0) by lia.
  set (swapped := <[0 := this_thread]> (<[k := thread0]> (Threads q))).
  assert (Hlen : length swapped = length (Threads q)).
  { unfold swapped. by rewrite !length_insert. }
  assert (Hnotin : this_thread ∉ drop (Z.to_nat numberOfThreads) swapped).
  { intros Hin. apply list_elem_of_lookup in Hin as [i Hi].
    rewrite lookup_drop in Hi. unfold swapped in Hi.
    rewrite list_lookup_insert_ne in Hi by lia.
    destruct (decide (Z.to_nat numberOfThreads + i = k)) as [Heq|Hne].
    - rewrite Heq in Hi. rewrite list_lookup_insert_eq in Hi by lia.
      injection Hi as ->.
      assert (0 = k) by (eapply NoDup_lookup; eauto). lia.
    - rewrite list_lookup_insert_ne in Hi by lia.
      assert (Z.to_nat numberOfThreads + i = k) by (eapply NoDup_lookup; eauto). lia. }
  assert (Hsw0 : swapped !! 0 = Some this_thread).
  { unfold swapped. apply list_lookup_insert_eq. rewrite length_insert. lia. }
  eexists. exists swapped. split.
  - unfold SetNumberOfThreads. rewrite Hd.
    rewrite decide_False by lia. rewrite decide_False by lia.
    unfold shrink_begin, swap_with_thread0. rewrite Hc. cbn. rewrite Hk. cbn.
    rewrite decide_True by lia. rewrite H0. cbn. rewrite Hc0. cbn.
    rewrite decide_True by lia. rewrite Nat2Z.id. rewrite Hself. cbn.
    rewrite Hk0. cbn.
    unfold shrink_end, Sync. cbn.
    rewrite !length_insert. rewrite decide_True by lia.
    fold swapped. rewrite decide_False by done. cbn. reflexivity.
  - cbn. fold swapped. split_and!; try done.
    + unfold swapped. rewrite list_lookup_insert_ne by lia.
      by apply list_lookup_insert_eq.
    + by rewrite lookup_insert_eq.
    + destruct (decide (cell = cell0)) as [->|Hne].
      * rewrite lookup_insert_eq. congruence.
      * rewrite lookup_insert_ne by done. by rewrite lookup_insert_eq.
    + rewrite length_take. lia.
    + rewrite lookup_take_lt by lia. done.
    + by rewrite <- app_assoc.
    + intros i t Hi Hlook. apply elem_of_app. right.
      apply list_elem_of_fmap. exists t. split; [done|].
      apply list_elem_of_lookup. exists (i - Z.to_nat numberOfThreads).
      rewrite lookup_drop.
      replace (Z.to_nat numberOfThreads + (i - Z.to_nat numberOfThreads)) with i by lia.
      done.
Qed.

(** ** Nested invocations *)

Lemma run_ok_refl q : hold_keys q → run_ok q q.
Proof.
  intros H. split_and!; [done..|]. exists []. split; [by rewrite app_nil_r|].
  intros g Hg. by apply elem_of_nil in Hg.
Qed.

Lemma run_ok_trans q1 q2 q3 : run_ok q1 q2 → run_ok q2 q3 → run_ok q1 q3.
Proof.
  intros (_ & Hh1 & es1 & Ht1 & He1) (Hk & Hh2 & es2 & Ht2 & He2).
  split_and!; [done|auto|]. exists (es1 ++ es2). split.
  - by rewrite Ht2, Ht1, app_assoc.
  - intros g [?|?]%elem_of_app; auto.
Qed.

Lemma run_ok_quiet q q' :
  hold_keys q → InvokersOnHold q' = InvokersOnHold q →
  (∃ es, Trace q' = Trace q ++ es ∧ ∀ g, EvEmplaceFront g ∉ es) →
  run_ok q q'.
Proof.
  intros Hk Hh (es & Ht & He). split_and!.
  - intros f inv. rewrite Hh. apply Hk.
  - intros g. by rewrite Hh.
  - exists es. split; [done|]. intros g Hg. by apply He in Hg.
Qed.

Lemma signal_loop_run_ok invoke dependents invokersToLaunch q acc' q' :
  (∀ i q q', hold_keys q → invoke i q = Ok q' → run_ok q q') →
  hold_keys q →
  signal_loop invoke dependents invokersToLaunch q = Ok (acc', q') →
  run_ok q q' ∧
  ∀ w, w ∈ acc' → w ∈ invokersToLaunch ∨ is_Some (InvokersOnHold q !! GetSharedState w).
Proof.
  intros Hinv. revert invokersToLaunch q.
  induction dependents as [|f deps IH]; intros acc q Hk H; simpl in H.
  - inv_res. split; [by apply run_ok_refl|auto].
  - apply bind_Ok in H as ([a q1] & E & H).
    apply signal_dependent_spec in E as (st & Hst & _ & _ & _ & _ & Ht & _ & Ha).
    assert (∀ w, InvokersOnHold q !! f = Some w →
                 InvokersOnHold q1 = delete f (InvokersOnHold q) → run_ok q q1) as Hdel.
    { intros w Hw Ho. split_and!.
      - intros g inv. rewrite Ho. intros [_ ?]%lookup_delete_Some. eauto.
      - intros g. rewrite Ho. intros [_ ?]%lookup_delete_is_Some. done.
      - exists []. split; [by rewrite app_nil_r|]. intros g Hg. by apply elem_of_nil in Hg. }
    destruct a as [|w|w].
    + destruct Ha as [Ho _].
      assert (run_ok q q1) as H01.
      { apply run_ok_quiet; [done..|]. exists []. split; [by rewrite app_nil_r|].
        intros g Hg. by apply elem_of_nil in Hg. }
      destruct (IH _ _ (proj1 H01) H) as [H12 Hacc].
      split; [by eapply run_ok_trans|].
      intros w Hw. destruct (Hacc w Hw) as [?|Hs]; [by left|right].
      by apply (proj1 (proj2 H01)).
    + destruct Ha as (_ & _ & Hw & Ho & _).
      apply bind_Ok in H as (q2 & E2 & H).
      pose proof (Hdel _ Hw Ho) as H01.
      pose proof (Hinv _ _ _ (proj1 H01) E2) as H12.
      destruct (IH _ _ (proj1 H12) H) as [H23 Hacc].
      pose proof (run_ok_trans _ _ _ H01 H12) as H02.
      split; [by eapply run_ok_trans|].
      intros w' Hw'. destruct (Hacc w' Hw') as [?|Hs]; [by left|right].
      by apply (proj1 (proj2 H02)).
    + destruct Ha as (_ & _ & Hw & Ho & _).
      pose proof (Hdel _ Hw Ho) as H01.
      destruct (IH _ _ (proj1 H01) H) as [H12 Hacc].
      split; [by eapply run_ok_trans|].
      intros w' Hw'. destruct (Hacc w' Hw') as [[?| ->%list_elem_of_singleton]%elem_of_app|Hs].
      * by left.
      * right. rewrite (Hk _ _ Hw). eauto.
      * right. by apply (proj1 (proj2 H01)).
Qed.

Lemma launch_invokers_run_ok l q q' :
  hold_keys q → launch_invokers l q = Ok q' →
  hold_keys q' ∧ InvokersOnHold q' = InvokersOnHold q ∧
  ∃ es, Trace q' = Trace q ++ es ∧
        ∀ g, EvEmplaceFront g ∈ es → g ∈ GetSharedState <$> l.
Proof.
  intros Hk H. apply launch_invokers_spec in H as (_ & Ho & _ & _ & _ & Ht & _).
  split_and!; [|done|].
  - intros f inv. rewrite Ho. apply Hk.
  - eexists. split; [exact Ht|]. intros g [Hg|Hg]%elem_of_app.
    + apply list_elem_of_fmap in Hg as (g' & [= ->] & ?). done.
    + apply elem_of_replicate in Hg as [? _]. done.
Qed.

Lemma SignalDependentSharedFutures_with_run_ok invoke inv q q' :
  (∀ i q q', hold_keys q → invoke i q = Ok q' → run_ok q q') →
  hold_keys q → SignalDependentSharedFutures_with invoke inv q = Ok q' → run_ok q q'.
Proof.
  intros Hinv Hk H. unfold SignalDependentSharedFutures_with in H.
  apply bind_Ok in H as (st & _ & H). apply bind_Ok in H as ([acc q1] & E & H).
  destruct (signal_loop_run_ok _ _ _ _ _ _ Hinv Hk E) as [H01 Hacc].
  destruct (launch_invokers_run_ok _ _ _ (proj1 H01) H) as (Hk' & Ho & es & Ht & He).
  destruct H01 as (_ & Hsub & es0 & Ht0 & He0).
  split_and!; [done|by rewrite Ho|].
  exists (es0 ++ es). split; [by rewrite Ht, Ht0, app_assoc|].
  intros g [Hg|Hg]%elem_of_app; [auto|]. apply He in Hg.
  apply list_elem_of_fmap in Hg as (w & -> & Hw).
  destruct (Hacc w Hw) as [Hnil|Hs]; [by apply elem_of_nil in Hnil|done].
Qed.

Lemma call_invoker_run_ok t inv q q' :
  hold_keys q → call_invoker t inv q = Ok q' → run_ok q q'.
Proof.
  intros Hk H. apply call_invoker_spec in H as (_ & _ & _ & _ & _ & Ho & Ht & _).
  apply run_ok_quiet; [done..|]. eexists. split; [exact Ht|].
  intros g ?%list_elem_of_singleton. done.
Qed.

Lemma store_Status_run_ok f s q q' :
  hold_keys q → store_Status f s q = Ok q' → run_ok q q'.
Proof.
  intros Hk H. apply store_Status_spec in H as (_ & _ & _ & _ & _ & Ho & Ht & _).
  apply run_ok_quiet; [done..|]. exists []. split; [by rewrite app_nil_r|].
  intros g Hg. by apply elem_of_nil in Hg.
Qed.

Lemma Invoke_run_ok fuel t inv q q' :
  hold_keys q → Invoke fuel t inv q = Ok q' → run_ok q q'.
Proof.
  revert inv q q'. induction fuel as [|fuel IH]; intros inv q q' Hk H; simpl in H; [done|].
  apply bind_Ok in H as (q1 & E1 & H). apply bind_Ok in H as (q2 & E2 & H).
  pose proof (store_Status_run_ok _ _ _ _ Hk E1) as H01.
  pose proof (call_invoker_run_ok _ _ _ _ (proj1 H01) E2) as H12.
  pose proof (SignalDependentSharedFutures_with_run_ok _ _ _ _ IH (proj1 H12) H) as H23.
  eauto using run_ok_trans.
Qed.

Lemma signal_loop_InvokeNow invoke f dependents invokersToLaunch q w q1 :
  signal_dependent f q = Ok (InvokeNow w, q1) →
  signal_loop invoke (f :: dependents) invokersToLaunch q
  = (q2 ← invoke w q1; signal_loop invoke dependents invokersToLaunch q2).
Proof. intros H. simpl. by rewrite H. Qed.

Lemma Invoke_S fuel t invoker q q1 q2 :
  store_Status (GetSharedState invoker) RUNNING q = Ok q1 →
  call_invoker t invoker q1 = Ok q2 →
  Invoke (S fuel) t invoker q = SignalDependentSharedFutures fuel t invoker q2.
Proof. intros H1 H2. simpl. rewrite H1. simpl. by rewrite H2. Qed.

(** C4: a dependent that reaches zero while ON_HOLD with a high-priority
    invoker is taken out of the on-hold store and invoked at once by the
    signaling thread; the rest of the signaling never puts it in the ready
    queue. *)
Theorem high_priority_dependent_runs_inline
    fuel t f dependents invokersToLaunch q st waitingInvoker :
  Heap q !! f = Some st → Status st = ON_HOLD →
  NumberOfPriorSharedFuturesRemaining st = 1%Z →
  InvokersOnHold q !! f = Some waitingInvoker → IsHighPriority waitingInvoker = true →
  hold_keys q → f ∉ GetSharedState <$> invokersToLaunch →
  ∃ q1 q2,
    signal_dependent f q = Ok (InvokeNow waitingInvoker, q1) ∧
    InvokersOnHold q1 = delete f (InvokersOnHold q) ∧
    InvokerQueue q1 = InvokerQueue q ∧ Trace q1 = Trace q ∧
    (q ← store_Status f RUNNING q1; call_invoker t waitingInvoker q) = Ok q2 ∧
    status q2 f = Some DONE ∧ Trace q2 = Trace q ++ [EvRun t f] ∧
    InvokerQueue q2 = InvokerQueue q ∧ InvokersOnHold q2 = delete f (InvokersOnHold q) ∧
    signal_loop (Invoke (S fuel) t) (f :: dependents) invokersToLaunch q
    = (q3 ← SignalDependentSharedFutures fuel t waitingInvoker q2;
       signal_loop (Invoke (S fuel) t) dependents invokersToLaunch q3) ∧
    ∀ acc' q' q'',
      signal_loop (Invoke (S fuel) t) (f :: dependents) invokersToLaunch q = Ok (acc', q') →
      launch_invokers acc' q' = Ok q'' →
      InvokersOnHold q'' !! f = None ∧
      ∃ es, Trace q'' = Trace q ++ EvRun t f :: es ∧ EvEmplaceFront f ∉ es.
Proof.
  intros Hst Hon Hone Hw Hhp Hk Hacc.
  pose proof (Hk _ _ Hw) as Hwf.
  assert (signal_dependent f q
          = Ok (InvokeNow waitingInvoker,
                with_InvokersOnHold (delete f (InvokersOnHold q))
                  (with_Heap (<[f := mkSharedState (Status st) (1 - 1)
                      (DependentSharedFutures st) (InvokerIndex st)]> (Heap q)) q))) as Hsig.
  { unfold signal_dependent, load, store_NumberOfPriorSharedFuturesRemaining, take_on_hold, load.
    rewrite Hst. simpl. rewrite Hone.
    rewrite decide_True by done. rewrite Hw. simpl. by rewrite Hhp. }
  set (q1 := with_InvokersOnHold _ _) in Hsig.
  assert (Heap q1 !! f = Some (mkSharedState (Status st) (1 - 1)
            (DependentSharedFutures st) (InvokerIndex st))) as Hst1.
  { unfold q1. simpl. by rewrite lookup_insert_eq. }
  destruct (store_Status f RUNNING q1) as [q1'|] eqn:E1.
  2:{ unfold store_Status, load in E1. by rewrite Hst1 in E1. }
  destruct (call_invoker t waitingInvoker q1') as [q2|] eqn:E2.
  2:{ pose proof E1 as E1'. apply store_Status_spec in E1' as (_ & Hs & _).
      unfold call_invoker, store_Status, load in E2. rewrite Hwf in E2.
      specialize (Hs f). rewrite decide_True in Hs by done. unfold status in Hs.
      destruct (Heap q1' !! f); simpl in *; done. }
  pose proof E1 as E1'. pose proof E2 as E2'.
  apply store_Status_spec in E1' as (_ & Hs1 & _ & _ & Hq1 & Ho1 & Ht1 & _).
  apply call_invoker_spec in E2' as (_ & Hs2 & _ & _ & Hq2 & Ho2 & Ht2 & _).
  rewrite Hwf in Hs2, Ht2.
  assert (Invoke (S fuel) t waitingInvoker q1
          = SignalDependentSharedFutures fuel t waitingInvoker q2) as HInv.
  { apply (Invoke_S _ _ _ _ q1'); [by rewrite Hwf|done]. }
  exists q1, q2. split_and!.
  - done.
  - done.
  - done.
  - done.
  - by rewrite E1.
  - rewrite Hs2. by rewrite decide_True.
  - by rewrite Ht2, Ht1.
  - by rewrite Hq2, Hq1.
  - by rewrite Ho2, Ho1.
  - by rewrite (signal_loop_InvokeNow _ _ _ _ _ _ _ Hsig), HInv.
  - intros acc' q' q'' Hloop Hlaunch.
    rewrite (signal_loop_InvokeNow _ _ _ _ _ _ _ Hsig), HInv in Hloop.
    apply bind_Ok in Hloop as (q3 & E3 & Hloop).
    assert (hold_keys q2) as Hk2.
    { intros g inv. rewrite Ho2, Ho1. unfold q1. simpl.
      intros [_ ?]%lookup_delete_Some. eauto. }
    assert (InvokersOnHold q2 !! f = None) as Hf2.
    { rewrite Ho2, Ho1. unfold q1. simpl. apply lookup_delete_eq. }
    pose proof (SignalDependentSharedFutures_with_run_ok _ _ _ _
                  (Invoke_run_ok fuel t) Hk2 E3) as H23.
    destruct (signal_loop_run_ok _ _ _ _ _ _ (Invoke_run_ok (S fuel) t) (proj1 H23) Hloop)
      as [H34 Hin].
    pose proof (run_ok_trans _ _ _ H23 H34) as (Hk4 & Hh4 & es & Ht & He).
    destruct (launch_invokers_run_ok _ _ _ Hk4 Hlaunch) as (_ & Ho5 & es' & Ht' & He').
    split.
    + rewrite Ho5. destruct (InvokersOnHold q' !! f) eqn:E; [|done].
      assert (is_Some (InvokersOnHold q2 !! f)) as [? ?] by eauto. congruence.
    + exists (es ++ es'). split.
      * rewrite Ht', Ht, Ht2, Ht1. unfold q1. simpl. by rewrite <- !app_assoc.
      * intros [Hg|Hg]%elem_of_app.
        -- apply He in Hg as [? ?]. congruence.
        -- apply He' in Hg. apply list_elem_of_fmap in Hg as (w & Hwf' & Hw').
           destruct (Hin w Hw') as [Hold|[x Hx]].
           ++ apply Hacc. rewrite Hwf'. by apply list_elem_of_fmap_2.
           ++ rewrite <- Hwf' in Hx.
              assert (is_Some (InvokersOnHold q2 !! f)) as [? ?].
              { apply (proj1 (proj2 H23)). eauto. }
              congruence.
Qed.

(** ** Status transitions *)

Lemma step_status l s s' f st :
  owned s → step l s = Done s' → status (Shared s) f = Some st →
  ∃ st', status (Shared s') f = Some st' ∧
         (st' = st ∨ transition st st' ∨
          (st = ON_HOLD ∧ st' = RUNNING ∧ inline_start l s f)).
Proof.
  unfold owned. intros Hown H Hst.
  assert (∀ q', (∀ g, status q' g = status (Shared s) g) →
                ∃ st', status q' f = Some st' ∧
                       (st' = st ∨ transition st st' ∨
                        (st = ON_HOLD ∧ st' = RUNNING ∧ inline_start l s f))) as Hsame.
  { intros q' Hq'. exists st. rewrite Hq'. auto. }
  destruct l as [t|t priors|t g|t g|t n|t|t|t|t|t|t|t|t]; simpl in H.
  - apply bind_Done in H as ([] & _ & H). apply bind_Done in H as ([f' q'] & E & H).
    apply lift_Done in E. inv_res. apply Push_spec in E as (Hf&Hs&_). simpl.
    exists st. rewrite Hs, decide_False; [auto|].
    intros ->. unfold status in Hst. by rewrite Hf in Hst.
  - apply bind_Done in H as ([] & _ & H). apply bind_Done in H as (pending & Ep & H).
    apply bind_Done in H as ([f' q'] & E & H).
    apply lift_Done in Ep. apply lift_Done in E. inv_res. simpl.
    destruct (PushDependent_spec _ _ _ _ _ Ep E) as [Hf Hspec].
    assert (f ≠ f') as Hne.
    { intros ->. unfold status in Hst. by rewrite Hf in Hst. }
    destruct (decide (pending = [])).
    + apply Push_spec in Hspec as (_&Hs&_). exists st. rewrite Hs, decide_False; auto.
    + destruct Hspec as (Hs&_). exists st. rewrite Hs, decide_False; auto.
  - apply bind_Done in H as ([] & _ & H). apply bind_Done in H as (a & E & H).
    apply lift_Done in E. inv_res. apply Wait_mark_spec in E as (Hh&_). simpl.
    apply Hsame. by apply status_same_heap.
  - apply bind_Done in H as ([] & _ & H). apply bind_Done in H as ([o q0] & E & H).
    apply lift_Done in E. apply TryInvoke_take_spec in E as (Hh & _).
    destruct o; inv_res; simpl; apply Hsame; by apply status_same_heap.
  - apply bind_Done in H as ([] & _ & H). apply bind_Done in H as ([] & _ & H).
    destruct (Destroying (Shared s)); [inv_res; by apply Hsame|].
    destruct (decide _); [inv_res; by apply Hsame|].
    destruct (decide _); inv_res.
    + destruct (iter_spawn (Z.to_nat (n - Z.of_nat (length (Threads (Shared s)))))
                  (with_Shared (with_NumberOfThreads n (Shared s)) s)) as (Hh&_).
      apply Hsame. by apply status_same_heap.
    + match goal with H : shrink_begin _ _ _ = Ok _ |- _ =>
        apply shrink_begin_tasks in H as (Hh&_) end.
      simpl. apply Hsame. by apply status_same_heap.
  - destruct (stack s t) as [|[| | |n| |] fs] eqn:Est; try done.
    apply bind_Done in H as ([] & _ & H). apply bind_Done in H as (q' & E & H).
    apply lift_Done in E. inv_res. apply shrink_end_tasks in E as (Hh&_).
    simpl. apply Hsame. by apply status_same_heap.
  - inv_res. simpl. by apply Hsame.
  - destruct (Workers s !! t) as [w|]; [|done].
    destruct (stack s t) as [|] eqn:Est; [|done].
    apply bind_Done in H as (o & E & H). apply lift_Done in E.
    destruct o as [| |inv q']; inv_res; simpl; [by apply Hsame|].
    apply Pop_take_taken in E as (l & _ & _ & Hh & _).
    apply Hsame. by apply status_same_heap.
  - destruct (stack s t) as [|[| | | | |] fs] eqn:Est; try done. inv_res. simpl.
    by apply Hsame.
  - destruct (stack s t) as [|[inv| | | | |] fs] eqn:Est; try done.
    apply bind_Done in H as (q' & E & H). apply lift_Done in E. inv_res. simpl.
    apply store_Status_spec in E as (_&Hs&_).
    rewrite Hs. case_decide; [subst f|exists st; by rewrite Hst; auto].
    exists RUNNING. split; [done|].
    destruct (own_frame_status _ _ t (InInvoke inv) (GetSharedState inv) (claimed_kind inv) Hown)
      as (st0 & Hst0 & Hok).
    { unfold stack in Est. rewrite Est. set_solver. }
    { set_solver. }
    assert (st0 = st) as -> by congruence.
    unfold claimed_kind in Hok. destruct (IsHighPriority inv) eqn:Ehp; simpl in Hok.
    + destruct Hok as [->| ->]; [right; left; constructor|].
      right. right. split_and!; [done..|]. by exists t, inv, fs.
    + subst. right. left. constructor.
  - destruct (stack s t) as [|[|inv| | | |] fs] eqn:Est; try done.
    apply bind_Done in H as (q' & E & H). apply lift_Done in E.
    apply bind_Done in H as (ist & Eld & H). inv_res. simpl.
    apply call_invoker_spec in E as (_&Hs&_).
    rewrite Hs. case_decide; [subst f|exists st; by rewrite Hst; auto].
    exists DONE. split; [done|].
    destruct (own_frame_status _ _ t (InPayload inv) (GetSharedState inv) KRunning Hown)
      as (st0 & Hst0 & Hok).
    { unfold stack in Est. rewrite Est. set_solver. }
    { set_solver. }
    simpl in Hok. assert (st = RUNNING) as -> by congruence.
    right. left. constructor.
  - destruct (stack s t) as [|[| |inv [|g deps] acc| | |] fs] eqn:Est; try done.
    apply bind_Done in H as ([a q'] & E & H). apply lift_Done in E.
    apply signal_dependent_spec in E as (ist & _ & Hs & _).
    destruct a; inv_res; simpl; by apply Hsame.
  - destruct (stack s t) as [|[| |inv [|g deps] acc| | |] fs] eqn:Est; try done.
    apply bind_Done in H as (q' & E & H). apply lift_Done in E. inv_res. simpl.
    apply launch_invokers_spec in E as (_ & _ & Hs & _).
    rewrite Hs. case_decide as Hin; [|exists st; by rewrite Hst; auto].
    exists ENQUEUED. split; [done|].
    apply list_elem_of_fmap in Hin as (w & -> & Hw).
    destruct (own_frame_status _ _ t (InSignal inv [] acc) (GetSharedState w) KCollected Hown)
      as (st0 & Hst0 & Hok).
    { unfold stack in Est. rewrite Est. set_solver. }
    { simpl. right. apply list_elem_of_fmap. eauto. }
    simpl in Hok. assert (st = ON_HOLD) as -> by congruence.
    right. left. constructor.
Qed.

(** ** Leaving the on-hold store *)

Lemma step_hold_removed l s s' f inv :
  step l s = Done s' →
  InvokersOnHold (Shared s) !! f = Some inv → InvokersOnHold (Shared s') !! f = None →
  ∃ t invoker deps acc fs,
    l = LSignal t ∧ stack s t = InSignal invoker (f :: deps) acc :: fs ∧
    counter (Shared s) f = Some 1%Z ∧ counter (Shared s') f = Some 0%Z ∧
    stack s' t = if IsHighPriority inv
                 then InInvoke inv :: InSignal invoker deps acc :: fs
                 else InSignal invoker deps (acc ++ [inv]) :: fs.
Proof.
  intros H Hin Hout.
  assert (∀ q', InvokersOnHold q' = InvokersOnHold (Shared s) →
                InvokersOnHold q' !! f = None → False) as Hsame.
  { intros q' -> Hq'. congruence. }
  destruct l as [t|t priors|t g|t g|t n|t|t|t|t|t|t|t|t]; simpl in H.
  - apply bind_Done in H as ([] & _ & H). apply bind_Done in H as ([f' q'] & E & H).
    apply lift_Done in E. inv_res. apply Push_spec in E as (_&_&_&_&_&Hh&_).
    exfalso. eauto.
  - apply bind_Done in H as ([] & _ & H). apply bind_Done in H as (pending & Ep & H).
    apply bind_Done in H as ([f' q'] & E & H).
    apply lift_Done in Ep. apply lift_Done in E. inv_res. simpl in Hout.
    destruct (PushDependent_spec _ _ _ _ _ Ep E) as [Hf Hspec].
    destruct (decide (pending = [])).
    + apply Push_spec in Hspec as (_&_&_&_&_&Hh&_). exfalso. eauto.
    + destruct Hspec as (_&_&_&_&Hh&_). rewrite Hh in Hout.
      apply lookup_insert_None in Hout as [Hout _]. congruence.
  - apply bind_Done in H as ([] & _ & H). apply bind_Done in H as (a & E & H).
    apply lift_Done in E. inv_res. apply Wait_mark_spec in E as (_&_&_&_&[Hh|(w&_&Hh)]).
    + exfalso. eauto.
    + simpl in Hout. rewrite Hh in Hout.
      apply lookup_insert_None in Hout as [Hout _]. congruence.
  - apply bind_Done in H as ([] & _ & H). apply bind_Done in H as ([o q0] & E & H).
    apply lift_Done in E. apply TryInvoke_take_spec in E as (_ & Hh & _).
    exfalso. destruct o; inv_res; eauto.
  - apply bind_Done in H as ([] & _ & H). apply bind_Done in H as ([] & _ & H).
    exfalso.
    destruct (Destroying (Shared s)); [inv_res; congruence|].
    destruct (decide _); [inv_res; congruence|].
    destruct (decide _); inv_res.
    + destruct (iter_spawn (Z.to_nat (n - Z.of_nat (length (Threads (Shared s)))))
                  (with_Shared (with_NumberOfThreads n (Shared s)) s)) as (_&_&Hh&_).
      eauto.
    + match goal with H : shrink_begin _ _ _ = Ok _ |- _ =>
        apply shrink_begin_tasks in H as (_&_&Hh) end.
      eauto.
  - destruct (stack s t) as [|[| | |n| |] fs] eqn:Est; try done.
    apply bind_Done in H as ([] & _ & H). apply bind_Done in H as (q' & E & H).
    apply lift_Done in E. inv_res. apply shrink_end_tasks in E as (_&_&Hh).
    exfalso. eauto.
  - inv_res. simpl in Hout. congruence.
  - destruct (Workers s !! t) as [w|]; [|done].
    destruct (stack s t) as [|] eqn:Est; [|done].
    apply bind_Done in H as (o & E & H). apply lift_Done in E.
    destruct o as [| |w' q']; inv_res; simpl in Hout; [congruence|].
    apply Pop_take_taken in E as (l & _ & _ & _ & Hh & _). exfalso. eauto.
  - destruct (stack s t) as [|[| | | | |] fs] eqn:Est; try done. inv_res.
    simpl in Hout. congruence.
  - destruct (stack s t) as [|[w| | | | |] fs] eqn:Est; try done.
    apply bind_Done in H as (q' & E & H). apply lift_Done in E. inv_res.
    apply store_Status_spec in E as (_&_&_&_&_&Hh&_). exfalso. eauto.
  - destruct (stack s t) as [|[|w| | | |] fs] eqn:Est; try done.
    apply bind_Done in H as (q' & E & H). apply lift_Done in E.
    apply bind_Done in H as (ist & Eld & H). inv_res.
    apply call_invoker_spec in E as (_&_&_&_&_&Hh&_). exfalso. eauto.
  - destruct (stack s t) as [|[| |w [|g deps] acc| | |] fs] eqn:Est; try done.
    apply bind_Done in H as ([a q'] & E & H). apply lift_Done in E.
    apply signal_dependent_spec in E as (st & Hst & _ & Hc & _ & _ & _ & _ & Ha).
    assert (∀ w', NumberOfPriorSharedFuturesRemaining st = 1%Z →
                  InvokersOnHold (Shared s) !! g = Some w' →
                  InvokersOnHold q' = delete g (InvokersOnHold (Shared s)) →
                  f = g ∧ inv = w' ∧ counter (Shared s) f = Some 1%Z ∧
                  counter q' f = Some 0%Z) as Htake.
    { intros w' Hn Hw' Hd. destruct (decide (f = g)) as [->|Hne].
      - split_and!; [done|congruence|..].
        + unfold counter. by rewrite Hst, <- Hn.
        + rewrite Hc, decide_True by done. by rewrite Hn.
      - exfalso. destruct a; inv_res; simpl in Hout;
          rewrite Hd, lookup_delete_ne in Hout by done; congruence. }
    destruct a as [|w'|w']; inv_res; simpl in Hout.
    + destruct Ha as [Hh _]. exfalso. eauto.
    + destruct Ha as (_ & Hn & Hw' & Hd & Hhp).
      destruct (Htake w' Hn Hw' Hd) as (-> & -> & ? & ?).
      exists t, w, deps, acc, fs. rewrite Hhp. split_and!; try done.
      unfold stack. simpl. by rewrite lookup_insert_eq.
    + destruct Ha as (_ & Hn & Hw' & Hd & Hhp).
      destruct (Htake w' Hn Hw' Hd) as (-> & -> & ? & ?).
      exists t, w, deps, acc, fs. rewrite Hhp. split_and!; try done.
      unfold stack. simpl. by rewrite lookup_insert_eq.
  - destruct (stack s t) as [|[| |w [|g deps] acc| | |] fs] eqn:Est; try done.
    apply bind_Done in H as (q' & E & H). apply lift_Done in E. inv_res.
    apply launch_invokers_spec in E as (_ & Hh & _). exfalso. eauto.
Qed.

(** ** The priors a task was submitted with *)

Lemma step_priors l s s' f :
  step l s = Done s' → is_Some (status (Shared s) f) → Priors s' f = Priors s f.
Proof.
  intros H Hf.
  destruct l as [t|t priors|t g|t g|t n|t|t|t|t|t|t|t|t]; simpl in H.
  - apply bind_Done in H as ([] & _ & H). apply bind_Done in H as ([f' q'] & E & H).
    apply lift_Done in E. inv_res. apply Push_spec in E as (Hfr&_). simpl.
    rewrite fn_lookup_insert_ne; [done|]. intros ->.
    unfold status in Hf. rewrite Hfr in Hf. by destruct Hf.
  - apply bind_Done in H as ([] & _ & H). apply bind_Done in H as (pending & Ep & H).
    apply bind_Done in H as ([f' q'] & E & H).
    apply lift_Done in Ep. apply lift_Done in E. inv_res. simpl.
    destruct (PushDependent_spec _ _ _ _ _ Ep E) as [Hfr _].
    rewrite fn_lookup_insert_ne; [done|]. intros ->.
    unfold status in Hf. rewrite Hfr in Hf. by destruct Hf.
  - apply bind_Done in H as ([] & _ & H). apply bind_Done in H as (a & E & H). by inv_res.
  - apply bind_Done in H as ([] & _ & H). apply bind_Done in H as ([o q0] & E & H).
    destruct o; by inv_res.
  - apply bind_Done in H as ([] & _ & H). apply bind_Done in H as ([] & _ & H).
    destruct (Destroying (Shared s)); [by inv_res|].
    destruct (decide _); [by inv_res|].
    destruct (decide _); inv_res; [|done].
    destruct (iter_spawn (Z.to_nat (n - Z.of_nat (length (Threads (Shared s)))))
                (with_Shared (with_NumberOfThreads n (Shared s)) s)) as (_&_&_&_&HP&_).
    by rewrite HP.
  - destruct (stack s t) as [|[| | |n| |] fs] eqn:Est; try done.
    apply bind_Done in H as ([] & _ & H). apply bind_Done in H as (q' & E & H). by inv_res.
  - by inv_res.
  - destruct (Workers s !! t) as [w|]; [|done].
    destruct (stack s t) as [|] eqn:Est; [|done].
    apply bind_Done in H as (o & E & H). destruct o; by inv_res.
  - destruct (stack s t) as [|[| | | | |] fs] eqn:Est; try done. by inv_res.
  - destruct (stack s t) as [|[w| | | | |] fs] eqn:Est; try done.
    apply bind_Done in H as (q' & E & H). by inv_res.
  - destruct (stack s t) as [|[|w| | | |] fs] eqn:Est; try done.
    apply bind_Done in H as (q' & E & H).
    apply bind_Done in H as (ist & Eld & H). by inv_res.
  - destruct (stack s t) as [|[| |w [|g deps] acc| | |] fs] eqn:Est; try done.
    apply bind_Done in H as ([a q'] & E & H). destruct a; by inv_res.
  - destruct (stack s t) as [|[| |w [|g deps] acc| | |] fs] eqn:Est; try done.
    apply bind_Done in H as (q' & E & H). by inv_res.
Qed.

Lemma step_LPushDependent_priors t priors s s' :
  step (LPushDependent t priors) s = Done s' →
  ∃ f, status (Shared s) f = None ∧ is_Some (status (Shared s') f) ∧ Priors s' f = priors.
Proof.
  intros H. simpl in H.
  apply bind_Done in H as ([] & _ & H). apply bind_Done in H as (pending & Ep & H).
  apply bind_Done in H as ([f' q'] & E & H).
  apply lift_Done in Ep. apply lift_Done in E. inv_res. simpl.
  destruct (PushDependent_spec _ _ _ _ _ Ep E) as [Hfr Hspec].
  exists f'. split_and!.
  - unfold status. by rewrite Hfr.
  - destruct (decide (pending = [])).
    + apply Push_spec in Hspec as (_&Hs&_). rewrite Hs, decide_True by done. eauto.
    + destruct Hspec as (Hs&_). rewrite Hs, decide_True by done. eauto.
  - by rewrite fn_lookup_insert.
Qed.

Lemma step_LPop_claims t s s' :
  step (LPop t) s = Done s' →
  (Shared s' = Shared s ∧ stack s' t = [AfterLoop]) ∨
  ∃ inv l, InvokerQueue (Shared s) = Some inv :: l ∧ stack s' t = [InInvoke inv] ∧
           InvokerQueue (Shared s') = strip_nullptr l ∧
           InvokersOnHold (Shared s') = InvokersOnHold (Shared s).
Proof.
  intros H. simpl in H.
  destruct (Workers s !! t) as [w|]; [|done].
  destruct (stack s t) as [|] eqn:Est; [|done].
  apply bind_Done in H as (o & E & H). apply lift_Done in E.
  destruct o as [| |inv q']; inv_res; simpl.
  - left. split; [done|]. unfold stack. simpl. by rewrite lookup_insert_eq.
  - apply Pop_take_taken in E as (l & Hq & Hq' & _ & Hh & _).
    right. exists inv, l. split_and!; try done.
    unfold stack. simpl. by rewrite lookup_insert_eq.
Qed.

(** ** Concrete executions are reachable *)

Lemma state_after_reachable ls : reachable (state_after ls).
Proof.
  unfold state_after. destruct (run ls initial) as [s| |] eqn:E; try constructor.
  eapply run_reachable; [constructor|done].
Qed.

(** ** The reinsertion loop cannot fail *)

Lemma store_InvokerIndex_total f i q :
  is_Some (Heap q !! f) → ∃ q', store_InvokerIndex f i q = Ok q'.
Proof. intros [st Hst]. unfold store_InvokerIndex, load. rewrite Hst. simpl. eauto. Qed.

Lemma store_Status_total f st q :
  is_Some (Heap q !! f) → ∃ q', store_Status f st q = Ok q'.
Proof. intros [x Hx]. unfold store_Status, load. rewrite Hx. simpl. eauto. Qed.

Lemma status_is_Some q f : is_Some (status q f) ↔ is_Some (Heap q !! f).
Proof. unfold status. by rewrite fmap_is_Some. Qed.

Lemma launch_loop_total l index q :
  NoDup (GetSharedState <$> l) →
  (∀ w, w ∈ l → status q (GetSharedState w) = Some ON_HOLD) →
  ∃ q', launch_loop l index q = Ok q'.
Proof.
  revert index q. induction l as [|inv l IH]; intros index q Hnd Hst; simpl; [eauto|].
  rewrite fmap_cons in Hnd. apply NoDup_cons in Hnd as [Hnin Hnd].
  pose proof (Hst inv (list_elem_of_here _ _)) as Hinv.
  unfold load. unfold status in Hinv.
  destruct (Heap q !! GetSharedState inv) as [st|] eqn:Est; [|done].
  simpl in Hinv. injection Hinv as Hon. simpl. rewrite decide_True by done.
  destruct (store_InvokerIndex_total (GetSharedState inv)
              (to_vtkIdType (to_size_t (index - 1))) q) as [q1 E1]; [eauto|].
  rewrite E1. simpl.
  apply store_InvokerIndex_spec in E1 as (_ & Hs1 & _).
  destruct (store_Status_total (GetSharedState inv) ENQUEUED q1) as [q2 E2].
  { apply status_is_Some. rewrite Hs1. apply status_is_Some. eauto. }
  rewrite E2. simpl.
  apply store_Status_spec in E2 as (_ & Hs2 & _).
  apply IH; [done|]. intros w Hw.
  change (status q2 (GetSharedState w) = Some ON_HOLD).
  rewrite Hs2, decide_False, Hs1.
  - apply Hst. by apply list_elem_of_further.
  - intros Heq. apply Hnin. rewrite <- Heq. by apply list_elem_of_fmap_2.
Qed.

Lemma launch_invokers_total l q m :
  ownership q m →
  NoDup (GetSharedState <$> l) →
  (∀ w, w ∈ l → status q (GetSharedState w) = Some ON_HOLD) →
  ∃ q', launch_invokers l q = Ok q'.
Proof.
  intros Hown Hnd Hst. unfold launch_invokers.
  destruct l as [|inv l]; [simpl; eauto|].
  assert (∃ index, match InvokerQueue q with
                   | [] => mret (Z.of_nat (length (inv :: l)))
                   | _ => i ← front_InvokerIndex q; mret (to_size_t i)
                   end = Ok index) as [index Hindex].
  { destruct (InvokerQueue q) as [|slot rest] eqn:Eq; [simpl; eauto|].
    unfold front_InvokerIndex. rewrite Eq. simpl.
    destruct slot as [finv|].
    2:{ exfalso. pose proof (own_front _ _ Hown) as Hf. rewrite Eq in Hf. by apply Hf. }
    simpl. assert (status q (GetSharedState finv) = Some ENQUEUED) as Hfs.
    { eapply own_queue_status; [done|]. rewrite Eq. by left. }
    unfold load. unfold status in Hfs.
    destruct (Heap q !! GetSharedState finv); [simpl; eauto|done]. }
  rewrite Hindex. simpl.
  destruct (launch_loop_total (inv :: l) index q Hnd Hst) as [q' Hq'].
  simpl in Hq'. rewrite Hq'. simpl. eauto.
Qed.

(** * The claims about executions *)

(** C1: a task never leaves ON_HOLD before all the priors it was submitted
    with are DONE (and DONE is final); an invoker leaves the on-hold store
    only in the signaling loop, when its counter goes from 1 to 0, and then
    sits on the stack of the signaling thread; a worker claims nothing but
    the front of the ready queue; [Priors] records the priors of a
    submission and never changes for an allocated state. *)
Theorem dependency_ordering s :
  reachable s →
  (∀ f p st, p ∈ Priors s f → status (Shared s) f = Some st → st ≠ ON_HOLD →
             status (Shared s) p = Some DONE) ∧
  (∀ l s' p, step l s = Done s' → status (Shared s) p = Some DONE →
             status (Shared s') p = Some DONE) ∧
  (∀ l s' f inv, step l s = Done s' →
     InvokersOnHold (Shared s) !! f = Some inv → InvokersOnHold (Shared s') !! f = None →
     ∃ t invoker deps acc fs,
       l = LSignal t ∧ stack s t = InSignal invoker (f :: deps) acc :: fs ∧
       counter (Shared s) f = Some 1%Z ∧ counter (Shared s') f = Some 0%Z ∧
       stack s' t = if IsHighPriority inv
                    then InInvoke inv :: InSignal invoker deps acc :: fs
                    else InSignal invoker deps (acc ++ [inv]) :: fs) ∧
  (∀ t s', step (LPop t) s = Done s' →
     (Shared s' = Shared s ∧ stack s' t = [AfterLoop]) ∨
     ∃ inv l, InvokerQueue (Shared s) = Some inv :: l ∧ stack s' t = [InInvoke inv] ∧
              InvokerQueue (Shared s') = strip_nullptr l ∧
              InvokersOnHold (Shared s') = InvokersOnHold (Shared s)) ∧
  (∀ t priors s', step (LPushDependent t priors) s = Done s' →
     ∃ f, status (Shared s) f = None ∧ is_Some (status (Shared s') f) ∧
          Priors s' f = priors) ∧
  (∀ l s' f, step l s = Done s' → is_Some (status (Shared s) f) →
             Priors s' f = Priors s f).
Proof.
  intros Hr. split_and!.
  - intros f p st Hp Hst Hne.
    destruct (dep_released _ (reachable_deps _ Hr) f) as [[inv Hinv]|Hall]; [|by apply Hall].
    pose proof (own_hold_status _ _ _ _ (reachable_owned _ Hr) Hinv). congruence.
  - intros l s' p H Hp.
    destruct (step_status _ _ _ _ _ (reachable_owned _ Hr) H Hp)
      as (st' & Hst' & [->|[Ht|(?&_)]]); [done|inversion Ht|done].
  - intros l s' f inv. apply step_hold_removed.
  - intros t s'. apply step_LPop_claims.
  - intros t priors s'. apply step_LPushDependent_priors.
  - intros l s' f. apply step_priors.
Qed.

(** C2, amended: a step leaves a status alone or moves it one place forward
    along ON_HOLD, ENQUEUED, RUNNING, DONE, except that the invocation of a
    high-priority invoker by the signaling loop takes it from ON_HOLD to
    RUNNING. *)
Theorem status_moves_forward l s s' f st :
  reachable s → step l s = Done s' → status (Shared s) f = Some st →
  ∃ st', status (Shared s') f = Some st' ∧
         (st' = st ∨ transition st st' ∨
          (st = ON_HOLD ∧ st' = RUNNING ∧ inline_start l s f)).
Proof. intros Hr. apply step_status. by apply reachable_owned. Qed.


(** C9: in every reachable state, the invokers a thread has collected in
    [invokersToLaunch] are distinct and all ON_HOLD, so that the reinsertion
    runs to its end: the assertion holds for each of them. *)
Theorem collected_invokers_are_ON_HOLD s t invoker dependents invokersToLaunch :
  reachable s → InSignal invoker dependents invokersToLaunch ∈ stack s t →
  (∀ inv, inv ∈ invokersToLaunch →
          status (Shared s) (GetSharedState inv) = Some ON_HOLD) ∧
  NoDup (GetSharedState <$> invokersToLaunch) ∧
  ∃ q', launch_invokers invokersToLaunch (Shared s) = Ok q'.
Proof.
  intros Hr Hin. pose proof (reachable_owned _ Hr) as Hown.
  assert (∀ inv, inv ∈ invokersToLaunch →
                 status (Shared s) (GetSharedState inv) = Some ON_HOLD) as Hst.
  { intros inv Hinv.
    destruct (own_frame_status _ _ t _ (GetSharedState inv) KCollected Hown Hin)
      as (st & Hst & Hok).
    - simpl. right. apply list_elem_of_fmap. eauto.
    - simpl in Hok. congruence. }
  assert (NoDup (GetSharedState <$> invokersToLaunch)) as Hnd.
  { pose proof (own_frame_nodup _ _ t _ Hown Hin) as Hnd. simpl in Hnd.
    apply NoDup_cons in Hnd as [_ Hnd]. by rewrite <- list_fmap_compose in Hnd. }
  split_and!; [done..|]. by eapply launch_invokers_total.
Qed.

(** * Instances of the theorems *)

Lemma dependency_ordering_witness :
  reachable (state_after chain_schedule) ∧
  status (Shared (state_after chain_schedule)) 1 = Some RUNNING ∧
  status (Shared (state_after chain_schedule)) 0 = Some DONE.
Proof.
  split; [apply state_after_reachable|]. split; [by vm_compute|].
  apply (proj1 (dependency_ordering (state_after chain_schedule)
                  (state_after_reachable chain_schedule)) 1 0 RUNNING).
  - vm_compute. apply list_elem_of_here.
  - by vm_compute.
  - discriminate.
Defined.

(** The claim of C2 fails as stated: the invocation of a high-priority
    invoker takes task 1 from ON_HOLD to RUNNING in one step. *)
Lemma ON_HOLD_to_RUNNING_in_one_step :
  reachable (state_after wait_schedule) ∧
  status (Shared (state_after wait_schedule)) 1 = Some ON_HOLD ∧
  step (LInvoke 101) (state_after wait_schedule)
  = Done (state_after (wait_schedule ++ [LInvoke 101])) ∧
  status (Shared (state_after (wait_schedule ++ [LInvoke 101]))) 1 = Some RUNNING.
Proof.
  split; [apply state_after_reachable|]. split_and!; by vm_compute.
Qed.

Lemma status_moves_forward_witness :
  ∃ st', status (Shared (state_after (wait_schedule ++ [LInvoke 101]))) 1 = Some st' ∧
         (st' = ON_HOLD ∨ transition ON_HOLD st' ∨
          (ON_HOLD = ON_HOLD ∧ st' = RUNNING ∧
           inline_start (LInvoke 101) (state_after wait_schedule) 1)).
Proof.
  apply (status_moves_forward (LInvoke 101) (state_after wait_schedule)).
  - apply state_after_reachable.
  - by vm_compute.
  - by vm_compute.
Defined.



Lemma high_priority_dependent_runs_inline_witness :
  ∃ q1, signal_dependent 1 (Shared (state_after (take 7 wait_schedule)))
        = Ok (InvokeNow (mkInvoker 1 true), q1) ∧
        InvokerQueue q1 = InvokerQueue (Shared (state_after (take 7 wait_schedule))).
Proof.
  destruct (high_priority_dependent_runs_inline 0 101 1 [] []
              (Shared (state_after (take 7 wait_schedule)))
              (mkSharedState ON_HOLD 1 [] 0) (mkInvoker 1 true))
    as (q1 & q2 & Hsig & _ & Hq & _).
  - by vm_compute.
  - reflexivity.
  - reflexivity.
  - by vm_compute.
  - reflexivity.
  - intros g inv. apply (own_key _ _ (reachable_owned _ (state_after_reachable _))).
  - apply not_elem_of_nil.
  - by exists q1.
Defined.

Lemma TryInvoke_take_slot_witness :
  ∃ q', TryInvoke_take 1 (Shared (state_after three_pushes))
        = Ok (Some (mkInvoker 1 false), q') ∧
        InvokerQueue q' = [Some (mkInvoker 0 false); None; Some (mkInvoker 2 false)].
Proof.
  destruct (TryInvoke_take_slot 1 (Shared (state_after three_pushes))
              (mkSharedState ENQUEUED 0 [] 1) (mkInvoker 0 false)
              [Some (mkInvoker 1 false); Some (mkInvoker 2 false)]
              (mkSharedState ENQUEUED 0 [] 0) 1)
    as (slot & q' & Hrun & Hslot & Hne & _).
  - by vm_compute.
  - reflexivity.
  - by vm_compute.
  - by vm_compute.
  - reflexivity.
  - by vm_compute.
  - by vm_compute.
  - exists q'. split.
    + rewrite Hrun. f_equal. f_equal. vm_compute in Hslot. congruence.
    + rewrite Hne by discriminate. by vm_compute.
Defined.

(** The claim of C6 fails as stated for a target of zero threads: worker 3
    swaps with worker 0 and then joins itself. *)
Lemma shrink_to_zero_joins_the_caller :
  (cell ← map_at (ThreadIdToIndex pool_of_four !! 3); deref (Atomics pool_of_four !! cell))
  = Ok 3%Z ∧
  SetNumberOfThreads 3 0 pool_of_four = Err ResourceDeadlock.
Proof. split; by vm_compute. Qed.

Lemma shrink_from_excess_worker_witness :
  ∃ q', SetNumberOfThreads 3 1 pool_of_four = Ok q' ∧ Threads q' = [3] ∧
        (EvJoin 3 ∉ Trace q') ∧ EvJoin 0 ∈ Trace q'.
Proof.
  destruct (shrink_from_excess_worker 3 1 pool_of_four 3 0 3 0 0)
    as (q' & swapped & Hrun & -> & _ & _ & _ & _ & _ & HT & _ & _ & Htr & Hself & Hjoin).
  - reflexivity.
  - by vm_compute.
  - by vm_compute.
  - by vm_compute.
  - by vm_compute.
  - by vm_compute.
  - by vm_compute.
  - by vm_compute.
  - by vm_compute.
  - vm_compute. repeat constructor; set_solver.
  - exists q'. split_and!; [done|by rewrite HT| |].
    + rewrite Htr. vm_compute. set_solver.
    + apply (Hjoin 3 0); by vm_compute.
Defined.


Lemma SetNumberOfThreads_destroying_witness :
  SetNumberOfThreads 100 2 destroyed_pool = Ok destroyed_pool.
Proof. apply SetNumberOfThreads_destroying. by vm_compute. Defined.

Lemma collected_invokers_are_ON_HOLD_witness :
  status (Shared (state_after (take 10 race_schedule))) 1 = Some ON_HOLD.
Proof.
  apply (proj1 (collected_invokers_are_ON_HOLD (state_after (take 10 race_schedule)) 101
                  (mkInvoker 0 false) [] [mkInvoker 1 false]
                  (state_after_reachable _) ltac:(vm_compute; apply list_elem_of_here))
           (mkInvoker 1 false)).
  apply list_elem_of_here.
Defined.

(** * The race between [Pop] and [TryInvoke] *)

(** C10: after [race_schedule] worker 0 holds the invoker of task 2, whose
    status is still ENQUEUED.  [TryInvoke] on task 2 then takes the front of
    the queue, runs task 1 and returns true, while task 2 has not run; one
    step earlier in the schedule the same call indexes the queue at -1. *)
Theorem TryInvoke_runs_another_invoker :
  reachable (state_after race_schedule) ∧
  stack (state_after race_schedule) 0 = [InInvoke (mkInvoker 2 false)] ∧
  status (Shared (state_after race_schedule)) 2 = Some ENQUEUED ∧
  (∃ q', TryInvoke 2 102 2 (Shared (state_after race_schedule)) = Ok (true, q') ∧
         Trace q' = Trace (Shared (state_after race_schedule)) ++ [EvRun 102 1] ∧
         status q' 2 = Some ENQUEUED) ∧
  reachable (state_after (take 8 race_schedule)) ∧
  InvokerQueue (Shared (state_after (take 8 race_schedule))) = [Some (mkInvoker 3 false)] ∧
  status (Shared (state_after (take 8 race_schedule))) 2 = Some ENQUEUED ∧
  TryInvoke 2 102 2 (Shared (state_after (take 8 race_schedule))) = Err UndefinedBehaviour.
Proof.
  split_and!; try apply state_after_reachable; try by vm_compute.
  eexists. split_and!; by vm_compute.
Qed.

(** * Part 5: further properties of the code *)

(** ** PopFrontNullptr *)

(** X1: [PopFrontNullptr] removes exactly the leading null entries: the
    queue it leaves is the old one without a prefix of nulls, it is empty or
    starts with an invoker, the invokers and their order are unchanged, a
    second call changes nothing and nothing else of the object is touched. *)
Theorem PopFrontNullptr_removes_leading_nulls q :
  (∃ n, InvokerQueue q = replicate n None ++ InvokerQueue (PopFrontNullptr q)) ∧
  (InvokerQueue (PopFrontNullptr q) = [] ∨
   ∃ inv l, InvokerQueue (PopFrontNullptr q) = Some inv :: l) ∧
  omap id (InvokerQueue (PopFrontNullptr q)) = omap id (InvokerQueue q) ∧
  PopFrontNullptr (PopFrontNullptr q) = PopFrontNullptr q ∧
  Heap (PopFrontNullptr q) = Heap q ∧ InvokersOnHold (PopFrontNullptr q) = InvokersOnHold q ∧
  Trace (PopFrontNullptr q) = Trace q ∧ same_pool q (PopFrontNullptr q).
Proof.
  unfold PopFrontNullptr. simpl. split_and!; try done.
  - induction (InvokerQueue q) as [|[i|] l [n IH]]; simpl.
    + by exists 0.
    + by exists 0.
    + exists (S n). simpl. by rewrite <- IH.
  - apply strip_nullptr_front.
  - induction (InvokerQueue q) as [|[i|] l IH]; simpl; done.
  - unfold with_InvokerQueue. simpl. f_equal.
    destruct (strip_nullptr_front (InvokerQueue q)) as [->|(inv & l & ->)]; done.
Qed.

(** ** ThreadWorker::Pop *)

(** X2: what [Pop] does under the queue mutex, for a worker whose index is
    [i].  It sleeps exactly when it is in service and the queue is empty and
    not being destroyed; it returns false exactly when it is out of service,
    or the queue is empty and being destroyed; it takes the front, and strips
    the nulls behind it, exactly when it is in service and the front is an
    invoker; a null front would be dereferenced. *)
Theorem Pop_take_cases w q i :
  Atomics q !! ThreadIndex w = Some i →
  (Pop_take w q = Ok PopBlocked ↔
     (i < NumberOfThreads q)%Z ∧ Destroying q = false ∧ InvokerQueue q = []) ∧
  (Pop_take w q = Ok PopFalse ↔
     (NumberOfThreads q ≤ i)%Z ∨ (Destroying q = true ∧ InvokerQueue q = [])) ∧
  (∀ invoker q', Pop_take w q = Ok (PopTaken invoker q') ↔
     (i < NumberOfThreads q)%Z ∧
     ∃ l, InvokerQueue q = Some invoker :: l ∧
          q' = PopFrontNullptr (with_InvokerQueue l q)) ∧
  (Pop_take w q = Err UndefinedBehaviour ↔
     (i < NumberOfThreads q)%Z ∧ ∃ l, InvokerQueue q = None :: l).
Proof.
  intros Hi. unfold Pop_take, OnHold, Continue. rewrite Hi. simpl.
  destruct (decide (i < NumberOfThreads q)%Z) as [Hlt|Hge].
  - rewrite (bool_decide_eq_true_2 _ Hlt). simpl.
    destruct (InvokerQueue q) as [|[inv|] l] eqn:Eq; simpl.
    + destruct (Destroying q) eqn:Ed; simpl; split_and!; split;
        try done; try naive_solver lia.
    + rewrite andb_false_r. simpl. split_and!; try (split; [done|naive_solver lia]).
      intros invoker q'. split.
      * intros H. apply mret_Ok in H. injection H as <- <-. split; [done|]. by exists l.
      * intros (_ & l' & [= -> ->] & ->). done.
    + rewrite andb_false_r. simpl. split_and!; try (split; [done|naive_solver lia]).
      split; [|done]. intros _. split; [done|by exists l].
  - rewrite (bool_decide_eq_false_2 _ Hge). simpl.
    split_and!; try (split; [done|naive_solver lia]).
    split; [intros _; left; lia|done].
Qed.

(** ** Invoking an invoker nothing depends on *)

Lemma Invoke_leaf fuel t inv q :
  dependents q (GetSharedState inv) = Some [] →
  ∃ q', Invoke (S fuel) t inv q = Ok q' ∧
    (∀ g, status q' g = if decide (g = GetSharedState inv) then Some DONE else status q g) ∧
    (∀ g, counter q' g = counter q g) ∧ (∀ g, dependents q' g = dependents q g) ∧
    InvokerQueue q' = InvokerQueue q ∧ InvokersOnHold q' = InvokersOnHold q ∧
    Trace q' = Trace q ++ [EvRun t (GetSharedState inv)] ∧ same_pool q q'.
Proof.
  intros Hdep.
  assert (is_Some (Heap q !! GetSharedState inv)) as Hst.
  { unfold dependents in Hdep. destruct (Heap q !! GetSharedState inv); [eauto|done]. }
  destruct (store_Status_total _ RUNNING _ Hst) as [q1 E1].
  pose proof E1 as E1'.
  apply store_Status_spec in E1' as (_ & Hs1 & Hc1 & Hd1 & Hq1 & Hh1 & Ht1 & Hp1).
  assert (∃ q2, call_invoker t inv q1 = Ok q2) as [q2 E2].
  { unfold call_invoker.
    destruct (store_Status_total (GetSharedState inv) DONE q1) as [x Hx].
    - apply status_is_Some. rewrite Hs1, decide_True by done. eauto.
    - rewrite Hx. simpl. eauto. }
  pose proof E2 as E2'.
  apply call_invoker_spec in E2' as (_ & Hs2 & Hc2 & Hd2 & Hq2 & Hh2 & Ht2 & Hp2).
  assert (SignalDependentSharedFutures_with (Invoke fuel t) inv q2 = Ok (emit [] q2)) as E3.
  { unfold SignalDependentSharedFutures_with, load.
    specialize (Hd2 (GetSharedState inv)). rewrite Hd1, Hdep in Hd2.
    unfold dependents in Hd2.
    destruct (Heap q2 !! GetSharedState inv) as [st|]; [|done].
    simpl in *. injection Hd2 as ->. done. }
  exists (emit [] q2). split.
  - simpl. rewrite E1. simpl. rewrite E2. simpl. exact E3.
  - split_and!.
    + intros g. change (status q2 g = if decide (g = GetSharedState inv) then Some DONE
                                       else status q g).
      rewrite Hs2, Hs1. by destruct (decide _).
    + intros g. change (counter q2 g = counter q g). by rewrite Hc2, Hc1.
    + intros g. change (dependents q2 g = dependents q g). by rewrite Hd2, Hd1.
    + simpl. by rewrite Hq2, Hq1.
    + simpl. by rewrite Hh2, Hh1.
    + simpl. by rewrite app_nil_r, Ht2, Ht1.
    + eapply same_pool_trans; [exact Hp1|]. destruct Hp2 as (?&?&?&?&?&?). by repeat split.
Qed.

(** ** ThreadWorker::operator() *)

Lemma omap_id_strip (l : list (option InvokerBase)) :
  omap id (strip_nullptr l) = omap id l.
Proof. induction l as [|[x|] l IH]; simpl; done. Qed.

Lemma elem_of_strip (l : list (option InvokerBase)) x : x ∈ strip_nullptr l → x ∈ l.
Proof. induction l as [|[y|] l IH]; simpl; set_solver. Qed.

Lemma ThreadWorker_run_taken n fuel t w q inv q1 q2 :
  Pop_take w q = Ok (PopTaken inv q1) → Invoke fuel t inv q1 = Ok q2 →
  ThreadWorker_run (S n) fuel t w q = ThreadWorker_run n fuel t w q2.
Proof. intros H1 H2. simpl. unfold Pop. rewrite H1. simpl. by rewrite H2. Qed.

(** X3: a worker in service runs the invokers of the queue in their order
    when nothing depends on them: the trace gains their runs front to back,
    their states are DONE and the queue is empty.  The worker then sleeps;
    when the queue is being destroyed it has still run the queued invokers,
    and it leaves its loop and erases its entry. *)
Theorem ThreadWorker_drains_in_order n fuel t w q i :
  Atomics q !! ThreadIndex w = Some i → (i < NumberOfThreads q)%Z →
  front_ok (InvokerQueue q) →
  (∀ inv, Some inv ∈ InvokerQueue q → dependents q (GetSharedState inv) = Some []) →
  length (omap id (InvokerQueue q)) < n →
  ∃ q', ThreadWorker_run n (S fuel) t w q
        = Ok (if Destroying q then (WorkerExited, deregister t q') else (WorkerAsleep, q')) ∧
    InvokerQueue q' = [] ∧
    Trace q' = Trace q ++ ((λ inv, EvRun t (GetSharedState inv)) <$> omap id (InvokerQueue q)) ∧
    (∀ g, status q g = Some DONE ∨ (∃ inv, Some inv ∈ InvokerQueue q ∧ GetSharedState inv = g) →
          status q' g = Some DONE) ∧
    InvokersOnHold q' = InvokersOnHold q ∧ same_pool q q'.
Proof.
  revert q. induction n as [|n IH]; intros q Hi Hlt Hfront Hdeps Hlen; [lia|].
  destruct (InvokerQueue q) as [|[inv|] l] eqn:Eq; rewrite ?Eq in Hfront, Hdeps, Hlen.
  - exists q. split_and!.
    + simpl. unfold Pop, Pop_take, OnHold, Continue. rewrite Hi. simpl.
      rewrite (bool_decide_eq_true_2 _ Hlt), Eq. simpl.
      by destruct (Destroying q).
    + done.
    + simpl. by rewrite app_nil_r.
    + intros g [Hg|(inv & Hin & _)]; [done|]. by apply elem_of_nil in Hin.
    + done.
    + apply same_pool_refl.
  - set (q1 := PopFrontNullptr (with_InvokerQueue l q)).
    assert (Pop_take w q = Ok (PopTaken inv q1)) as Hpop.
    { unfold Pop_take, OnHold, Continue. rewrite Hi. simpl.
      rewrite (bool_decide_eq_true_2 _ Hlt), Eq. simpl.
      by rewrite andb_false_r. }
    destruct (Invoke_leaf fuel t inv q1) as (q2 & HInv & Hs2 & Hc2 & Hd2 & Hq2 & Hh2 & Ht2 & Hp2).
    { change (dependents q (GetSharedState inv) = Some []). apply Hdeps. by left. }
    destruct (IH q2) as (q' & Hrun & Hq' & Ht' & Hs' & Hh' & Hp').
    + destruct Hp2 as (_&_&_&_&HA&_). by rewrite HA.
    + destruct Hp2 as (HN&_). by rewrite HN.
    + rewrite Hq2. unfold q1. simpl. apply front_ok_strip.
    + intros w' Hw'. rewrite Hd2. change (dependents q (GetSharedState w') = Some []).
      apply Hdeps. right. rewrite Hq2 in Hw'. unfold q1 in Hw'. simpl in Hw'.
      by apply elem_of_strip.
    + rewrite Hq2. unfold q1. simpl. rewrite omap_id_strip.
      change (S (length (omap id l)) < S n) in Hlen. lia.
    + exists q'. split_and!.
      * rewrite (ThreadWorker_run_taken _ _ _ _ _ _ _ _ Hpop HInv).
        destruct Hp2 as (_&HD&_). simpl in HD. rewrite HD in Hrun. exact Hrun.
      * done.
      * rewrite Ht', Ht2, Hq2. unfold q1. simpl. rewrite omap_id_strip.
        by rewrite <- app_assoc.
      * intros g Hg. apply Hs'. rewrite Hs2.
        destruct (decide (g = GetSharedState inv)) as [->|Hne]; [by left|].
        destruct Hg as [Hg|(w' & Hin & Hw')]; [by left|].
        apply elem_of_cons in Hin as [[= ->]|Hin]; [done|].
        right. exists w'. split; [|done]. rewrite Hq2. unfold q1. simpl.
        clear -Hin. induction l as [|[y|] l IHl]; simpl; [done..|].
        apply IHl. set_solver.
      * by rewrite Hh', Hh2.
      * eapply same_pool_trans; [|exact Hp']. exact Hp2.
  - exfalso. by apply Hfront.
Qed.

(** ** Growing the pool *)

Lemma iter_spawn_worker n q :
  (∀ t, is_Some (ThreadIdToIndex q !! t) → t < NextThreadId q) →
  Threads (Nat.iter n spawn_worker q) = Threads q ++ seq (NextThreadId q) n ∧
  NextThreadId (Nat.iter n spawn_worker q) = NextThreadId q + n ∧
  Trace (Nat.iter n spawn_worker q) = Trace q ++ (EvSpawn <$> seq (NextThreadId q) n) ∧
  (∀ t, is_Some (ThreadIdToIndex (Nat.iter n spawn_worker q) !! t) →
        t < NextThreadId q + n) ∧
  (∀ t, t < NextThreadId q →
        ThreadIdToIndex (Nat.iter n spawn_worker q) !! t = ThreadIdToIndex q !! t) ∧
  (∀ c, is_Some (Atomics q !! c) → Atomics (Nat.iter n spawn_worker q) !! c = Atomics q !! c) ∧
  (∀ j, j < n →
        ∃ cell, ThreadIdToIndex (Nat.iter n spawn_worker q) !! (NextThreadId q + j) = Some cell ∧
                Atomics (Nat.iter n spawn_worker q) !! cell
                = Some (Z.of_nat (length (Threads q) + j)) ∧
                Atomics q !! cell = None) ∧
  Heap (Nat.iter n spawn_worker q) = Heap q ∧
  InvokerQueue (Nat.iter n spawn_worker q) = InvokerQueue q ∧
  InvokersOnHold (Nat.iter n spawn_worker q) = InvokersOnHold q ∧
  NumberOfThreads (Nat.iter n spawn_worker q) = NumberOfThreads q ∧
  Destroying (Nat.iter n spawn_worker q) = Destroying q.
Proof.
  intros Hids. induction n as [|n IH].
  - simpl. rewrite !app_nil_r, Nat.add_0_r. split_and!; try done. intros j Hj. lia.
  - destruct IH as (HT & HX & Htr & Hreg & Hold & Hat & Hnew & HH & HQ & HO & HN & HD).
    rewrite Nat.iter_succ. set (qn := Nat.iter n spawn_worker q) in *.
    assert (ThreadIdToIndex qn !! NextThreadId qn = None) as Hfree.
    { destruct (ThreadIdToIndex qn !! NextThreadId qn) eqn:E; [|done].
      assert (NextThreadId qn < NextThreadId q + n) by (apply Hreg; rewrite E; eauto). lia. }
    assert (Atomics qn !! fresh (dom (Atomics qn)) = None) as Hcell.
    { apply not_elem_of_dom, is_fresh. }
    rewrite seq_S, fmap_app, !app_assoc.
    unfold spawn_worker. rewrite Hfree. simpl. rewrite HT, Htr, HX.
    split_and!; try done.
    + intros t [c Hc]. destruct (decide (t = NextThreadId q + n)) as [->|Hne]; [lia|].
      rewrite lookup_insert_ne in Hc by done.
      assert (t < NextThreadId q + n) by (apply Hreg; eauto). lia.
    + intros t Ht. rewrite lookup_insert_ne by lia. by apply Hold.
    + intros c Hc. rewrite lookup_insert_ne; [by apply Hat|].
      intros <-. rewrite <- (Hat _ Hc) in Hc. rewrite Hcell in Hc. by destruct Hc.
    + intros j Hj. destruct (decide (j = n)) as [->|Hne].
      * exists (fresh (dom (Atomics qn))). rewrite !lookup_insert_eq.
        split_and!; [done| |].
        -- by rewrite length_app, length_seq.
        -- destruct (Atomics q !! fresh (dom (Atomics qn))) eqn:E; [|done].
           rewrite <- Hat in E by eauto. congruence.
      * destruct (Hnew j) as (cell & H1 & H2 & H3); [lia|].
        exists cell. rewrite lookup_insert_ne by lia.
        rewrite lookup_insert_ne by congruence. done.
Qed.

(** X4: growing the pool.  The new handles are appended to [Threads], which
    gets the requested length; the handle at position [k] is registered under
    a cell that did not exist before and holds [k]; the older registrations
    and cells, the ready queue, the on-hold store and the states are
    unchanged; the trace gains one spawn per new thread and nothing else, and
    the call succeeds from any thread. *)
Theorem SetNumberOfThreads_grows this_thread numberOfThreads q :
  Destroying q = false → (Z.of_nat (length (Threads q)) < numberOfThreads)%Z →
  (∀ t, is_Some (ThreadIdToIndex q !! t) → t < NextThreadId q) →
  ∃ q' spawned,
    SetNumberOfThreads this_thread numberOfThreads q = Ok q' ∧
    Threads q' = Threads q ++ spawned ∧
    Z.of_nat (length (Threads q')) = numberOfThreads ∧
    NumberOfThreads q' = numberOfThreads ∧ Destroying q' = false ∧
    Trace q' = Trace q ++ (EvSpawn <$> spawned) ∧
    (∀ k t, length (Threads q) ≤ k → Threads q' !! k = Some t →
       ∃ cell, ThreadIdToIndex q' !! t = Some cell ∧
               Atomics q' !! cell = Some (Z.of_nat k) ∧ Atomics q !! cell = None) ∧
    (∀ t, is_Some (ThreadIdToIndex q !! t) →
          ThreadIdToIndex q' !! t = ThreadIdToIndex q !! t) ∧
    (∀ c, is_Some (Atomics q !! c) → Atomics q' !! c = Atomics q !! c) ∧
    Heap q' = Heap q ∧ InvokerQueue q' = InvokerQueue q ∧
    InvokersOnHold q' = InvokersOnHold q.
Proof.
  intros Hd Hlt Hids.
  set (n := Z.to_nat (numberOfThreads - Z.of_nat (length (Threads q)))).
  set (q0 := with_NumberOfThreads numberOfThreads q).
  destruct (iter_spawn_worker n q0 Hids)
    as (HT & HX & Htr & Hreg & Hold & Hat & Hnew & HH & HQ & HO & HN & HD).
  exists (Nat.iter n spawn_worker q0), (seq (NextThreadId q) n).
  split_and!; try done.
  - unfold SetNumberOfThreads. rewrite Hd.
    rewrite decide_False by lia. rewrite decide_True by lia. done.
  - rewrite HT. simpl. rewrite length_app, length_seq. lia.
  - by rewrite HD.
  - intros k t Hk Hkt. rewrite HT in Hkt. simpl in Hkt.
    rewrite lookup_app_r in Hkt by done.
    apply lookup_seq in Hkt as [-> Hlt'].
    destruct (Hnew (k - length (Threads q)) Hlt') as (cell & H1 & H2 & H3).
    exists cell. split_and!; [done| |done].
    rewrite H2. simpl. f_equal. lia.
  - intros t Ht. apply Hold. by apply Hids.
Qed.

(** ** The constructor, followed by a resize *)

(** X5: the constructor followed by a resize to at least one thread, from
    any threads: the pool has the requested number of distinct handles, the
    handle at position [k] is registered under a cell holding [k], the trace
    consists of one spawn per handle, and no task exists. *)
Theorem new_queue_resized this_thread other_thread numberOfThreads :
  (1 ≤ numberOfThreads)%Z →
  ∃ q, (q0 ← vtkThreadedCallbackQueue_new this_thread;
        SetNumberOfThreads other_thread numberOfThreads q0) = Ok q ∧
    Threads q = seq 0 (Z.to_nat numberOfThreads) ∧
    NumberOfThreads q = numberOfThreads ∧ Destroying q = false ∧
    (∀ k t, Threads q !! k = Some t →
       ∃ cell, ThreadIdToIndex q !! t = Some cell ∧ Atomics q !! cell = Some (Z.of_nat k)) ∧
    Trace q = EvSpawn <$> Threads q ∧
    InvokerQueue q = [] ∧ InvokersOnHold q = ∅ ∧ Heap q = ∅.
Proof.
  intros Hn.
  assert (∃ q0 cell0, vtkThreadedCallbackQueue_new this_thread = Ok q0 ∧
            Threads q0 = [0] ∧ NumberOfThreads q0 = 1%Z ∧ Destroying q0 = false ∧
            NextThreadId q0 = 1 ∧
            ThreadIdToIndex q0 = {[0 := cell0]} ∧ Atomics q0 = {[cell0 := 0%Z]} ∧
            InvokerQueue q0 = [] ∧ InvokersOnHold q0 = ∅ ∧ Heap q0 = ∅ ∧
            Trace q0 = [EvSpawn 0])
    as (q0 & cell0 & Hnew & HT0 & HN0 & HD0 & HX0 & HI0 & HA0 & HQ0 & HO0 & HH0 & Htr0).
  { eexists _, _. split; [reflexivity|]. split_and!; reflexivity. }
  rewrite Hnew. simpl.
  destruct (decide (numberOfThreads = 1%Z)) as [->|Hne].
  - exists q0. split_and!; try done.
    + unfold SetNumberOfThreads. rewrite HD0, HT0. simpl. done.
    + intros k t Hk. rewrite HT0 in Hk. destruct k as [|k]; [|done].
      injection Hk as <-. exists cell0. rewrite HI0, HA0.
      by rewrite !lookup_singleton_eq.
    + by rewrite Htr0, HT0.
  - set (n := Z.to_nat (numberOfThreads - Z.of_nat (length (Threads q0)))).
    set (q1 := with_NumberOfThreads numberOfThreads q0).
    assert (∀ t, is_Some (ThreadIdToIndex q1 !! t) → t < NextThreadId q1) as Hids.
    { intros t [c Hc]. simpl in *. rewrite HI0 in Hc. rewrite HX0.
      apply lookup_singleton_Some in Hc as [<- _]. lia. }
    destruct (iter_spawn_worker n q1 Hids)
      as (HT & HX & Htr & Hreg & Hold & Hat & Hnew' & HH & HQ & HO & HN & HD).
    assert (Z.to_nat numberOfThreads = S n) as Hsn.
    { unfold n. rewrite HT0. simpl. lia. }
    exists (Nat.iter n spawn_worker q1). split_and!.
    + unfold SetNumberOfThreads. rewrite HD0, HT0. simpl.
      rewrite decide_False by lia. rewrite decide_True by lia.
      unfold n, q1. by rewrite HT0.
    + rewrite HT, Hsn. simpl. by rewrite HT0, HX0.
    + by rewrite HN.
    + by rewrite HD.
    + intros k t Hk. rewrite HT in Hk. simpl in Hk. rewrite HT0, HX0 in Hk.
      destruct k as [|k]; simpl in Hk.
      * injection Hk as <-. exists cell0. rewrite Hold by (simpl; lia).
        simpl. rewrite HI0, lookup_singleton_eq. split; [done|].
        rewrite Hat; simpl; rewrite HA0, lookup_singleton_eq; eauto.
      * apply lookup_seq in Hk as [-> Hlt].
        destruct (Hnew' k Hlt) as (cell & H1 & H2 & _). simpl in H1, H2.
        rewrite HX0 in H1. rewrite HT0 in H2. exists cell. split; [done|].
        rewrite H2. f_equal.
    + rewrite Htr, HT. simpl. rewrite Htr0, HT0, HX0. done.
    + by rewrite HQ.
    + by rewrite HO.
    + by rewrite HH.
Qed.

(** ** Resizing twice *)

Lemma iter_spawn_worker_length n q :
  length (Threads (Nat.iter n spawn_worker q)) = length (Threads q) + n ∧
  Destroying (Nat.iter n spawn_worker q) = Destroying q.
Proof.
  induction n as [|n [IH1 IH2]]; [simpl; split; [lia|done]|].
  rewrite Nat.iter_succ. unfold spawn_worker at 1 3. simpl.
  rewrite length_app, IH1. simpl. split; [lia|done].
Qed.

Lemma shrink_begin_fields t n q q' :
  shrink_begin t n q = Ok q' →
  NumberOfThreads q' = n ∧ Destroying q' = Destroying q ∧
  length (Threads q') = length (Threads q).
Proof.
  unfold shrink_begin, swap_with_thread0. intros H.
  inv_res; simpl; rewrite ?length_insert; done.
Qed.

(** X6: a resize that returned leaves a pool on which the same request, from
    any thread, changes nothing; unless the queue is being destroyed the pool
    then has exactly the requested number of handles. *)
Theorem SetNumberOfThreads_idempotent this_thread other_thread numberOfThreads q q' :
  SetNumberOfThreads this_thread numberOfThreads q = Ok q' →
  SetNumberOfThreads other_thread numberOfThreads q' = Ok q' ∧
  (Destroying q = false → Z.of_nat (length (Threads q')) = numberOfThreads).
Proof.
  unfold SetNumberOfThreads at 1. intros H.
  destruct (Destroying q) eqn:Hd.
  { apply mret_Ok in H as <-. unfold SetNumberOfThreads. by rewrite Hd. }
  destruct (decide _) as [Heq|Hne].
  { apply mret_Ok in H as <-. unfold SetNumberOfThreads.
    rewrite Hd, decide_True by done. done. }
  assert (Destroying q' = false ∧ Z.of_nat (length (Threads q')) = numberOfThreads)
    as [Hd' Hlen].
  { destruct (decide _) as [Hlt|Hge].
    - apply mret_Ok in H as <-.
      destruct (iter_spawn_worker_length
                  (Z.to_nat (numberOfThreads - Z.of_nat (length (Threads q))))
                  (with_NumberOfThreads numberOfThreads q)) as [Hl HD].
      rewrite Hl, HD. simpl. split; [done|lia].
    - apply bind_Ok in H as (q1 & E1 & E2).
      apply shrink_begin_fields in E1 as (HN & HD & HL).
      apply shrink_end_Ok in E2 as ([H0 _] & _ & HT & _ & HD' & _).
      rewrite HT, length_take, HD', HD, HL. split; [done|]. lia. }
  split; [|done]. unfold SetNumberOfThreads. rewrite Hd', decide_True by done. done.
Qed.

(** ** Shrinking from a thread that is not a worker *)

(** X7: shrinking from a thread that has no entry in [ThreadIdToIndex]
    throws [std::out_of_range] (from [unordered_map::at]). *)
Theorem shrink_from_unregistered_thread this_thread numberOfThreads q :
  Destroying q = false → (numberOfThreads < Z.of_nat (length (Threads q)))%Z →
  ThreadIdToIndex q !! this_thread = None →
  SetNumberOfThreads this_thread numberOfThreads q = Err OutOfRange.
Proof.
  intros Hd Hlt Hnone. unfold SetNumberOfThreads. rewrite Hd.
  rewrite decide_False by lia. rewrite decide_False by lia.
  unfold shrink_begin, swap_with_thread0. by rewrite Hnone.
Qed.

(** ** Shrinking to no thread at all *)

(** X8: no worker can shrink the pool to zero threads: whether or not it
    swaps with worker 0, [Sync(0)] reaches the handle of the calling thread,
    which joins itself. *)
Theorem shrink_to_zero_from_worker this_thread q cell k thread0 cell0 :
  Destroying q = false → Threads q !! 0 = Some thread0 →
  ThreadIdToIndex q !! this_thread = Some cell → Atomics q !! cell = Some (Z.of_nat k) →
  Threads q !! k = Some this_thread →
  ThreadIdToIndex q !! thread0 = Some cell0 → is_Some (Atomics q !! cell0) →
  SetNumberOfThreads this_thread 0 q = Err ResourceDeadlock.
Proof.
  intros Hd H0 Hc Hk Hself Hc0 [k0 Hk0].
  assert (0 < length (Threads q)) as Hlen by (eapply lookup_lt_Some; eauto).
  assert (k < length (Threads q)) as Hklt by (eapply lookup_lt_Some; eauto).
  unfold SetNumberOfThreads. rewrite Hd.
  rewrite decide_False by lia. rewrite decide_False by lia.
  unfold shrink_begin, swap_with_thread0. rewrite Hc. cbn. rewrite Hk. cbn.
  destruct (decide (k = 0)) as [->|Hne].
  - rewrite decide_False by lia. cbn. unfold shrink_end, Sync. cbn.
    rewrite decide_True by lia. rewrite drop_0.
    rewrite decide_True; [done|]. by eapply list_elem_of_lookup_2.
  - rewrite decide_True by lia. rewrite H0. cbn. rewrite Hc0. cbn.
    rewrite decide_True by lia. rewrite Nat2Z.id, Hself. cbn.
    rewrite Hk0. cbn. unfold shrink_end, Sync. cbn.
    rewrite !length_insert. rewrite decide_True by lia. rewrite drop_0.
    rewrite decide_True; [done|].
    apply (list_elem_of_lookup_2 _ 0). apply list_lookup_insert_eq.
    rewrite length_insert. lia.
Qed.

(** ** Shrinking from a worker that stays *)

(** X9: shrinking from a worker whose index is below the target: no swap
    takes place, [NumberOfThreads] is lowered, all workers are notified, the
    handles from the target on are joined in their order and [Threads] is cut
    to the target; the index cells and the registrations are not touched. *)
Theorem shrink_from_surviving_worker this_thread numberOfThreads q cell i :
  Destroying q = false →
  (0 ≤ numberOfThreads < Z.of_nat (length (Threads q)))%Z →
  ThreadIdToIndex q !! this_thread = Some cell → Atomics q !! cell = Some i →
  (i < numberOfThreads)%Z →
  this_thread ∉ drop (Z.to_nat numberOfThreads) (Threads q) →
  SetNumberOfThreads this_thread numberOfThreads q
  = Ok (with_Threads (take (Z.to_nat numberOfThreads) (Threads q))
         (emit (EvNotifyAll :: (EvJoin <$> drop (Z.to_nat numberOfThreads) (Threads q)))
            (with_NumberOfThreads numberOfThreads q))).
Proof.
  intros Hd [Hn0 Hn] Hc Hi Hlt Hnotin. unfold SetNumberOfThreads. rewrite Hd.
  rewrite decide_False by lia. rewrite decide_False by lia.
  unfold shrink_begin, swap_with_thread0. rewrite Hc. cbn. rewrite Hi. cbn.
  rewrite decide_False by lia. cbn. unfold shrink_end, Sync. cbn.
  rewrite decide_True by lia. rewrite decide_False by done. cbn.
  unfold with_Threads, emit. simpl. by rewrite <- app_assoc.
Qed.

(** ** The destructor *)

(** X10: the destructor.  Called from one of the threads of the pool it
    joins itself; called from another thread it sets [Destroying], notifies
    all workers and joins every handle in order, leaves [Threads], the ready
    queue and the on-hold store as they are, and every later
    [SetNumberOfThreads] changes nothing. *)
Theorem delete_joins_every_thread this_thread q :
  (this_thread ∈ Threads q →
   vtkThreadedCallbackQueue_delete this_thread q = Err ResourceDeadlock) ∧
  (this_thread ∉ Threads q →
   ∃ q', vtkThreadedCallbackQueue_delete this_thread q = Ok q' ∧
     Destroying q' = true ∧
     Trace q' = Trace q ++ EvNotifyAll :: (EvJoin <$> Threads q) ∧
     Heap q' = Heap q ∧ InvokerQueue q' = InvokerQueue q ∧
     InvokersOnHold q' = InvokersOnHold q ∧ Threads q' = Threads q ∧
     NumberOfThreads q' = NumberOfThreads q ∧
     ∀ other_thread numberOfThreads,
       SetNumberOfThreads other_thread numberOfThreads q' = Ok q').
Proof.
  unfold vtkThreadedCallbackQueue_delete, Sync. cbn.
  rewrite decide_True by lia. rewrite drop_0. split; intros Hin.
  - by rewrite decide_True.
  - rewrite decide_False by done. eexists. split; [done|]. cbn.
    split_and!; try done.
    by rewrite <- app_assoc.
Qed.

Lemma runs_app tr1 tr2 : runs (tr1 ++ tr2) = runs tr1 ++ runs tr2.
Proof. apply omap_app. Qed.

Lemma runs_fmap_none {A} (g : A → event) (l : list A) :
  (∀ a t f, g a ≠ EvRun t f) → runs (g <$> l) = [].
Proof.
  intros Hg. induction l as [|a l IH]; [done|].
  rewrite fmap_cons. unfold runs in *. cbn. rewrite IH.
  pose proof (Hg a) as Ha. destruct (g a); try done. by exfalso; eapply Ha.
Qed.

Lemma runs_replicate n : runs (replicate n EvNotifyOne) = [].
Proof. induction n as [|n IH]; [done|]. exact IH. Qed.

Lemma iter_spawn_runs n s :
  runs (Trace (Shared (Nat.iter n spawn s))) = runs (Trace (Shared s)).
Proof.
  induction n as [|n IH]; [done|]. rewrite Nat.iter_succ.
  unfold spawn at 1. simpl. unfold spawn_worker. simpl.
  rewrite runs_app. simpl. by rewrite app_nil_r.
Qed.

(** What a transition does to the payloads that ran and to the states that
    are DONE. *)
Lemma step_runs l s s' :
  step l s = Done s' →
  (∃ t inv fs, l = LPayloadDone t ∧ stack s t = InPayload inv :: fs ∧
     runs (Trace (Shared s')) = runs (Trace (Shared s)) ++ [(t, GetSharedState inv)] ∧
     ∀ g, status (Shared s') g
          = if decide (g = GetSharedState inv) then Some DONE else status (Shared s) g) ∨
  (runs (Trace (Shared s')) = runs (Trace (Shared s)) ∧
   ∀ g, status (Shared s') g = Some DONE → status (Shared s) g = Some DONE).
Proof.
  intros H.
  assert (∀ q', Trace q' = Trace (Shared s) → Heap q' = Heap (Shared s) →
                runs (Trace q') = runs (Trace (Shared s)) ∧
                ∀ g, status q' g = Some DONE → status (Shared s) g = Some DONE) as Hsame.
  { intros q' -> Hh. split; [done|]. intros g. by rewrite (status_same_heap _ _ Hh). }
  destruct l as [t|t priors|t g|t g|t n|t|t|t|t|t|t|t|t]; simpl in H.
  - apply bind_Done in H as ([] & _ & H). apply bind_Done in H as ([f' q'] & E & H).
    apply lift_Done in E. inv_res. apply Push_spec in E as (_&Hs&_&_&_&_&Ht&_).
    right. simpl. rewrite Ht, runs_app. simpl. rewrite app_nil_r. split; [done|].
    intros g. rewrite Hs. by case_decide.
  - apply bind_Done in H as ([] & _ & H). apply bind_Done in H as (pending & Ep & H).
    apply bind_Done in H as ([f' q'] & E & H).
    apply lift_Done in Ep. apply lift_Done in E. inv_res. simpl.
    destruct (PushDependent_spec _ _ _ _ _ Ep E) as [_ Hspec].
    right. destruct (decide (pending = [])).
    + apply Push_spec in Hspec as (_&Hs&_&_&_&_&Ht&_).
      rewrite Ht, runs_app. simpl. rewrite app_nil_r. split; [done|].
      intros g. rewrite Hs. by case_decide.
    + destruct Hspec as (Hs&_&_&_&_&Ht&_). rewrite Ht. split; [done|].
      intros g. rewrite Hs. by case_decide.
  - apply bind_Done in H as ([] & _ & H). apply bind_Done in H as (a & E & H).
    apply lift_Done in E. inv_res. apply Wait_mark_spec in E as (Hh&_&Ht&_).
    right. by apply Hsame.
  - apply bind_Done in H as ([] & _ & H). apply bind_Done in H as ([o q0] & E & H).
    apply lift_Done in E. apply TryInvoke_take_spec in E as (Hh & _ & Ht & _).
    right. destruct o; inv_res; simpl; by apply Hsame.
  - apply bind_Done in H as ([] & _ & H). apply bind_Done in H as ([] & _ & H).
    right.
    destruct (Destroying (Shared s)); [inv_res; by apply Hsame|].
    destruct (decide _); [inv_res; by apply Hsame|].
    destruct (decide _); inv_res.
    + rewrite iter_spawn_runs. split; [done|]. intros g.
      destruct (iter_spawn (Z.to_nat (n - Z.of_nat (length (Threads (Shared s)))))
                  (with_Shared (with_NumberOfThreads n (Shared s)) s)) as (Hh&_).
      by rewrite (status_same_heap _ _ Hh).
    + match goal with H : shrink_begin _ _ _ = Ok _ |- _ =>
        pose proof H as Hsb; apply shrink_begin_tasks in H as (Hh&_) end.
      simpl. split; [|intros g; by rewrite (status_same_heap _ _ Hh)].
      unfold shrink_begin in Hsb. apply bind_Ok in Hsb as (q1 & E1 & E2).
      apply mret_Ok in E2 as <-. simpl. rewrite runs_app. simpl. rewrite app_nil_r.
      unfold swap_with_thread0 in E1. inv_res; done.
  - destruct (stack s t) as [|[| | |n| |] fs] eqn:Est; try done.
    apply bind_Done in H as ([] & _ & H). apply bind_Done in H as (q' & E & H).
    apply lift_Done in E. inv_res. right. simpl.
    pose proof E as E'. apply shrink_end_tasks in E' as (Hh&_).
    apply shrink_end_Ok in E as (_&_&_&_&_&_&_&_&Ht).
    split; [|intros g; by rewrite (status_same_heap _ _ Hh)].
    rewrite Ht, runs_app, runs_fmap_none; [by rewrite app_nil_r|done].
  - apply bind_Done in H as ([] & _ & H). apply bind_Done in H as ([] & _ & H).
    inv_res. right. simpl. rewrite runs_app. simpl. rewrite app_nil_r. done.
  - destruct (Workers s !! t) as [w|]; [|done].
    destruct (stack s t) as [|] eqn:Est; [|done].
    apply bind_Done in H as (o & E & H). apply lift_Done in E.
    right. destruct o as [| |inv q']; inv_res; simpl; [done|].
    apply Pop_take_taken in E as (l & _ & _ & Hh & _ & Ht & _). by apply Hsame.
  - destruct (stack s t) as [|[| | | | |] fs] eqn:Est; try done. inv_res. by right.
  - destruct (stack s t) as [|[inv| | | | |] fs] eqn:Est; try done.
    apply bind_Done in H as (q' & E & H). apply lift_Done in E. inv_res. simpl.
    apply store_Status_spec in E as (_&Hs&_&_&_&_&Ht&_). right. rewrite Ht.
    split; [done|]. intros g. rewrite Hs. by case_decide.
  - destruct (stack s t) as [|[|inv| | | |] fs] eqn:Est; try done.
    apply bind_Done in H as (q' & E & H). apply lift_Done in E.
    apply bind_Done in H as (ist & Eld & H). inv_res. simpl.
    apply call_invoker_spec in E as (_&Hs&_&_&_&_&Ht&_).
    left. exists t, inv, fs. split_and!; [done..| |done].
    by rewrite Ht, runs_app.
  - destruct (stack s t) as [|[| |inv [|g deps] acc| | |] fs] eqn:Est; try done.
    apply bind_Done in H as ([a q'] & E & H). apply lift_Done in E.
    apply signal_dependent_spec in E as (ist & _ & Hs & _ & _ & _ & Ht & _).
    right. assert (runs (Trace q') = runs (Trace (Shared s)) ∧
                   ∀ g, status q' g = Some DONE → status (Shared s) g = Some DONE) as Hq'.
    { rewrite Ht. split; [done|]. intros x. by rewrite Hs. }
    destruct a; inv_res; simpl; done.
  - destruct (stack s t) as [|[| |inv [|g deps] acc| | |] fs] eqn:Est; try done.
    apply bind_Done in H as (q' & E & H). apply lift_Done in E. inv_res. simpl.
    apply launch_invokers_spec in E as (_ & _ & Hs & _ & _ & Ht & _).
    right. split.
    + rewrite Ht, !runs_app, runs_replicate, app_nil_r.
      rewrite <- list_fmap_compose, runs_fmap_none; [by rewrite app_nil_r|done].
    + intros x. rewrite Hs. by case_decide.
Qed.

(** ** The log of payloads *)

Lemma released_priors_done s f p st :
  owned s → dependencies s → p ∈ Priors s f → status (Shared s) f = Some st →
  st ≠ ON_HOLD → status (Shared s) p = Some DONE.
Proof.
  intros Hown Hdep Hp Hst Hne.
  destruct (dep_released _ Hdep f) as [[inv Hinv]|Hall]; [|by apply Hall].
  pose proof (own_hold_status _ _ _ _ Hown Hinv). congruence.
Qed.

Lemma step_run_log l s s' :
  owned s → dependencies s → run_log s → step l s = Done s' → run_log s'.
Proof.
  intros Hown Hdep [Hnd Hdone Hord] H.
  assert (∀ f, status (Shared s) f = Some DONE → status (Shared s') f = Some DONE) as Hkeep.
  { intros f Hf. destruct (step_status _ _ _ _ _ Hown H Hf)
      as (st' & Hst' & [->|[Ht|(?&_)]]); [done|inversion Ht|done]. }
  destruct (step_runs _ _ _ H) as [(t & inv & fs & -> & Est & Hr & Hs)|[Hr Hs]].
  - assert (status (Shared s) (GetSharedState inv) = Some RUNNING) as Hrun.
    { destruct (own_frame_status _ _ t (InPayload inv) (GetSharedState inv) KRunning Hown)
        as (st & Hst & Hok).
      - unfold stack in Est. rewrite Est. by left.
      - by left.
      - simpl in Hok. congruence. }
    constructor.
    + rewrite Hr, fmap_app. apply NoDup_app. split_and!; [done| |apply NoDup_singleton].
      intros f Hf [= ->]%list_elem_of_singleton. apply Hdone in Hf. congruence.
    + intros f. rewrite Hr, fmap_app, elem_of_app, Hs, Hdone.
      simpl. rewrite list_elem_of_singleton. case_decide; naive_solver.
    + intros i t0 f p Hi Hp. rewrite Hr in Hi |- *.
      assert (is_Some (status (Shared s) f) → Priors s f = Priors s' f) as HP.
      { intros Hf. symmetry. by eapply step_priors. }
      apply lookup_app_Some in Hi as [Hi|[Hlen Hi]].
      * rewrite <- HP in Hp.
        2:{ assert (f ∈ (runs (Trace (Shared s))).*2) as Hf.
            { apply list_elem_of_fmap. exists (t0, f). split; [done|].
              by eapply list_elem_of_lookup_2. }
            apply Hdone in Hf. rewrite Hf. eauto. }
        destruct (Hord _ _ _ _ Hi Hp) as (j & t' & Hj & Hjp).
        exists j, t'. split; [done|]. by apply lookup_app_l_Some.
      * destruct (i - length (runs (Trace (Shared s)))) as [|k] eqn:Ek; [|done].
        simpl in Hi. injection Hi as <- <-.
        rewrite <- HP in Hp by (rewrite Hrun; eauto).
        assert (status (Shared s) p = Some DONE) as Hpd.
        { by eapply released_priors_done. }
        apply Hdone in Hpd. apply list_elem_of_fmap in Hpd as ([t' p'] & -> & Hin).
        apply list_elem_of_lookup in Hin as [j Hj].
        exists j, t'. split.
        -- apply lookup_lt_Some in Hj. lia.
        -- by apply lookup_app_l_Some.
  - constructor.
    + by rewrite Hr.
    + intros f. rewrite Hr, Hdone. split; [apply Hkeep|apply Hs].
    + intros i t0 f p Hi Hp. rewrite Hr in Hi |- *.
      apply (Hord i t0 f p Hi).
      rewrite <- (step_priors _ _ _ f H); [done|].
      assert (f ∈ (runs (Trace (Shared s))).*2) as Hf.
      { apply list_elem_of_fmap. exists (t0, f). split; [done|].
        by eapply list_elem_of_lookup_2. }
      apply Hdone in Hf. rewrite Hf. eauto.
Qed.

Lemma initial_run_log : run_log initial.
Proof.
  constructor; simpl.
  - constructor.
  - intros f. split; [by intros ?%elem_of_nil|]. unfold status. simpl.
    by rewrite lookup_empty.
  - intros i t f p Hi. done.
Qed.

Lemma reachable_run_log s : reachable s → run_log s.
Proof.
  induction 1 as [|l s s' Hr IH H]; [apply initial_run_log|].
  eapply step_run_log; eauto using reachable_owned, reachable_deps.
Qed.

(** X15: in every reachable state no state occurs twice among the payloads
    that ran, and the states whose payload ran are exactly the states that are
    DONE. *)
Theorem each_payload_runs_at_most_once s :
  reachable s →
  NoDup (runs (Trace (Shared s))).*2 ∧
  ∀ f, f ∈ (runs (Trace (Shared s))).*2 ↔ status (Shared s) f = Some DONE.
Proof. intros [Hnd Hdone _]%reachable_run_log. done. Qed.

(** X16: in every reachable state, the payload of each prior a task was
    submitted with ran earlier in the trace than the payload of the task. *)
Theorem priors_run_first s i t f p :
  reachable s → runs (Trace (Shared s)) !! i = Some (t, f) → p ∈ Priors s f →
  ∃ j t', j < i ∧ runs (Trace (Shared s)) !! j = Some (t', p).
Proof. intros [_ _ Hord]%reachable_run_log. apply Hord. Qed.

(** ** Signals that are still to come *)

Lemma step_unmet l s s' :
  step l s = Done s' →
  match l with
  | LPush _ | LPushDependent _ _ | LSignal _ => True
  | _ => Unmet s' = Unmet s
  end.
Proof.
  intros H. destruct l as [t|t priors|t g|t g|t n|t|t|t|t|t|t|t|t]; try done; simpl in H.
  - apply bind_Done in H as ([] & _ & H). apply bind_Done in H as (a & E & H). by inv_res.
  - apply bind_Done in H as ([] & _ & H). apply bind_Done in H as ([o q0] & E & H).
    destruct o; by inv_res.
  - apply bind_Done in H as ([] & _ & H). apply bind_Done in H as ([] & _ & H).
    destruct (Destroying (Shared s)); [by inv_res|].
    destruct (decide _); [by inv_res|].
    destruct (decide _); inv_res; [|done].
    destruct (iter_spawn (Z.to_nat (n - Z.of_nat (length (Threads (Shared s)))))
                (with_Shared (with_NumberOfThreads n (Shared s)) s)) as (_&_&_&_&_&HU).
    by rewrite HU.
  - destruct (stack s t) as [|[| | |n| |] fs] eqn:Est; try done.
    apply bind_Done in H as ([] & _ & H). apply bind_Done in H as (q' & E & H). by inv_res.
  - apply bind_Done in H as ([] & _ & H). apply bind_Done in H as ([] & _ & H). by inv_res.
  - destruct (Workers s !! t) as [w|]; [|done].
    destruct (stack s t) as [|] eqn:Est; [|done].
    apply bind_Done in H as (o & E & H). destruct o; by inv_res.
  - destruct (stack s t) as [|[| | | | |] fs] eqn:Est; try done. by inv_res.
  - destruct (stack s t) as [|[w| | | | |] fs] eqn:Est; try done.
    apply bind_Done in H as (q' & E & H). by inv_res.
  - destruct (stack s t) as [|[|w| | | |] fs] eqn:Est; try done.
    apply bind_Done in H as (q' & E & H).
    apply bind_Done in H as (ist & Eld & H). by inv_res.
  - destruct (stack s t) as [|[| |w [|g deps] acc| | |] fs] eqn:Est; try done.
    apply bind_Done in H as (q' & E & H). by inv_res.
Qed.

Lemma step_settled l s s' :
  owned s → dependencies s → settled s → step l s = Done s' → settled s'.
Proof.
  intros Hown Hdep Hset H f Hf.
  assert (InvokersOnHold (Shared s) !! f = None ∨
          ∃ t invoker deps acc fs inv,
            l = LSignal t ∧ stack s t = InSignal invoker (f :: deps) acc :: fs ∧
            InvokersOnHold (Shared s) !! f = Some inv ∧
            counter (Shared s) f = Some 1%Z) as Hcase.
  { destruct (InvokersOnHold (Shared s) !! f) as [inv|] eqn:E; [right|by left].
    destruct (step_hold_removed _ _ _ _ _ H E Hf) as (t & i & d & a & fs & -> & ? & ? & _).
    by exists t, i, d, a, fs, inv. }
  pose proof (step_unmet _ _ _ H) as HU.
  destruct l as [t|t priors|t g|t g|t n|t|t|t|t|t|t|t|t];
    try (destruct Hcase as [Hnone|(?&?&?&?&?&?&?&_)]; [|done]; rewrite HU; by apply Hset);
    simpl in H.
  - destruct Hcase as [Hnone|(?&?&?&?&?&?&?&_)]; [|done].
    apply bind_Done in H as ([] & _ & H). apply bind_Done in H as ([f' q'] & E & H).
    inv_res. simpl. destruct (decide (f = f')) as [->|Hne].
    + by rewrite fn_lookup_insert.
    + rewrite fn_lookup_insert_ne by done. by apply Hset.
  - destruct Hcase as [Hnone|(?&?&?&?&?&?&?&_)]; [|done].
    apply bind_Done in H as ([] & _ & H). apply bind_Done in H as (pending & Ep & H).
    apply bind_Done in H as ([f' q'] & E & H).
    apply lift_Done in Ep. apply lift_Done in E. inv_res. simpl in *.
    destruct (decide (f = f')) as [->|Hne].
    + rewrite fn_lookup_insert.
      destruct (PushDependent_spec _ _ _ _ _ Ep E) as [_ Hspec].
      destruct (decide (pending = [])) as [->|Hp]; [done|].
      destruct Hspec as (_&_&_&_&Hh&_). rewrite Hh, lookup_insert_eq in Hf. done.
    + rewrite fn_lookup_insert_ne by done. by apply Hset.
  - destruct (stack s t) as [|[| |inv [|g deps] acc| | |] fs] eqn:Est; try done.
    apply bind_Done in H as ([a q'] & E & H). apply lift_Done in E.
    assert (Unmet s' = <[g := remove_first (GetSharedState inv) (Unmet s g)]> (Unmet s))
      as HU'.
    { destruct a; by inv_res. }
    rewrite HU'. destruct (decide (f = g)) as [->|Hne].
    + rewrite fn_lookup_insert.
      destruct Hcase as [Hnone|(t' & i & d & a' & fs' & w & _ & _ & Hw & Hc1)].
      { by rewrite (Hset _ Hnone). }
      rewrite (dep_counter _ Hdep) in Hc1 by eauto.
      assert (GetSharedState inv ∈ Unmet s g) as Hin.
      { pose proof (dep_frames _ Hdep) as Hfr.
        assert (frame_ok (Shared s) (Unmet s) (InSignal inv (g :: deps) acc)) as Htop.
        { eapply Forall_forall in Hfr; [done|]. apply (elem_of_frames _ t).
          unfold stack in Est. rewrite Est. by left. }
        apply occurrences_elem_of. destruct (Htop g) as [_ Hocc]; [by left|].
        simpl in Hocc. rewrite decide_True in Hocc by done. lia. }
      destruct (Unmet s g) as [|x [|y l]] eqn:EU; simpl in Hc1.
      * by apply elem_of_nil in Hin.
      * apply list_elem_of_singleton in Hin. subst x. simpl. by rewrite decide_True.
      * injection Hc1. lia.
    + rewrite fn_lookup_insert_ne by done.
      destruct Hcase as [Hnone|(t' & i & d & a' & fs' & w & [= <-] & Est' & _)].
      * by apply Hset.
      * rewrite Est in Est'. injection Est' as _ <- _. done.
Qed.

Lemma reachable_settled s : reachable s → settled s.
Proof.
  induction 1 as [|l s s' Hr IH H]; [by intros f _|].
  eapply step_settled; eauto using reachable_owned, reachable_deps.
Qed.

(** ** The worker's transitions cannot fail *)

Lemma store_counter_total f n q :
  is_Some (Heap q !! f) → ∃ q', store_NumberOfPriorSharedFuturesRemaining f n q = Ok q'.
Proof.
  intros [st Hst]. unfold store_NumberOfPriorSharedFuturesRemaining, load.
  rewrite Hst. simpl. eauto.
Qed.

(** X17: in every reachable state the transitions of a worker ([Pop], the
    exit, the write of RUNNING, the end of the payload, the signaling loop and
    the reinsertion) are either not enabled or succeed: no null front is
    dereferenced, every state they touch is allocated, the on-hold store
    holds the invoker of every dependent that reaches zero, and the assertion
    of the reinsertion holds. *)
Theorem worker_transitions_never_fail l s :
  reachable s → worker_label l →
  step l s = NotEnabled ∨ ∃ s', step l s = Done s'.
Proof.
  intros Hr Hl.
  pose proof (reachable_owned _ Hr) as Hown. unfold owned in Hown.
  pose proof (reachable_deps _ Hr) as Hdep.
  pose proof (reachable_pool_inv _ Hr) as [Hcore _ _].
  pose proof (reachable_settled _ Hr) as Hset.
  destruct l as [t|t priors|t g|t g|t n|t|t|t|t|t|t|t|t]; try done; simpl.
  - destruct (Workers s !! t) as [w|] eqn:Ew; [|by left].
    destruct (stack s t) as [|] eqn:Est; [|by left].
    destruct (pc_position _ _ Hcore _ _ Ew) as (i & Hi & _).
    unfold Pop_take, OnHold, Continue. rewrite Hi. simpl.
    destruct (bool_decide (Z.of_nat i < NumberOfThreads (Shared s))%Z); simpl;
      [|right; eauto].
    destruct (InvokerQueue (Shared s)) as [|[inv|] l] eqn:Eq; simpl.
    + destruct (Destroying (Shared s)); simpl; [right; eauto|by left].
    + rewrite andb_false_r. simpl. right. eauto.
    + exfalso. pose proof (own_front _ _ Hown) as Hf. rewrite Eq in Hf. by apply Hf.
  - destruct (stack s t) as [|[| | | | |] fs]; eauto.
  - destruct (stack s t) as [|[inv| | | | |] fs] eqn:Est; try by left.
    destruct (own_frame_status _ _ t (InInvoke inv) (GetSharedState inv) (claimed_kind inv) Hown)
      as (st & Hst & _).
    { unfold stack in Est. rewrite Est. by left. }
    { by left. }
    destruct (store_Status_total (GetSharedState inv) RUNNING (Shared s)) as [q' Hq'].
    { apply status_is_Some. rewrite Hst. eauto. }
    rewrite Hq'. simpl. right. eauto.
  - destruct (stack s t) as [|[|inv| | | |] fs] eqn:Est; try by left.
    destruct (own_frame_status _ _ t (InPayload inv) (GetSharedState inv) KRunning Hown)
      as (st & Hst & _).
    { unfold stack in Est. rewrite Est. by left. }
    { by left. }
    destruct (store_Status_total (GetSharedState inv) DONE (Shared s)) as [q' Hq'].
    { apply status_is_Some. rewrite Hst. eauto. }
    unfold call_invoker. rewrite Hq'. simpl.
    apply store_Status_spec in Hq' as (_ & Hs & _).
    assert (is_Some (Heap q' !! GetSharedState inv)) as [ist Hist].
    { apply status_is_Some. rewrite Hs, decide_True by done. eauto. }
    unfold load. simpl. rewrite Hist. simpl. right. eauto.
  - destruct (stack s t) as [|[| |inv [|f deps] acc| | |] fs] eqn:Est; try by left.
    assert (frame_ok (Shared s) (Unmet s) (InSignal inv (f :: deps) acc)) as Htop.
    { pose proof (dep_frames _ Hdep) as Hfr.
      eapply Forall_forall in Hfr; [done|]. apply (elem_of_frames _ t).
      unfold stack in Est. rewrite Est. by left. }
    destruct (Htop f) as [Hf Hocc]; [by left|].
    simpl in Hocc. rewrite decide_True in Hocc by done.
    apply status_is_Some in Hf as [st Hst].
    assert (∃ a q', signal_dependent f (Shared s) = Ok (a, q')) as (a & q' & E).
    { unfold signal_dependent, load. rewrite Hst. simpl.
      destruct (store_counter_total f (NumberOfPriorSharedFuturesRemaining st - 1)
                  (Shared s)) as [q1 E1]; [eauto|].
      rewrite E1. simpl. destruct (decide _) as [_|_]; [|simpl; eauto].
      apply store_counter_spec in E1 as (_&_&_&_&_&Hh&_).
      unfold take_on_hold. rewrite Hh.
      destruct (InvokersOnHold (Shared s) !! f) as [w|] eqn:Ew.
      - simpl. destruct (IsHighPriority w); simpl; eauto.
      - exfalso. rewrite (Hset _ Ew) in Hocc. simpl in Hocc. lia. }
    rewrite E. simpl. right. destruct a; simpl; eauto.
  - destruct (stack s t) as [|[| |inv [|f deps] acc| | |] fs] eqn:Est; try by left.
    assert (InSignal inv [] acc ∈ default [] (Stacks s !! t)) as Hin.
    { unfold stack in Est. rewrite Est. by left. }
    destruct (launch_invokers_total acc (Shared s) (Stacks s) Hown) as [q' Hq'].
    + pose proof (own_frame_nodup _ _ t _ Hown Hin) as Hnd. simpl in Hnd.
      apply NoDup_cons in Hnd as [_ Hnd]. by rewrite <- list_fmap_compose in Hnd.
    + intros w Hw.
      destruct (own_frame_status _ _ t _ (GetSharedState w) KCollected Hown Hin)
        as (st & Hst & Hok).
      * simpl. right. apply list_elem_of_fmap. eauto.
      * simpl in Hok. congruence.
    + rewrite Hq'. simpl. right. eauto.
Qed.

(** ** The pool in reachable states *)


(** ** The holders of the invokers in reachable states *)

(** X19: in every reachable state an invoker has one holder (the ready
    queue, the on-hold store or a frame of one thread), the front of the queue
    is not null, queued invokers are ENQUEUED, invokers on hold are ON_HOLD and
    stored under their own state, a state whose payload runs is RUNNING and a
    state whose dependents are being signaled is DONE. *)
Theorem invokers_have_one_holder s :
  reachable s →
  NoDup (table_of (Shared s) (Stacks s)).*1 ∧
  head (InvokerQueue (Shared s)) ≠ Some None ∧
  (∀ inv, Some inv ∈ InvokerQueue (Shared s) →
          status (Shared s) (GetSharedState inv) = Some ENQUEUED) ∧
  (∀ f inv, InvokersOnHold (Shared s) !! f = Some inv →
            GetSharedState inv = f ∧ status (Shared s) f = Some ON_HOLD) ∧
  (∀ t inv, InPayload inv ∈ stack s t →
            status (Shared s) (GetSharedState inv) = Some RUNNING) ∧
  (∀ t inv dependents invokersToLaunch,
     InSignal inv dependents invokersToLaunch ∈ stack s t →
     status (Shared s) (GetSharedState inv) = Some DONE).
Proof.
  intros Hr. pose proof (reachable_owned _ Hr) as Hown. unfold owned in Hown.
  split_and!.
  - apply (own_nodup _ _ Hown).
  - apply (own_front _ _ Hown).
  - intros inv. by apply (own_queue_status _ (Stacks s)).
  - intros f inv Hf. split; [by apply (own_key _ _ Hown)|by eapply own_hold_status].
  - intros t inv Hin.
    destruct (own_frame_status _ _ t _ (GetSharedState inv) KRunning Hown Hin)
      as (st & Hst & Hok); [by left|]. simpl in Hok. congruence.
  - intros t inv d a Hin.
    destruct (own_frame_status _ _ t _ (GetSharedState inv) KSignaling Hown Hin)
      as (st & Hst & Hok); [by left|]. simpl in Hok. congruence.
Qed.

(** ** TryInvoke on a slot that was emptied *)

Lemma with_InvokerQueue_id q : with_InvokerQueue (InvokerQueue q) q = q.
Proof. by destruct q. Qed.

(** X11: when the slot that [TryInvoke] computes for its target holds a null
    pointer, [TryInvoke] returns false and the object is unchanged. *)
Theorem TryInvoke_on_null_slot fuel t state q st front :
  Heap q !! state = Some st → Status st = ENQUEUED →
  front_InvokerIndex q = Ok front →
  vtkIdType_range (InvokerIndex st - front) → (0 ≤ InvokerIndex st - front)%Z →
  InvokerQueue q !! Z.to_nat (InvokerIndex st - front) = Some None →
  TryInvoke fuel t state q = Ok (false, q).
Proof.
  intros Hst Henq Hfront Hrange H0 Hslot.
  destruct (front_InvokerIndex_Ok _ _ Hfront) as (finv & l & fst & Hq & _).
  assert (InvokerQueue q ≠ []) as Hne by (by rewrite Hq).
  assert (InvokerIndex st - front ≠ 0)%Z as Hnz.
  { intros Hz. rewrite Hz, Hq in Hslot. done. }
  unfold TryInvoke, TryInvoke_take, load. rewrite Hst. simpl.
  rewrite decide_False by (intros ?; congruence).
  rewrite decide_False by done. rewrite Hfront. simpl.
  rewrite to_vtkIdType_range by done.
  apply lookup_lt_Some in Hslot as Hlt.
  rewrite decide_True by lia. rewrite Hslot. simpl.
  rewrite decide_False by done. simpl.
  rewrite list_insert_id by done. by rewrite with_InvokerQueue_id.
Qed.

(** ** TryInvoke on a target that is in the queue *)

(** X12: on an addressable queue, [TryInvoke] on the state of an invoker
    that is in the queue (and that nothing depends on) takes that invoker,
    runs it on the calling thread and returns true: the state is DONE, the
    trace gains this one run, the slot is emptied (or popped with the nulls
    behind it when it is the front), and the on-hold store and the pool are
    unchanged. *)
Theorem TryInvoke_runs_queued_target fuel t q front k invoker st :
  front_InvokerIndex q = Ok front → addressable q front →
  InvokerQueue q !! k = Some (Some invoker) →
  Heap q !! GetSharedState invoker = Some st → Status st = ENQUEUED →
  DependentSharedFutures st = [] → vtkIdType_range (Z.of_nat k) →
  ∃ q', TryInvoke (S fuel) t (GetSharedState invoker) q = Ok (true, q') ∧
    status q' (GetSharedState invoker) = Some DONE ∧
    Trace q' = Trace q ++ [EvRun t (GetSharedState invoker)] ∧
    InvokerQueue q' = (if decide (k = 0) then strip_nullptr (tail (InvokerQueue q))
                       else <[k := None]> (InvokerQueue q)) ∧
    InvokersOnHold q' = InvokersOnHold q ∧ same_pool q q'.
Proof.
  intros Hfront Haddr Hk Hst Henq Hdeps Hrange.
  pose proof (Haddr _ _ Hk) as Hidx. unfold index_of in Hidx. rewrite Hst in Hidx.
  simpl in Hidx. injection Hidx as Hidx.
  destruct (front_InvokerIndex_Ok _ _ Hfront) as (finv & l & fst & Hq & _).
  apply lookup_lt_Some in Hk as Hlt.
  set (q1 := if decide (k = 0)
             then PopFrontNullptr (with_InvokerQueue (tail (<[k := None]> (InvokerQueue q)))
                                     (with_InvokerQueue (<[k := None]> (InvokerQueue q)) q))
             else with_InvokerQueue (<[k := None]> (InvokerQueue q)) q).
  assert (TryInvoke_take (GetSharedState invoker) q = Ok (Some invoker, q1)) as Htake.
  { unfold TryInvoke_take, load. rewrite Hst. simpl.
    rewrite decide_False by (intros ?; congruence).
    rewrite decide_False by (by rewrite Hq). rewrite Hfront. simpl.
    rewrite Hidx. replace (front + Z.of_nat k - front)%Z with (Z.of_nat k) by lia.
    rewrite to_vtkIdType_range by done.
    rewrite decide_True by lia. rewrite Nat2Z.id, Hk. simpl. unfold q1.
    destruct (decide (k = 0)) as [->|Hne].
    - by rewrite decide_True.
    - rewrite decide_False by lia. done. }
  assert (Heap q1 = Heap q ∧ InvokersOnHold q1 = InvokersOnHold q ∧ Trace q1 = Trace q ∧
          same_pool q q1 ∧
          InvokerQueue q1 = (if decide (k = 0) then strip_nullptr (tail (InvokerQueue q))
                             else <[k := None]> (InvokerQueue q))) as (Hh & Ho & Ht & Hp & Hq1).
  { unfold q1. destruct (decide (k = 0)) as [->|Hne]; simpl; split_and!; try done.
    by rewrite Hq. }
  destruct (Invoke_leaf fuel t invoker q1) as (q2 & HInv & Hs2 & _ & _ & Hq2 & Ho2 & Ht2 & Hp2).
  { unfold dependents. rewrite Hh, Hst. simpl. by rewrite Hdeps. }
  exists q2. split_and!.
  - unfold TryInvoke. rewrite Htake.
    change ((q0 ← Invoke (S fuel) t invoker q1; mret (true, q0)) = Ok (true, q2)).
    by rewrite HInv.
  - rewrite Hs2. by rewrite decide_True.
  - by rewrite Ht2, Ht.
  - by rewrite Hq2, Hq1.
  - by rewrite Ho2, Ho.
  - by eapply same_pool_trans.
Qed.

(** ** What an invocation leaves alone *)

Lemma emplaced_app es1 es2 : emplaced (es1 ++ es2) = emplaced es1 ++ emplaced es2.
Proof. apply omap_app. Qed.

Lemma wakeups_app es1 es2 : wakeups (es1 ++ es2) = wakeups es1 + wakeups es2.
Proof. unfold wakeups. by rewrite omap_app, length_app. Qed.

Lemma invoke_frame_refl t q : invoke_frame t q q.
Proof.
  split_and!; [apply same_pool_refl|done..|].
  exists [], []. by rewrite app_nil_r.
Qed.

Lemma invoke_frame_trans t q1 q2 q3 :
  invoke_frame t q1 q2 → invoke_frame t q2 q3 → invoke_frame t q1 q3.
Proof.
  intros (Hp1 & Hd1 & Hh1 & es1 & l1 & Ht1 & He1 & Hw1 & Hq1 & Hl1)
         (Hp2 & Hd2 & Hh2 & es2 & l2 & Ht2 & He2 & Hw2 & Hq2 & Hl2).
  split_and!.
  - by eapply same_pool_trans.
  - intros g. by rewrite Hd2, Hd1.
  - auto.
  - exists (es1 ++ es2), (l2 ++ l1). split_and!.
    + by rewrite Ht2, Ht1, app_assoc.
    + by rewrite forallb_app, He1, He2.
    + rewrite wakeups_app, emplaced_app, length_app. lia.
    + by rewrite Hq2, Hq1, app_assoc.
    + rewrite emplaced_app, !length_app. lia.
Qed.

Lemma invoke_frame_quiet t q q' :
  same_pool q q' → (∀ g, dependents q' g = dependents q g) →
  (∀ g, is_Some (InvokersOnHold q' !! g) → is_Some (InvokersOnHold q !! g)) →
  Trace q' = Trace q → InvokerQueue q' = InvokerQueue q → invoke_frame t q q'.
Proof.
  intros Hp Hd Hh Ht Hq. split_and!; [done..|].
  exists [], []. by rewrite app_nil_r.
Qed.

Lemma emplaced_fmap (l : list future) : emplaced (EvEmplaceFront <$> l) = l.
Proof. induction l as [|f l IH]; [done|]. rewrite fmap_cons. unfold emplaced in *. cbn. by rewrite IH. Qed.

Lemma emplaced_replicate n : emplaced (replicate n EvNotifyOne) = [].
Proof. induction n as [|n IH]; [done|]. exact IH. Qed.

Lemma wakeups_fmap (l : list future) : wakeups (EvEmplaceFront <$> l) = 0.
Proof. induction l as [|f l IH]; [done|]. exact IH. Qed.

Lemma wakeups_replicate n : wakeups (replicate n EvNotifyOne) = n.
Proof. induction n as [|n IH]; [done|]. unfold wakeups in *. cbn. by rewrite IH. Qed.

Lemma invoke_event_emplace t (l : list future) :
  forallb (invoke_event t) (EvEmplaceFront <$> l) = true.
Proof. induction l as [|f l IH]; [done|]. exact IH. Qed.

Lemma invoke_event_notify t n : forallb (invoke_event t) (replicate n EvNotifyOne) = true.
Proof. induction n as [|n IH]; [done|]. exact IH. Qed.

Lemma launch_invokers_frame t l q q' :
  launch_invokers l q = Ok q' → invoke_frame t q q'.
Proof.
  intros H. apply launch_invokers_spec in H as (Hq & Ho & _ & _ & Hd & Ht & Hp).
  split_and!; [done|done|by intros g; rewrite Ho|].
  eexists _, _. split_and!; [exact Ht| | |exact Hq|].
  - by rewrite forallb_app, invoke_event_emplace, invoke_event_notify.
  - rewrite wakeups_app, emplaced_app, wakeups_fmap, wakeups_replicate.
    rewrite emplaced_fmap, emplaced_replicate, app_nil_r, length_fmap. done.
  - rewrite emplaced_app, emplaced_fmap, emplaced_replicate, app_nil_r.
    by rewrite !length_fmap, length_rev.
Qed.

Lemma signal_loop_frame t invoke dependents invokersToLaunch q acc' q' :
  (∀ i q q', invoke i q = Ok q' → invoke_frame t q q') →
  signal_loop invoke dependents invokersToLaunch q = Ok (acc', q') →
  invoke_frame t q q'.
Proof.
  intros Hinv. revert invokersToLaunch q.
  induction dependents as [|f deps IH]; intros acc q H; simpl in H.
  - inv_res. apply invoke_frame_refl.
  - apply bind_Ok in H as ([a q1] & E & H).
    apply signal_dependent_spec in E as (st & Hst & _ & _ & Hd & Hq & Ht & Hp & Ha).
    assert (invoke_frame t q q1) as H01.
    { apply invoke_frame_quiet; try done. intros g.
      destruct a as [|w|w].
      - destruct Ha as [-> _]. done.
      - destruct Ha as (_&_&_&->&_). by intros [_ ?]%lookup_delete_is_Some.
      - destruct Ha as (_&_&_&->&_). by intros [_ ?]%lookup_delete_is_Some. }
    destruct a as [|w|w].
    + eapply invoke_frame_trans; eauto.
    + apply bind_Ok in H as (q2 & E2 & H).
      eapply invoke_frame_trans; [exact H01|].
      eapply invoke_frame_trans; eauto.
    + eapply invoke_frame_trans; eauto.
Qed.

Lemma Invoke_frame fuel t inv q q' :
  Invoke fuel t inv q = Ok q' → invoke_frame t q q'.
Proof.
  revert inv q q'. induction fuel as [|fuel IH]; intros inv q q' H; simpl in H; [done|].
  apply bind_Ok in H as (q1 & E1 & H). apply bind_Ok in H as (q2 & E2 & H).
  unfold SignalDependentSharedFutures_with in H.
  apply bind_Ok in H as (st & _ & H). apply bind_Ok in H as ([acc q3] & E3 & H).
  apply store_Status_spec in E1 as (_ & _ & _ & Hd1 & Hq1 & Ho1 & Ht1 & Hp1).
  apply call_invoker_spec in E2 as (_ & _ & _ & Hd2 & Hq2 & Ho2 & Ht2 & Hp2).
  assert (invoke_frame t q q1) as H01.
  { apply invoke_frame_quiet; try done. intros g. by rewrite Ho1. }
  assert (invoke_frame t q1 q2) as H12.
  { split_and!; [done|done|by intros g; rewrite Ho2|].
    exists [EvRun t (GetSharedState inv)], []. split_and!; try done.
    simpl. by rewrite bool_decide_eq_true_2. }
  pose proof (signal_loop_frame t _ _ _ _ _ _ IH E3) as H23.
  pose proof (launch_invokers_frame t _ _ _ H) as H34.
  eauto using invoke_frame_trans.
Qed.

(** X13: whatever [Invoke] runs, nested invocations included, it leaves the
    pool and the lists of dependents alone, only removes entries from the
    on-hold store, only adds entries at the front of the ready queue, and its
    events are payloads run on the calling thread, insertions at the front and
    wakeups, with exactly one wakeup per insertion. *)
Theorem Invoke_leaves_the_pool_alone fuel t invoker q q' :
  Invoke fuel t invoker q = Ok q' →
  same_pool q q' ∧ (∀ g, dependents q' g = dependents q g) ∧
  (∀ g, is_Some (InvokersOnHold q' !! g) → is_Some (InvokersOnHold q !! g)) ∧
  ∃ es l, Trace q' = Trace q ++ es ∧ forallb (invoke_event t) es = true ∧
          wakeups es = length (emplaced es) ∧
          InvokerQueue q' = l ++ InvokerQueue q ∧ length l = length (emplaced es).
Proof. apply Invoke_frame. Qed.

(** ** Signals that are not the last one *)

(** X20: a signal that is not the last one only counts.  When each future
    in the list is not ON_HOLD, or has more priors remaining than it occurs in
    the list, the loop collects and invokes nothing, lowers each counter by
    the number of occurrences, and leaves the statuses, the on-hold store, the
    ready queue and the trace unchanged. *)
Theorem signal_loop_only_counts invoke futures invokersToLaunch q :
  (∀ f, f ∈ futures →
        ∃ st, Heap q !! f = Some st ∧
              (Status st ≠ ON_HOLD ∨
               (Z.of_nat (occurrences f futures)
                < NumberOfPriorSharedFuturesRemaining st)%Z)) →
  ∃ q', signal_loop invoke futures invokersToLaunch q = Ok (invokersToLaunch, q') ∧
    (∀ g, counter q' g = (λ c, c - Z.of_nat (occurrences g futures))%Z <$> counter q g) ∧
    (∀ g, status q' g = status q g) ∧ (∀ g, dependents q' g = dependents q g) ∧
    InvokersOnHold q' = InvokersOnHold q ∧ InvokerQueue q' = InvokerQueue q ∧
    Trace q' = Trace q ∧ same_pool q q'.
Proof.
  revert q. induction futures as [|f deps IH]; intros q Hall.
  - exists q. split_and!; try done.
    intros g. simpl. destruct (counter q g); simpl; [f_equal; lia|done].
  - destruct (Hall f) as (st & Hst & Hcase); [by left|].
    simpl in Hcase. rewrite decide_True in Hcase by done.
    assert (∃ q1, signal_dependent f q = Ok (Skip, q1)) as [q1 E].
    { unfold signal_dependent, load. rewrite Hst. simpl.
      destruct (store_counter_total f (NumberOfPriorSharedFuturesRemaining st - 1) q)
        as [q1 E1]; [eauto|].
      rewrite E1. simpl. rewrite decide_False; [eauto|].
      intros [Hon Hz]. destruct Hcase as [?|?]; [done|lia]. }
    pose proof E as E'.
    apply signal_dependent_spec in E' as (st' & Hst' & Hs & Hc & Hd & Hq & Ht & Hp & Ho & _).
    assert (st' = st) as -> by congruence.
    destruct (IH q1) as (q' & Hrun & Hc' & Hs' & Hd' & Ho' & Hq' & Ht' & Hp').
    { intros g Hg. destruct (Hall g) as (sg & Hsg & Hg'); [by right|].
      simpl in Hg'. 
      assert (is_Some (Heap q1 !! g)) as [sg1 Hsg1].
      { apply status_is_Some. rewrite Hs. apply status_is_Some. eauto. }
      exists sg1. split; [done|].
      pose proof (Hs g) as Hsg'. unfold status in Hsg'. rewrite Hsg, Hsg1 in Hsg'.
      simpl in Hsg'. injection Hsg' as Hsg'.
      pose proof (Hc g) as Hcg. unfold counter in Hcg. rewrite Hsg, Hsg1 in Hcg.
      simpl in Hcg. rewrite Hsg'.
      destruct Hg' as [?|Hlt]; [by left|right].
      destruct (decide (g = f)) as [->|Hne].
      - rewrite ?decide_True in Hlt by done. assert (sg = st) as -> by congruence.
        injection Hcg as ->. lia.
      - rewrite ?decide_False in Hlt by done. injection Hcg as ->. simpl in Hlt. lia. }
    exists q'. split_and!.
    + simpl. rewrite E. simpl. exact Hrun.
    + intros g. rewrite Hc', Hc. simpl.
      destruct (decide (g = f)) as [->|Hne].
      * unfold counter. rewrite Hst. simpl. f_equal. lia.
      * destruct (counter q g); simpl; [f_equal; lia|done].
    + intros g. by rewrite Hs', Hs.
    + intros g. by rewrite Hd', Hd.
    + by rewrite Ho', Ho.
    + by rewrite Hq', Hq.
    + by rewrite Ht', Ht.
    + by eapply same_pool_trans.
Qed.

(** ** Reinsertion into an empty queue *)

(** X14: reinsertion into an empty ready queue: the count starts at the
    number of collected invokers, so that the queue becomes the collected
    invokers in reverse order, addressable from index 0 at its front, each
    ENQUEUED, with one wakeup per invoker. *)
Theorem launch_invokers_on_empty_queue invokersToLaunch q :
  InvokerQueue q = [] →
  NoDup (GetSharedState <$> invokersToLaunch) →
  (∀ inv, inv ∈ invokersToLaunch → status q (GetSharedState inv) = Some ON_HOLD) →
  (Z.of_nat (length invokersToLaunch) < 2 ^ 63)%Z →
  ∃ q', launch_invokers invokersToLaunch q = Ok q' ∧
    InvokerQueue q' = Some <$> rev invokersToLaunch ∧
    addressable q' 0 ∧
    (∀ inv, inv ∈ invokersToLaunch → status q' (GetSharedState inv) = Some ENQUEUED) ∧
    Trace q' = Trace q ++ (EvEmplaceFront <$> (GetSharedState <$> invokersToLaunch))
                       ++ replicate (length invokersToLaunch) EvNotifyOne.
Proof.
  intros Hq Hnd Hst Hlen.
  destruct (launch_loop_indices invokersToLaunch (Z.of_nat (length invokersToLaunch)) q
              Hnd Hst) as (q1 & Hloop & Hidx & _); [lia..|].
  rewrite <- to_size_t_of_nat in Hloop by lia.
  assert (launch_invokers invokersToLaunch q
          = Ok (emit (replicate (length invokersToLaunch) EvNotifyOne) q1)) as Hrun.
  { unfold launch_invokers. destruct invokersToLaunch as [|inv l].
    - simpl in Hloop. by inv_res.
    - rewrite Hq. simpl. simpl in Hloop. rewrite Hloop. done. }
  eexists. split; [exact Hrun|].
  apply launch_invokers_spec in Hrun as (Hq' & _ & Hs & _ & _ & Ht & _).
  rewrite Hq, app_nil_r in Hq'. split_and!; [done| | |done].
  - intros k inv Hk. rewrite Hq' in Hk. rewrite list_lookup_fmap in Hk.
    destruct (rev invokersToLaunch !! k) as [w|] eqn:Ew; [|done].
    simpl in Hk. injection Hk as ->.
    rewrite rev_alt in Ew. apply (reverse_lookup_Some invokersToLaunch) in Ew as [Ew Hlt].
    pose proof (Hidx _ _ Ew) as Hi. unfold index_of in Hi |- *. simpl.
    rewrite Hi. f_equal. lia.
  - intros inv Hin. rewrite Hs, decide_True; [done|]. by apply list_elem_of_fmap_2.
Qed.

(** ** After the destructor has started *)

Lemma step_keeps_sync_frames t fs s :
  (∀ n, InSync n ∈ fs ↔ InSync n ∈ stack s t) →
  ∀ n, InSync n ∈ frames (<[t := fs]> (Stacks s)) ↔ InSync n ∈ frames (Stacks s).
Proof. intros H. by apply frames_sync_insert. Qed.

Lemma step_destroying l s s' :
  quiescent s → step l s = Done s' →
  quiescent s' ∧ (Destroying (Shared s) = true → frozen (Shared s) (Shared s')).
Proof.
  intros Hq H.
  assert (task_label l ∨ ¬ task_label l) as [Hl|Hl] by (destruct l; simpl; auto).
  { destruct (step_task_shape _ _ _ Hl H) as ((HN & HD & HT & HI & HA & HX) & _ & Hsync).
    split.
    - intros Hd n Hn. apply Hsync in Hn. revert Hn. apply Hq. by rewrite <- HD.
    - intros Hd. split_and!; try done; [by rewrite HD|]. intros t. by rewrite HI. }
  destruct l as [| | | |t n|t|t| |t| | | |]; try (by exfalso; apply Hl); simpl in H.
  - apply bind_Done in H as ([] & _ & H). apply bind_Done in H as ([] & _ & H).
    destruct (Destroying (Shared s)) eqn:Hd.
    { inv_res. split; [done|]. intros _. by split_and!. }
    split; [|done].
    destruct (decide _); [inv_res; done|].
    destruct (decide _); inv_res.
    + intros Hd'.
      set (s0 := with_Shared (with_NumberOfThreads n (Shared s)) s) in *.
      destruct (iter_spawn_worker_length (Z.to_nat (n - Z.of_nat (length (Threads (Shared s)))))
                  (Shared s0)) as [_ HD].
      assert (∀ k x, Shared (Nat.iter k spawn x) = Nat.iter k spawn_worker (Shared x)) as Hsh.
      { intros k x. induction k as [|k IH]; [done|]. rewrite !Nat.iter_succ.
        unfold spawn at 1. simpl. by rewrite IH. }
      rewrite Hsh, HD in Hd'. simpl in Hd'. congruence.
    + intros Hd'. simpl in Hd'.
      match goal with H : shrink_begin _ _ _ = Ok _ |- _ =>
        apply shrink_begin_fields in H as (_ & HD & _) end.
      congruence.
  - destruct (stack s t) as [|[| | |n| |] fs] eqn:Est; try done.
    apply bind_Done in H as ([] & _ & H). apply bind_Done in H as (q' & E & H).
    apply lift_Done in E. inv_res.
    apply shrink_end_Ok in E as (_&_&_&_&HD&_).
    assert (Destroying (Shared s) = true → False) as Hno.
    { intros Hd. apply (Hq Hd n). apply (elem_of_frames _ t).
      unfold stack in Est. rewrite Est. by left. }
    split; [|by intros Hd; destruct (Hno Hd)].
    intros Hd. simpl in Hd. rewrite HD in Hd. by destruct (Hno Hd).
  - apply bind_Done in H as ([] & _ & H). apply bind_Done in H as ([] & Hg & H).
    apply guard_Done, negb_true_iff in Hg. inv_res.
    assert (∀ n, InSync n ∈ frames (<[t := InDestructor :: stack s t]> (Stacks s))
                 ↔ InSync n ∈ frames (Stacks s)) as Hsync.
    { apply step_keeps_sync_frames. intros n. rewrite elem_of_cons. naive_solver. }
    split.
    + intros _ n Hn. apply Hsync in Hn. revert Hn.
      by apply (proj1 (DestroyMutex_free s)).
    + intros Hd. by split_and!.
  - destruct (stack s t) as [|[| | | | |] fs] eqn:Est; try done. inv_res.
    assert (∀ n, InSync n ∈ frames (<[t := fs]> (Stacks s))
                 ↔ InSync n ∈ frames (Stacks s)) as Hsync.
    { apply step_keeps_sync_frames. intros n. rewrite Est, elem_of_cons. naive_solver. }
    split.
    + intros Hd n Hn. apply Hsync in Hn. revert Hn. by apply Hq.
    + intros Hd. split_and!; try done. simpl. intros t'.
      intros [c [_ Hc]%lookup_delete_Some]. eauto.
Qed.

Lemma reachable_quiescent s : reachable s → quiescent s.
Proof.
  induction 1 as [|l s s' Hr IH H]; [done|].
  by destruct (step_destroying _ _ _ IH H).
Qed.

Lemma frozen_trans q1 q2 q3 : frozen q1 q2 → frozen q2 q3 → frozen q1 q3.
Proof.
  intros (?&?&?&?&?&?) (?&?&?&?&?&?). split_and!; try congruence. auto.
Qed.

(** X21: once [Destroying] is set in a reachable state, it stays set and no
    later transition changes [Threads], [NumberOfThreads] or an index cell;
    registrations are only erased. *)
Theorem pool_is_frozen_once_destroying ls s s' :
  reachable s → Destroying (Shared s) = true → run ls s = Done s' →
  Destroying (Shared s') = true ∧ Threads (Shared s') = Threads (Shared s) ∧
  NumberOfThreads (Shared s') = NumberOfThreads (Shared s) ∧
  Atomics (Shared s') = Atomics (Shared s) ∧
  NextThreadId (Shared s') = NextThreadId (Shared s) ∧
  ∀ t, is_Some (ThreadIdToIndex (Shared s') !! t) →
       is_Some (ThreadIdToIndex (Shared s) !! t).
Proof.
  intros Hr Hd Hrun.
  assert (quiescent s) as Hq by (by apply reachable_quiescent).
  clear Hr. revert s Hd Hq Hrun. induction ls as [|l ls IH]; intros s Hd Hq Hrun; simpl in Hrun.
  - inv_res. by split_and!.
  - apply bind_Done in Hrun as (s1 & E & Hrun).
    destruct (step_destroying _ _ _ Hq E) as [Hq1 Hf]. specialize (Hf Hd).
    apply (frozen_trans _ (Shared s1)); [done|].
    apply IH; [by destruct Hf|done..].
Qed.

(** * Instances of the further properties *)

Lemma Pop_take_cases_witness :
  Pop_take (mkThreadWorker 0) (Shared (state_after three_pushes))
  = Ok (PopTaken (mkInvoker 0 false)
          (PopFrontNullptr
             (with_InvokerQueue [Some (mkInvoker 1 false); Some (mkInvoker 2 false)]
                (Shared (state_after three_pushes))))).
Proof.
  apply (proj1 (proj2 (proj2 (Pop_take_cases (mkThreadWorker 0)
                                (Shared (state_after three_pushes)) 0
                                ltac:(by vm_compute))))).
  split; [by vm_compute|].
  exists [Some (mkInvoker 1 false); Some (mkInvoker 2 false)].
  split; [by vm_compute|reflexivity].
Defined.

Lemma ThreadWorker_drains_in_order_witness :
  ∃ q', ThreadWorker_run 4 1 0 (mkThreadWorker 0) (Shared (state_after three_pushes))
        = Ok (WorkerAsleep, q') ∧
        Trace q' = Trace (Shared (state_after three_pushes))
                   ++ [EvRun 0 0; EvRun 0 1; EvRun 0 2].
Proof.
  destruct (ThreadWorker_drains_in_order 4 0 0 (mkThreadWorker 0)
              (Shared (state_after three_pushes)) 0)
    as (q' & Hrun & _ & Htr & _).
  - by vm_compute.
  - by vm_compute.
  - by vm_compute.
  - intros inv Hin. vm_compute in Hin.
    repeat (apply elem_of_cons in Hin as [Hin|Hin];
            [injection Hin as Hin; subst inv; by vm_compute|]).
    by apply elem_of_nil in Hin.
  - vm_compute. lia.
  - exists q'. split; [rewrite Hrun|rewrite Htr]; by vm_compute.
Defined.

Lemma SetNumberOfThreads_grows_witness :
  ∃ q', SetNumberOfThreads 100 4 new_queue = Ok q' ∧
        Threads q' = Threads new_queue ++ [1; 2; 3] ∧
        Trace q' = Trace new_queue ++ [EvSpawn 1; EvSpawn 2; EvSpawn 3].
Proof.
  destruct (SetNumberOfThreads_grows 100 4 new_queue)
    as (q' & spawned & Hrun & HT & Hlen & _ & _ & Htr & _).
  - by vm_compute.
  - by vm_compute.
  - intros t [c Hc].
    assert (ThreadIdToIndex new_queue = {[0 := 0]}) as E by (by vm_compute).
    assert (NextThreadId new_queue = 1) as -> by (by vm_compute).
    rewrite E in Hc. apply lookup_singleton_Some in Hc as [<- _]. lia.
  - exists q'. split; [done|].
    assert (Ok q' = Ok pool_of_four) as Hq' by (rewrite <- Hrun; by vm_compute).
    injection Hq' as ->. split; by vm_compute.
Defined.

Lemma new_queue_resized_witness :
  ∃ q, (q0 ← vtkThreadedCallbackQueue_new 100; SetNumberOfThreads 100 4 q0) = Ok q ∧
       Threads q = [0; 1; 2; 3] ∧ NumberOfThreads q = 4%Z.
Proof.
  destruct (new_queue_resized 100 100 4) as (q & Hrun & HT & HN & _); [lia|].
  exists q. split_and!; [done|rewrite HT; by vm_compute|done].
Defined.

Lemma SetNumberOfThreads_idempotent_witness :
  ∃ q', SetNumberOfThreads 3 1 pool_of_four = Ok q' ∧
        SetNumberOfThreads 100 1 q' = Ok q'.
Proof.
  eexists. split; [by vm_compute|].
  apply (proj1 (SetNumberOfThreads_idempotent 3 100 1 pool_of_four _ ltac:(by vm_compute))).
Defined.

Lemma shrink_from_unregistered_thread_witness :
  SetNumberOfThreads 100 1 pool_of_four = Err OutOfRange.
Proof. apply shrink_from_unregistered_thread; by vm_compute. Defined.

Lemma shrink_to_zero_from_worker_witness :
  SetNumberOfThreads 3 0 pool_of_four = Err ResourceDeadlock.
Proof.
  apply (shrink_to_zero_from_worker 3 pool_of_four 3 3 0 0); try by vm_compute.
  exists 0%Z. by vm_compute.
Defined.

Lemma shrink_from_surviving_worker_witness :
  ∃ q', SetNumberOfThreads 0 2 pool_of_four = Ok q' ∧ Threads q' = [0; 1] ∧
        Trace q' = Trace pool_of_four ++ [EvNotifyAll; EvJoin 2; EvJoin 3].
Proof.
  eexists. split.
  - apply (shrink_from_surviving_worker 0 2 pool_of_four 0 0); try by vm_compute.
    vm_compute. set_solver.
  - split; by vm_compute.
Defined.

Lemma TryInvoke_on_null_slot_witness :
  TryInvoke 1 102 1 (Shared (state_after tombstone_schedule))
  = Ok (false, Shared (state_after tombstone_schedule)).
Proof.
  apply (TryInvoke_on_null_slot 1 102 1 (Shared (state_after tombstone_schedule))
           (mkSharedState ENQUEUED 0 [] 1) 0); by vm_compute.
Defined.

Lemma TryInvoke_runs_queued_target_witness :
  ∃ q', TryInvoke 1 102 1 (Shared (state_after two_pushes)) = Ok (true, q') ∧
        Trace q' = Trace (Shared (state_after two_pushes)) ++ [EvRun 102 1] ∧
        InvokerQueue q' = [Some (mkInvoker 0 false); None].
Proof.
  destruct (TryInvoke_runs_queued_target 0 102 (Shared (state_after two_pushes)) 0 1
              (mkInvoker 1 false) (mkSharedState ENQUEUED 0 [] 1))
    as (q' & Hrun & _ & Htr & Hq & _); try by vm_compute.
  - intros k inv Hk.
    assert (InvokerQueue (Shared (state_after two_pushes))
            = [Some (mkInvoker 0 false); Some (mkInvoker 1 false)]) as E by (by vm_compute).
    rewrite E in Hk. destruct k as [|[|k]]; simplify_eq/=; by vm_compute.
  - exists q'. split_and!; [done..|]. rewrite Hq. by vm_compute.
Defined.

Lemma Invoke_leaves_the_pool_alone_witness :
  ∃ q', Invoke 2 0 (mkInvoker 0 false) (Shared (state_after (take 4 chain_schedule))) = Ok q' ∧
        same_pool (Shared (state_after (take 4 chain_schedule))) q' ∧
        InvokerQueue q' = [Some (mkInvoker 1 false)].
Proof.
  eexists. split; [by vm_compute|]. split.
  - apply (Invoke_leaves_the_pool_alone 2 0 (mkInvoker 0 false)
             (Shared (state_after (take 4 chain_schedule)))). by vm_compute.
  - by vm_compute.
Defined.

Lemma each_payload_runs_at_most_once_witness :
  NoDup (runs (Trace (Shared (state_after (chain_schedule ++ [LPayloadDone 0]))))).*2 ∧
  runs (Trace (Shared (state_after (chain_schedule ++ [LPayloadDone 0])))) = [(0, 0); (0, 1)].
Proof.
  split; [|by vm_compute].
  apply each_payload_runs_at_most_once, state_after_reachable.
Defined.

Lemma priors_run_first_witness :
  ∃ j t', j < 1 ∧
    runs (Trace (Shared (state_after (chain_schedule ++ [LPayloadDone 0])))) !! j
    = Some (t', 0).
Proof.
  apply (priors_run_first (state_after (chain_schedule ++ [LPayloadDone 0])) 1 0 1 0).
  - apply state_after_reachable.
  - by vm_compute.
  - vm_compute. apply list_elem_of_here.
Defined.

Lemma worker_transitions_never_fail_witness :
  step (LSignal 101) (state_after (take 9 race_schedule)) = NotEnabled ∨
  ∃ s', step (LSignal 101) (state_after (take 9 race_schedule)) = Done s'.
Proof.
  apply worker_transitions_never_fail; [apply state_after_reachable|exact I].
Defined.


Lemma invokers_have_one_holder_witness :
  head (InvokerQueue (Shared (state_after race_schedule))) ≠ Some None ∧
  InvokerQueue (Shared (state_after race_schedule))
  = [Some (mkInvoker 1 false); Some (mkInvoker 3 false)].
Proof.
  split; [|by vm_compute].
  apply (invokers_have_one_holder (state_after race_schedule)).
  apply state_after_reachable.
Defined.

Lemma launch_invokers_on_empty_queue_witness :
  ∃ q', launch_invokers [mkInvoker 1 false] (Shared (state_after (take 7 chain_schedule)))
        = Ok q' ∧
        InvokerQueue q' = [Some (mkInvoker 1 false)] ∧ index_of q' 1 = Some 0%Z.
Proof.
  destruct (launch_invokers_on_empty_queue [mkInvoker 1 false]
              (Shared (state_after (take 7 chain_schedule))))
    as (q' & Hrun & Hq & Haddr & _).
  - by vm_compute.
  - vm_compute. apply NoDup_singleton.
  - intros inv ->%list_elem_of_singleton. by vm_compute.
  - vm_compute. reflexivity.
  - exists q'. split_and!; [done..|]. apply (Haddr 0 (mkInvoker 1 false)). by rewrite Hq.
Defined.

Lemma signal_loop_only_counts_witness :
  ∃ q', signal_loop (Invoke 1 0) [2] [] (Shared (state_after join_schedule)) = Ok ([], q') ∧
        counter q' 2 = Some 1%Z ∧
        InvokersOnHold q' = InvokersOnHold (Shared (state_after join_schedule)).
Proof.
  destruct (signal_loop_only_counts (Invoke 1 0) [2] [] (Shared (state_after join_schedule)))
    as (q' & Hrun & Hc & _ & _ & Ho & _).
  - intros f ->%list_elem_of_singleton. eexists. split; [by vm_compute|].
    right. vm_compute. reflexivity.
  - exists q'. split_and!; [done| |done]. rewrite Hc. by vm_compute.
Defined.

Lemma pool_is_frozen_once_destroying_witness :
  Threads (Shared (state_after (destroy_schedule ++ after_destroy_schedule)))
  = Threads (Shared (state_after destroy_schedule)) ∧
  NumberOfThreads (Shared (state_after (destroy_schedule ++ after_destroy_schedule)))
  = NumberOfThreads (Shared (state_after destroy_schedule)).
Proof.
  destruct (pool_is_frozen_once_destroying after_destroy_schedule
              (state_after destroy_schedule)
              (state_after (destroy_schedule ++ after_destroy_schedule)))
    as (_ & HT & HN & _).
  - apply state_after_reachable.
  - by vm_compute.
  - by vm_compute.
  - by split.
Defined.

Lemma TryInvoke_abort_witness :
  TryInvoke 1 102 1 (Shared (state_after (chain_schedule ++ [LPayloadDone 0])))
  = Ok (false, Shared (state_after (chain_schedule ++ [LPayloadDone 0]))).
Proof.
  apply (TryInvoke_abort 1 102 1 _ (mkSharedState DONE 0 [] 0)); [by vm_compute|].
  left. discriminate.
Defined.

